(** * go-version: a shallow embedding of the load / validate / publish core

    The development follows the Go packages of the repository:

    - [os], [strings], [strconv], [sort], [http]: the few functions of
      Go's standard library the code calls, written out on byte strings;
    - [semver]: [internal/semver] (Parse, String, Compare and the
      derived predicates);
    - [version]: the root package: the [Info] snapshot with its
      copy-out getters over a store of Go maps, the manifest loader,
      enrichment, the validators, the singleton, the HTTP handlers and
      the public semantic version API;
    - [main]: the command line tool's map printer.

    Go's [int] is taken at its 64-bit size.  A Go [string] is a sequence
    of bytes, here [string] (a list of 8-bit [ascii]).  A Go map is a
    reference: map values live in a store and [Info] holds locations. *)

From Stdlib Require Import ZArith Ascii String List Lia Bool.
From stdpp Require Import base gmap strings list fin_maps sorting.

Local Open Scope string_scope.
Local Open Scope Z_scope.

(** ** Go errors *)

Inductive Errno := ENOENT | EACCES | EISDIR | EIO.

(** The error values the code creates or tests: [os.ErrNotExist], the
  [*fs.PathError] of [os.ReadFile], and the values of [fmt.Errorf]:
  [Errorf] for a format without [%w], [Wrapf] for one with it, which
  keeps the wrapped operand beside the rendered message. *)
Inductive error :=
| ErrNotExist
| PathError (op path : string) (errno : Errno)
| Errorf (msg : string)
| Wrapf (msg : string) (wrapped : error).

Inductive result (A : Type) :=
| Ok (a : A)
| Err (e : error).
Arguments Ok {A} a.
Arguments Err {A} e.

Definition errno_message (e : Errno) : string :=
match e with
| ENOENT => "no such file or directory"
| EACCES => "permission denied"
| EISDIR => "is a directory"
| EIO => "input/output error"
end.

(** [err.Error()]. *)
Definition Error (e : error) : string :=
match e with
| ErrNotExist => "file does not exist"
| PathError op path errno => op +:+ " " +:+ path +:+ ": " +:+ errno_message errno
| Errorf msg => msg
| Wrapf msg _ => msg
end.

Module os.

(** [os.IsNotExist]: looks through a [PathError] only; a value of
    [fmt.Errorf] is never unwrapped. *)
Definition IsNotExist (e : error) : bool :=
  match e with
  | ErrNotExist => true
  | PathError _ _ ENOENT => true
  | PathError _ _ _ => false
  | Errorf _ => false
  | Wrapf _ _ => false
  end.

End os.

(** ** The functions of [strings], [strconv] and [fmt] the code uses *)

Module strings.

Fixpoint strip_prefix (p s : string) : option string :=
  match p, s with
  | EmptyString, _ => Some s
  | String a p', String b s' => if Ascii.eqb a b then strip_prefix p' s' else None
  | String _ _, EmptyString => None
  end.

Definition TrimPrefix (s p : string) : string :=
  match strip_prefix p s with
  | Some r => r
  | None => s
  end.

(** The text before and after the first [sep]. *)
Fixpoint cut (sep : ascii) (s : string) : option (string * string) :=
  match s with
  | EmptyString => None
  | String c r =>
      if Ascii.eqb c sep then Some (EmptyString, r)
      else match cut sep r with
           | Some (a, b) => Some (String c a, b)
           | None => None
           end
  end.

(** [strings.SplitN(s, sep, 2)] for a one-byte separator. *)
Definition SplitN2 (s : string) (sep : ascii) : list string :=
  match cut sep s with
  | Some (a, b) => [a; b]
  | None => [s]
  end.

(** [strings.Split(s, sep)] for a one-byte separator. *)
Fixpoint Split (s : string) (sep : ascii) : list string :=
  match s with
  | EmptyString => [EmptyString]
  | String c r =>
      if Ascii.eqb c sep then EmptyString :: Split r sep
      else match Split r sep with
           | h :: t => String c h :: t
           | [] => [String c EmptyString]
           end
  end.

(** The white space of ASCII: tab, line feed, vertical tab, form feed,
    carriage return and space. *)
Definition is_space (c : ascii) : bool :=
  let n := N_of_ascii c in
  (N.eqb n 32 || (N.leb 9 n && N.leb n 13))%bool.

(** The white space of [unicode.IsSpace] above ASCII, in UTF-8: U+0085
    and U+00A0 on two bytes; U+1680, U+2000 to U+200A, U+2028, U+2029,
    U+202F, U+205F and U+3000 on three. *)
Definition is_space2 (a b : ascii) : bool :=
  (N.eqb (N_of_ascii a) 194
   && (N.eqb (N_of_ascii b) 133 || N.eqb (N_of_ascii b) 160))%bool.

Definition is_space3 (a b c : ascii) : bool :=
  let x := N_of_ascii a in
  let y := N_of_ascii b in
  let z := N_of_ascii c in
  ((N.eqb x 225 && N.eqb y 154 && N.eqb z 128)
   || (N.eqb x 226 && N.eqb y 128
       && ((N.leb 128 z && N.leb z 138) || N.eqb z 168 || N.eqb z 169 || N.eqb z 175))
   || (N.eqb x 226 && N.eqb y 129 && N.eqb z 159)
   || (N.eqb x 227 && N.eqb y 128 && N.eqb z 128))%bool.

(** The text is one white space character. *)
Definition is_space_rune (s : string) : bool :=
  match s with
  | String a EmptyString => is_space a
  | String a (String b EmptyString) => is_space2 a b
  | String a (String b (String c EmptyString)) => is_space3 a b c
  | _ => false
  end.

(** [strings.TrimLeftFunc(s, unicode.IsSpace)]: the text from its first
    character that is not white space; a byte that does not start a
    well-formed character is no white space. *)
Fixpoint TrimLeft (s : string) : string :=
  match s with
  | EmptyString => EmptyString
  | String a r =>
      if is_space a then TrimLeft r else
      match r with
      | String b r2 =>
          if is_space2 a b then TrimLeft r2 else
          match r2 with
          | String c r3 => if is_space3 a b c then TrimLeft r3 else s
          | EmptyString => s
          end
      | EmptyString => s
      end
  end.

(** [strings.TrimRightFunc(s, unicode.IsSpace)]: the text up to its last
    character that is not white space.  What is left of [String c r] is
    [c] before what is left of [r], unless that is a white space
    character as a whole. *)
Fixpoint TrimRight (s : string) : string :=
  match s with
  | EmptyString => EmptyString
  | String c r =>
      let t := String c (TrimRight r) in
      if is_space_rune t then EmptyString else t
  end.

(** [strings.TrimSpace]: leading and trailing white space, as Unicode
    defines it, removed. *)
Definition TrimSpace (s : string) : string := TrimRight (TrimLeft s).

End strings.

Module strconv.

Definition maxInt : Z := 2 ^ 63 - 1.
Definition minInt : Z := - 2 ^ 63.

Definition digit_val (c : ascii) : option Z :=
  let n := Z.of_N (N_of_ascii c) in
  if (48 <=? n) && (n <=? 57) then Some (n - 48) else None.

(** The digit loop: [n = n*10 + (ch - '0')], a syntax error on any
    other byte. *)
Fixpoint digits_acc (s : string) (acc : Z) : option Z :=
  match s with
  | EmptyString => Some acc
  | String c r =>
      match digit_val c with
      | Some d => digits_acc r (acc * 10 + d)
      | None => None
      end
  end.

Definition unsigned (s : string) : option Z :=
  match s with
  | EmptyString => None
  | _ => digits_acc s 0
  end.

(** [strconv.Atoi]: an optional sign, then decimal digits; [None]
    stands for both of its errors (syntax, out of range), which the
    callers here do not tell apart. *)
Definition Atoi (s : string) : option Z :=
  let signed :=
    match s with
    | String "+" r => (false, r)
    | String "-" r => (true, r)
    | _ => (false, s)
    end in
  match unsigned (snd signed) with
  | None => None
  | Some n =>
      let v := if fst signed then - n else n in
      if (minInt <=? v) && (v <=? maxInt) then Some v else None
  end.

Definition digit_char (d : Z) : ascii := ascii_of_N (Z.to_N (48 + d)).

(** The loop of [formatBits]: digits from the least significant one. *)
Fixpoint format_acc (fuel : nat) (n : Z) (acc : string) : string :=
  let acc' := String (digit_char (n mod 10)) acc in
  match fuel with
  | O => acc'
  | S f => if n <? 10 then acc' else format_acc f (n / 10) acc'
  end.

Definition utoa (n : Z) : string := format_acc (Z.to_nat (Z.log2 n)) n EmptyString.

(** [strconv.Itoa], which is what the verb [%d] prints for an [int]. *)
Definition Itoa (z : Z) : string :=
  if z <? 0 then String "-" (utoa (- z)) else utoa z.

End strconv.

Module fmt.

(** An operand of a formatting call. *)
Inductive arg :=
| Str (s : string)
| Int (z : Z)
| Err_ (e : error).

Definition render (a : arg) : string :=
  match a with
  | Str s => s
  | Int z => strconv.Itoa z
  | Err_ e => Error e
  end.

Definition is_verb (c : ascii) : bool :=
  (Ascii.eqb c "s" || Ascii.eqb c "d" || Ascii.eqb c "v" || Ascii.eqb c "w")%bool.

(** The text of a format with the verbs [%s], [%d], [%v], [%w] filled
    from the operands in order, and the operand of [%w] if there is
    one.  Every call in the code passes one operand per verb. *)
Fixpoint format (f : string) (args : list arg) : string * option error :=
  match f with
  | EmptyString => (EmptyString, None)
  | String c r =>
      match r with
      | String v r' =>
          if (Ascii.eqb c "%" && is_verb v)%bool then
            match args with
            | a :: args' =>
                let (s, w) := format r' args' in
                (render a +:+ s,
                 match a with
                 | Err_ e => if Ascii.eqb v "w" then Some e else w
                 | _ => w
                 end)
            | [] =>
                let (s, w) := format r' [] in
                ("%!" +:+ String v "(MISSING)" +:+ s, w)
            end
          else
            let (s, w) := format r args in (String c s, w)
      | EmptyString => (String c EmptyString, None)
      end
  end.

Definition Sprintf (f : string) (args : list arg) : string := fst (format f args).

(** [fmt.Errorf]: the value wraps the operand of [%w]. *)
Definition Errorf (f : string) (args : list arg) : error :=
  match format f args with
  | (msg, Some e) => Wrapf msg e
  | (msg, None) => Errorf msg
  end.

End fmt.

(** ** internal/semver *)

Module semver.

Record Version := {
  Major : Z;
  Minor : Z;
  Patch : Z;
  Prerelease : string;
  Build : string
}.

Definition at_ (l : list string) (i : nat) : string := nth i l EmptyString.

(** [Parse]. *)
Definition Parse (s : string) : result Version :=
  let s := strings.TrimPrefix s "v" in
  if String.eqb s "" then Err (fmt.Errorf "empty version string" []) else
  let parts := strings.SplitN2 s "+" in
  let versionPart := at_ parts 0 in
  let buildPart := if (1 <? length parts)%nat then at_ parts 1 else "" in
  let parts := strings.SplitN2 versionPart "-" in
  let corePart := at_ parts 0 in
  let prereleasePart := if (1 <? length parts)%nat then at_ parts 1 else "" in
  let coreParts := strings.Split corePart "." in
  if ((length coreParts <? 1)%nat || (3 <? length coreParts)%nat)%bool
  then Err (fmt.Errorf "invalid version format: %s" [fmt.Str s]) else
  match strconv.Atoi (at_ coreParts 0) with
  | None => Err (fmt.Errorf "invalid major version: %s" [fmt.Str (at_ coreParts 0)])
  | Some major =>
      match (if (1 <? length coreParts)%nat then strconv.Atoi (at_ coreParts 1) else Some 0) with
      | None => Err (fmt.Errorf "invalid minor version: %s" [fmt.Str (at_ coreParts 1)])
      | Some minor =>
          match (if (2 <? length coreParts)%nat then strconv.Atoi (at_ coreParts 2) else Some 0) with
          | None => Err (fmt.Errorf "invalid patch version: %s" [fmt.Str (at_ coreParts 2)])
          | Some patch =>
              Ok {| Major := major; Minor := minor; Patch := patch;
                    Prerelease := prereleasePart; Build := buildPart |}
          end
      end
  end.

(** [Version.String]. *)
Definition String_ (v : Version) : string :=
  let s := fmt.Sprintf "%d.%d.%d" [fmt.Int (Major v); fmt.Int (Minor v); fmt.Int (Patch v)] in
  let s := if negb (String.eqb (Prerelease v) "") then s +:+ "-" +:+ Prerelease v else s in
  let s := if negb (String.eqb (Build v) "") then s +:+ "+" +:+ Build v else s in
  s.

(** [Version.Compare]; Go's [<] on strings is the byte-wise
    lexicographic order, [String.ltb]. *)
Definition Compare (v other : Version) : Z :=
  if negb (Major v =? Major other) then
    (if Major v <? Major other then -1 else 1)
  else if negb (Minor v =? Minor other) then
    (if Minor v <? Minor other then -1 else 1)
  else if negb (Patch v =? Patch other) then
    (if Patch v <? Patch other then -1 else 1)
  else if (String.eqb (Prerelease v) "" && negb (String.eqb (Prerelease other) ""))%bool then 1
  else if (negb (String.eqb (Prerelease v) "") && String.eqb (Prerelease other) "")%bool then -1
  else if negb (String.eqb (Prerelease v) (Prerelease other)) then
    (if String.ltb (Prerelease v) (Prerelease other) then -1 else 1)
  else 0.

Definition LessThan (v other : Version) : bool := Compare v other <? 0.
Definition GreaterThan (v other : Version) : bool := Compare v other >? 0.
Definition Equal (v other : Version) : bool := Compare v other =? 0.
Definition GreaterThanOrEqual (v other : Version) : bool := Compare v other >=? 0.
Definition LessThanOrEqual (v other : Version) : bool := Compare v other <=? 0.

End semver.

(** ** [sort.Strings] *)

Module sort.

(** Go's [<=] on strings: the byte-wise lexicographic order. *)
Definition le (a b : string) : Prop := String.leb a b = true.

#[global] Instance le_dec (a b : string) : Decision (le a b) :=
  decide (String.leb a b = true).

(** [sort.Strings]: the strings in increasing order.  Which algorithm
    sorts does not show in the result, equal strings being the same
    string. *)
Definition Strings (x : list string) : list string := merge_sort le x.

End sort.

(** ** The part of [net/http] the handlers use *)

Module http.

Definition MethodGet : string := "GET".

Definition StatusOK : Z := 200.
Definition StatusMethodNotAllowed : Z := 405.
Definition StatusInternalServerError : Z := 500.
Definition StatusServiceUnavailable : Z := 503.

(** A [Header]: the values of each key.  The keys the code writes are
    in canonical form, which is how [Set] and [Del] store them. *)
Definition Header := gmap string (list string).

Definition Header_Set (h : Header) (key value : string) : Header := <[key := [value]]> h.
Definition Header_Del (h : Header) (key : string) : Header := delete key h.

(** A [*Request], by the one field the handlers read. *)
Record Request := { Method : string }.

(** A [ResponseWriter]: the header map, which a handler may still
    change, and what has gone out: the status with the headers as they
    were when [WriteHeader] was called, and the bytes of the body. *)
Record ResponseWriter := {
  header : Header;
  wrote : option (Z * Header);
  body : string
}.

Definition with_header (h : Header) (w : ResponseWriter) : ResponseWriter :=
  {| header := h; wrote := wrote w; body := body w |}.

(** [w.Header().Set(key, value)] and [w.Header().Del(key)]. *)
Definition Set_ (w : ResponseWriter) (key value : string) : ResponseWriter :=
  with_header (Header_Set (header w) key value) w.
Definition Del (w : ResponseWriter) (key : string) : ResponseWriter :=
  with_header (Header_Del (header w) key) w.

(** [w.WriteHeader(code)]: a second call is ignored. *)
Definition WriteHeader (w : ResponseWriter) (code : Z) : ResponseWriter :=
  match wrote w with
  | Some _ => w
  | None => {| header := header w; wrote := Some (code, header w); body := body w |}
  end.

(** [w.Write(data)]: sends the status 200 first if none was sent. *)
Definition Write (w : ResponseWriter) (data : string) : ResponseWriter :=
  let w := WriteHeader w StatusOK in
  {| header := header w; wrote := wrote w; body := body w +:+ data |}.

(** [http.Error]. *)
Definition Error (w : ResponseWriter) (error : string) (code : Z) : ResponseWriter :=
  let w := Del w "Content-Length" in
  let w := Set_ w "Content-Type" "text/plain; charset=utf-8" in
  let w := Set_ w "X-Content-Type-Options" "nosniff" in
  let w := WriteHeader w code in
  Write w (error +:+ String (ascii_of_nat 10) EmptyString).

End http.

(** ** package version *)

Module version.

(** *** Constants (version.constants.go) *)

Definition nl : string := String (ascii_of_nat 10) EmptyString.
Definition dq : string := String (ascii_of_nat 34) EmptyString.

Definition ManifestVersion : string := "1.0".
Definition ManifestFilenameYAML : string := "versions.yaml".

Definition DefaultGitCommit : string := "dev".
Definition DefaultGitTreeState : string := "clean".
Definition DefaultBuildTime : string := "unknown".
Definition DefaultBuildUser : string := "".
Definition DefaultProjectName : string := "unknown".
Definition DefaultProjectVersion : string := "0.0.0-dev".

Definition GitTreeStateDirty : string := "dirty".

Definition GitCmdName : string := "git".
Definition GitCmdRevParse : string := "rev-parse".
Definition GitCmdDescribe : string := "describe".
Definition GitArgHead : string := "HEAD".
Definition GitArgTags : string := "--tags".
Definition GitArgExactMatch : string := "--exact-match".

Definition VCSKeyRevision : string := "vcs.revision".
Definition VCSKeyTime : string := "vcs.time".
Definition VCSKeyModified : string := "vcs.modified".
Definition VCSValueTrue : string := "true".

Definition ErrMsgNotInitialized : string := "version not initialized".
Definition ErrMsgInitializeMultiple : string :=
  "version.Initialize() was already called (singleton enforces single initialization)".
Definition ErrMsgLoadManifest : string := "failed to load manifest".
Definition ErrMsgParseYAML : string := "failed to parse YAML".
Definition ErrMsgProjectNameRequired : string := "project name is required in manifest".
Definition ErrMsgProjectVersionRequired : string := "project version is required in manifest".
Definition ErrMsgValidationFailedWrap : string := "validation failed".
Definition ErrMsgStrictModeManifestRequired : string :=
  "strict mode: manifest file is required but not found".

Definition ErrHintStrictMode : string :=
  "Either create the required manifest file or remove WithStrictMode() option".
Definition ErrHintProjectNameRequired : string :=
  "Add project name to your manifest:" +:+ nl +:+
  "  project:" +:+ nl +:+
  "    name: " +:+ dq +:+ "your-app-name" +:+ dq +:+ nl +:+
  "    version: " +:+ dq +:+ "1.0.0" +:+ dq.
Definition ErrHintProjectVersionRequired : string :=
  "Add project version to your manifest:" +:+ nl +:+
  "  project:" +:+ nl +:+
  "    name: " +:+ dq +:+ "your-app-name" +:+ dq +:+ nl +:+
  "    version: " +:+ dq +:+ "1.0.0" +:+ dq.
Definition ErrHintParseYAML : string :=
  "Check YAML syntax at https://www.yamllint.com/ or validate with: yamllint versions.yaml".
Definition ErrHintInitializeMultiple : string :=
  "The singleton can only be initialized once. Options:" +:+ nl +:+
  "  1. Call Initialize() at application startup before any Get()/MustGet() calls" +:+ nl +:+
  "  2. Use version.Get() to retrieve the already-initialized singleton" +:+ nl +:+
  "  3. Use version.New(opts...) to create a new non-singleton instance" +:+ nl +:+
  "  4. In tests only: call version.Reset() before re-initializing".
Definition ErrHintSchemaNotFound : string :=
  "Add the schema to your versions.yaml:" +:+ nl +:+
  "  schemas:" +:+ nl +:+
  "    schema_name: " +:+ dq +:+ "version" +:+ dq.
Definition ErrHintAPINotFound : string :=
  "Add the API to your versions.yaml:" +:+ nl +:+
  "  apis:" +:+ nl +:+
  "    api_name: " +:+ dq +:+ "version" +:+ dq.
Definition ErrHintComponentNotFound : string :=
  "Add the component to your versions.yaml:" +:+ nl +:+
  "  components:" +:+ nl +:+
  "    component_name: " +:+ dq +:+ "version" +:+ dq.
Definition ErrHintVersionTooOld : string :=
  "Update the version in your manifest to meet the minimum requirement".

Definition ErrFmtSchemaNotFound : string := "schema '%s' not found in manifest".
Definition ErrFmtInvalidSchemaVersion : string := "invalid schema version '%s' for '%s': %w".
Definition ErrFmtInvalidMinVersion : string := "invalid minimum version '%s' for validator: %w".
Definition ErrFmtSchemaTooOld : string := "schema '%s' version %s is less than required minimum %s".
Definition ErrFmtAPINotFound : string := "API '%s' not found in manifest".
Definition ErrFmtInvalidAPIVersion : string := "invalid API version '%s' for '%s': %w".
Definition ErrFmtAPITooOld : string := "API '%s' version %s is less than required minimum %s".
Definition ErrFmtComponentNotFound : string := "component '%s' not found in manifest".
Definition ErrFmtInvalidComponentVersion : string := "invalid component version '%s' for '%s': %w".
Definition ErrFmtComponentTooOld : string :=
  "component '%s' version %s is less than required minimum %s".

Definition ErrFmtCategoryWrap : string := "[%s] %s: %w".
Definition ErrFmtCategory : string := "[%s] %s".
Definition ErrFmtMustGetPanic : string := "version.MustGet: %v".

(** *** Errors (version.errors.go) *)

Definition ErrCategoryCore : string := "CORE".
Definition ErrCodeNotInitialized : string := "NOT_INITIALIZED".

(** [ErrNotInitialized], a value of the go-cuserr library: kept by its
    message, which is all this development reads of it. *)
Definition ErrNotInitialized : error := Errorf ErrMsgNotInitialized.

(** [ErrorCategory]. *)
Definition CategoryManifest : string := "manifest".
Definition CategoryValidation : string := "validation".

(** [wrapError] and [wrapErrorWithHint] pass a nil error through; the
    code only calls them on an error that is there. *)
Definition wrapError (err : error) (category msg : string) : error :=
  fmt.Errorf ErrFmtCategoryWrap [fmt.Str category; fmt.Str msg; fmt.Err_ err].

Definition newCategoryErrorWithHint (category msg hint : string) : error :=
  fmt.Errorf (ErrFmtCategory +:+ nl +:+ "Hint: %s") [fmt.Str category; fmt.Str msg; fmt.Str hint].

Definition wrapErrorWithHint (err : error) (category msg hint : string) : error :=
  fmt.Errorf (ErrFmtCategoryWrap +:+ nl +:+ "Hint: %s")
    [fmt.Str category; fmt.Str msg; fmt.Err_ err; fmt.Str hint].

(** *** Go maps in a store *)

Definition loc := positive.

(** A map value: [None] is the nil map. *)
Definition mapref := option loc.

(** A value of [interface{}] as the YAML decoder builds it: a scalar, or
    a nested mapping, which is again a reference. *)
Inductive any :=
| ANil
| AString (s : string)
| AInt (z : Z)
| ABool (b : bool)
| AMap (r : loc).

Section GoMap.
Context {V : Type}.

(** [make(map[string]V)]: a map object nobody else holds. *)
Definition make_map (h : gmap loc (gmap string V)) : loc * gmap loc (gmap string V) :=
  let l := fresh (dom h) in (l, <[l := ∅]> h).

(** The entries of a map; a nil map reads as the empty one. *)
Definition entries (h : gmap loc (gmap string V)) (r : mapref) : gmap string V :=
  match r with
  | Some l => default ∅ (h !! l)
  | None => ∅
  end.

(** [m[k] = v] on a map that is not nil. *)
Definition assign (h : gmap loc (gmap string V)) (l : loc) (k : string) (v : V)
  : gmap loc (gmap string V) :=
  <[l := <[k := v]> (entries h (Some l))]> h.

(** [c := make(...); for k, v := range src { c[k] = v }]. *)
Definition copy_map (h : gmap loc (gmap string V)) (src : loc) : loc * gmap loc (gmap string V) :=
  let (c, h1) := make_map h in
  (c, map_fold (fun k v h' => assign h' c k v) h1 (entries h (Some src))).

(** What a caller can do to a map it holds: [m[k] = v], which panics
    on a nil map ([None]), and [delete(m, k)], which does nothing on
    one. *)
Inductive map_op :=
| OpAssign (k : string) (v : V)
| OpDelete (k : string).

Definition apply_op (h : gmap loc (gmap string V)) (r : mapref) (o : map_op)
  : option (gmap loc (gmap string V)) :=
  match o, r with
  | OpAssign k v, None => None
  | OpAssign k v, Some l => Some (assign h l k v)
  | OpDelete k, None => Some h
  | OpDelete k, Some l => Some (<[l := delete k (entries h (Some l))]> h)
  end.

End GoMap.

(** The two kinds of map the package holds. *)
Record Store := {
  smaps : gmap loc (gmap string string);
  amaps : gmap loc (gmap string any)
}.

Definition with_smaps (h : gmap loc (gmap string string)) (st : Store) : Store :=
  {| smaps := h; amaps := amaps st |}.
Definition with_amaps (h : gmap loc (gmap string any)) (st : Store) : Store :=
  {| smaps := smaps st; amaps := h |}.

(** *** Manifest and Info (version.info.go) *)

(** The two structs both have fields [Name], [Version] and [Project];
    those of the manifest carry an [M] here. *)
Record ProjectManifest := {
  MName : string;
  MVersion : string
}.

Record Manifest := {
  MManifestVersion : string;
  MProject : ProjectManifest;
  Schemas : mapref;
  APIs : mapref;
  Components : mapref;
  Custom : mapref
}.

Record ProjectVersion := {
  Name : string;
  Version : string
}.

Record GitInfo := {
  Commit : string;
  Tag : string;
  TreeState : string;
  CommitTime : string
}.

(** The field [Time] is [BuildInfo_Time] here. *)
Record BuildInfo := {
  BuildInfo_Time : string;
  User : string;
  GoVersion : string
}.

Record Info := {
  Project : ProjectVersion;
  Git : GitInfo;
  Build : BuildInfo;
  schemas : mapref;
  apis : mapref;
  components : mapref;
  custom : mapref;
  loadedAt : Z
}.

(** [v, ok := m[name]] on a map of strings. *)
Definition index_string (st : Store) (r : mapref) (name : string) : string * bool :=
  match entries (smaps st) r !! name with
  | Some v => (v, true)
  | None => ("", false)
  end.

Definition GetSchemaVersion (i : Info) (st : Store) (name : string) : string * bool :=
  match schemas i with
  | None => ("", false)
  | Some l => index_string st (Some l) name
  end.

Definition GetAPIVersion (i : Info) (st : Store) (name : string) : string * bool :=
  match apis i with
  | None => ("", false)
  | Some l => index_string st (Some l) name
  end.

Definition GetComponentVersion (i : Info) (st : Store) (name : string) : string * bool :=
  match components i with
  | None => ("", false)
  | Some l => index_string st (Some l) name
  end.

Definition GetSchemas (i : Info) (st : Store) : mapref * Store :=
  match schemas i with
  | None => (None, st)
  | Some l => let (c, h) := copy_map (smaps st) l in (Some c, with_smaps h st)
  end.

Definition GetAPIs (i : Info) (st : Store) : mapref * Store :=
  match apis i with
  | None => (None, st)
  | Some l => let (c, h) := copy_map (smaps st) l in (Some c, with_smaps h st)
  end.

Definition GetComponents (i : Info) (st : Store) : mapref * Store :=
  match components i with
  | None => (None, st)
  | Some l => let (c, h) := copy_map (smaps st) l in (Some c, with_smaps h st)
  end.

Definition GetCustom (i : Info) (st : Store) : mapref * Store :=
  match custom i with
  | None => (None, st)
  | Some l => let (c, h) := copy_map (amaps st) l in (Some c, with_amaps h st)
  end.


Definition Info_String (i : Info) : string :=
  Name (Project i) +:+ " " +:+ Version (Project i) +:+ " (" +:+ Commit (Git i) +:+ ")".

(** *** What the package consults outside its own code *)

(** A path of the file system: a file that can be read, one that cannot
    be opened, or one that opens and fails when read (a directory, a
    failing device). *)
Inductive File :=
| FileData (data : string)
| FileErr (errno : Errno)
| FileReadErr (errno : Errno).

(** The process environment: the variables set by [-ldflags], the Go
    runtime, the file system, the [git] binary, and the YAML decoder
    ([yaml.Unmarshal] into a [Manifest], which allocates the maps it
    decodes in the store). *)
Record Env := {
  GitCommit : string;
  GitTag : string;
  GitTreeState : string;
  BuildTime : string;
  BuildUser : string;
  runtime_Version : string;
  runtime_GOOS : string;
  time_Now : Z;
  debug_ReadBuildInfo : option (list (string * string));
  exec_LookPath : string -> option string;
  (** the standard output of a command that exits with status 0 in time *)
  cmd_Output : string -> list string -> option string;
  fsys : gmap string File;
  yaml_Unmarshal : string -> Store -> result (Manifest * Store);
  testing_Testing : bool
}.

(** [os.ReadFile]: the error is the [*fs.PathError] of the call that
    failed, [open] or [read]. *)
Definition ReadFile (env : Env) (path : string) : result string :=
  match fsys env !! path with
  | Some (FileData data) => Ok data
  | Some (FileErr errno) => Err (PathError "open" path errno)
  | Some (FileReadErr errno) => Err (PathError "read" path errno)
  | None => Err (PathError "open" path ENOENT)
  end.

(** The state the package works on: the store of maps, the [Info]
    objects allocated so far (a [*Info] is an index), and what can be
    observed of a run from outside: the paths handed to [os.ReadFile],
    the effects validators have had, and how often the body of
    [loadVersionInfo] has run. *)
Record World := {
  store : Store;
  infos : list Info;
  reads : list string;
  effects : list string;
  runs : nat
}.

Definition with_store (st : Store) (w : World) : World :=
  {| store := st; infos := infos w; reads := reads w; effects := effects w; runs := runs w |}.
Definition with_effects (e : list string) (w : World) : World :=
  {| store := store w; infos := infos w; reads := reads w; effects := e; runs := runs w |}.

(** [&Info{...}] leaving the function. *)
Definition new_Info (i : Info) (w : World) : nat * World :=
  (length (infos w),
   {| store := store w; infos := infos w ++ [i]; reads := reads w;
      effects := effects w; runs := runs w |}).

Definition deref (w : World) (p : nat) : option Info := infos w !! p.

(** *** Options (version.options.go) *)

Inductive Context :=
| Background
| UserContext (id : nat).

(** [Validator].  [Validate(ctx, info *Info)] is handed the pointer to
    the snapshot: it can read it, write it (the fields [Project], [Git]
    and [Build] are exported, and [*info = ...] or [info.UnmarshalJSON]
    replace all of it), allocate and write maps, and act on the world
    outside the package.  It answers with its error, and leaves the
    [Info], the store and its effects behind. *)
Record Validator := {
  Validate : Context -> Info -> Store -> list string
             -> option error * Info * Store * list string
}.

Record LoadOptions := {
  manifestPath : string;
  manifestEmbed : string;
  includeGit : bool;
  includeBuild : bool;
  validators : list Validator;
  strictMode : bool;
  ctx : option Context
}.

Definition defaultLoadOptions : LoadOptions :=
  {| manifestPath := ManifestFilenameYAML; manifestEmbed := ""; includeGit := true;
     includeBuild := true; validators := []; strictMode := false; ctx := None |}.

Definition Option := LoadOptions -> LoadOptions.

Definition WithManifestPath (path : string) : Option := fun o =>
  {| manifestPath := path; manifestEmbed := manifestEmbed o; includeGit := includeGit o;
     includeBuild := includeBuild o; validators := validators o; strictMode := strictMode o;
     ctx := ctx o |}.

Definition WithEmbedded (data : string) : Option := fun o =>
  {| manifestPath := manifestPath o; manifestEmbed := data; includeGit := includeGit o;
     includeBuild := includeBuild o; validators := validators o; strictMode := strictMode o;
     ctx := ctx o |}.

Definition set_includeGit (b : bool) : Option := fun o =>
  {| manifestPath := manifestPath o; manifestEmbed := manifestEmbed o; includeGit := b;
     includeBuild := includeBuild o; validators := validators o; strictMode := strictMode o;
     ctx := ctx o |}.

Definition set_includeBuild (b : bool) : Option := fun o =>
  {| manifestPath := manifestPath o; manifestEmbed := manifestEmbed o; includeGit := includeGit o;
     includeBuild := b; validators := validators o; strictMode := strictMode o;
     ctx := ctx o |}.

Definition WithGitInfo : Option := set_includeGit true.
Definition WithoutGitInfo : Option := set_includeGit false.
Definition WithBuildInfo : Option := set_includeBuild true.
Definition WithoutBuildInfo : Option := set_includeBuild false.

Definition WithValidators (vs : list Validator) : Option := fun o =>
  {| manifestPath := manifestPath o; manifestEmbed := manifestEmbed o; includeGit := includeGit o;
     includeBuild := includeBuild o; validators := validators o ++ vs; strictMode := strictMode o;
     ctx := ctx o |}.

Definition WithStrictMode : Option := fun o =>
  {| manifestPath := manifestPath o; manifestEmbed := manifestEmbed o; includeGit := includeGit o;
     includeBuild := includeBuild o; validators := validators o; strictMode := true;
     ctx := ctx o |}.

Definition WithContext (c : Context) : Option := fun o =>
  {| manifestPath := manifestPath o; manifestEmbed := manifestEmbed o; includeGit := includeGit o;
     includeBuild := includeBuild o; validators := validators o; strictMode := strictMode o;
     ctx := Some c |}.

(** *** The loader (version.loader.go) *)

Definition parseManifest (env : Env) (data : string) (st : Store) : result (Manifest * Store) :=
  match yaml_Unmarshal env data st with
  | Err err => Err (wrapError err CategoryManifest ErrMsgParseYAML)
  | Ok (manifest, st') =>
      let manifest :=
        if String.eqb (MManifestVersion manifest) ""
        then {| MManifestVersion := ManifestVersion; MProject := MProject manifest;
                Schemas := Schemas manifest; APIs := APIs manifest;
                Components := Components manifest; Custom := Custom manifest |}
        else manifest in
      if String.eqb (MName (MProject manifest)) "" then
        Err (newCategoryErrorWithHint CategoryManifest ErrMsgProjectNameRequired
               ErrHintProjectNameRequired)
      else if String.eqb (MVersion (MProject manifest)) "" then
        Err (newCategoryErrorWithHint CategoryManifest ErrMsgProjectVersionRequired
               ErrHintProjectVersionRequired)
      else Ok (manifest, st')
  end.

(** [loadManifest]; the second component lists the paths it read. *)
Definition loadManifest (env : Env) (options : LoadOptions) (st : Store)
  : result (Manifest * Store) * list string :=
  if (0 <? String.length (manifestEmbed options))%nat then
    (parseManifest env (manifestEmbed options) st, [])
  else if negb (String.eqb (manifestPath options) "") then
    match ReadFile env (manifestPath options) with
    | Err err => (Err err, [manifestPath options])
    | Ok data => (parseManifest env data st, [manifestPath options])
    end
  else (Err ErrNotExist, []).

Definition defaultManifest : Manifest :=
  {| MManifestVersion := ManifestVersion;
     MProject := {| MName := DefaultProjectName; MVersion := DefaultProjectVersion |};
     Schemas := None; APIs := None; Components := None; Custom := None |}.

(** [if m != nil { c = make(...); for k, v := range m { c[k] = v } }]. *)
Definition copy_if_set {V : Type} (h : gmap loc (gmap string V)) (r : mapref)
  : mapref * gmap loc (gmap string V) :=
  match r with
  | None => (None, h)
  | Some l => let (c, h') := copy_map h l in (Some c, h')
  end.

Definition manifestToInfo (env : Env) (m : Manifest) (st : Store) : Info * Store :=
  let (s, h1) := copy_if_set (smaps st) (Schemas m) in
  let (a, h2) := copy_if_set h1 (APIs m) in
  let (c, h3) := copy_if_set h2 (Components m) in
  let (u, g1) := copy_if_set (amaps st) (Custom m) in
  ({| Project := {| Name := MName (MProject m); Version := MVersion (MProject m) |};
      Git := {| Commit := DefaultGitCommit; Tag := ""; TreeState := DefaultGitTreeState;
                CommitTime := "" |};
      Build := {| BuildInfo_Time := DefaultBuildTime; User := "";
                  GoVersion := runtime_Version env |};
      schemas := s; apis := a; components := c; custom := u; loadedAt := 0 |},
   {| smaps := h3; amaps := g1 |}).

Definition set_Git (g : GitInfo) (i : Info) : Info :=
  {| Project := Project i; Git := g; Build := Build i; schemas := schemas i; apis := apis i;
     components := components i; custom := custom i; loadedAt := loadedAt i |}.
Definition set_Build (b : BuildInfo) (i : Info) : Info :=
  {| Project := Project i; Git := Git i; Build := b; schemas := schemas i; apis := apis i;
     components := components i; custom := custom i; loadedAt := loadedAt i |}.
Definition set_loadedAt (t : Z) (i : Info) : Info :=
  {| Project := Project i; Git := Git i; Build := Build i; schemas := schemas i; apis := apis i;
     components := components i; custom := custom i; loadedAt := t |}.

Definition applyLdflagsGitInfo (env : Env) (g : GitInfo) : GitInfo :=
  let g := if negb (String.eqb (GitCommit env) DefaultGitCommit)
           then {| Commit := GitCommit env; Tag := Tag g; TreeState := TreeState g;
                   CommitTime := CommitTime g |} else g in
  let g := if negb (String.eqb (GitTag env) "")
           then {| Commit := Commit g; Tag := GitTag env; TreeState := TreeState g;
                   CommitTime := CommitTime g |} else g in
  let g := if negb (String.eqb (GitTreeState env) DefaultGitTreeState)
           then {| Commit := Commit g; Tag := Tag g; TreeState := GitTreeState env;
                   CommitTime := CommitTime g |} else g in
  g.

(** One turn of the loop over [buildInfo.Settings]. *)
Definition applySetting (g : GitInfo) (setting : string * string) : GitInfo :=
  let (key, value) := setting in
  if String.eqb key VCSKeyRevision then
    (if String.eqb (Commit g) DefaultGitCommit
     then {| Commit := value; Tag := Tag g; TreeState := TreeState g; CommitTime := CommitTime g |}
     else g)
  else if String.eqb key VCSKeyTime then
    (if String.eqb (CommitTime g) ""
     then {| Commit := Commit g; Tag := Tag g; TreeState := TreeState g; CommitTime := value |}
     else g)
  else if String.eqb key VCSKeyModified then
    (if String.eqb value VCSValueTrue
     then {| Commit := Commit g; Tag := Tag g; TreeState := GitTreeStateDirty;
             CommitTime := CommitTime g |}
     else g)
  else g.

Definition applyBuildInfoGitData (env : Env) (g : GitInfo) : GitInfo :=
  match debug_ReadBuildInfo env with
  | None => g
  | Some settings => fold_left applySetting settings g
  end.

Definition safeLocations : list string :=
  ["/usr/bin/git"; "/usr/local/bin/git"; "/opt/homebrew/bin/git"].

Definition getGitBinary (env : Env) : string :=
  match exec_LookPath env GitCmdName with
  | None => ""
  | Some gitPath =>
      if negb (String.eqb (runtime_GOOS env) "windows") then
        (if existsb (String.eqb gitPath) safeLocations then gitPath else "")
      else gitPath
  end.

Definition is_hex (c : ascii) : bool :=
  let n := N_of_ascii c in
  ((N.leb 48 n && N.leb n 57) || (N.leb 97 n && N.leb n 102) || (N.leb 65 n && N.leb n 70))%bool.

Fixpoint all_hex (s : string) : bool :=
  match s with
  | EmptyString => true
  | String c r => if negb (is_hex c) then false else all_hex r
  end.

Definition isValidCommitHash (hash : string) : bool :=
  if ((String.length hash <? 7)%nat || (40 <? String.length hash)%nat)%bool then false
  else all_hex hash.

Definition getGitCommit (env : Env) : string :=
  let gitBinary := getGitBinary env in
  if String.eqb gitBinary "" then "" else
  match cmd_Output env gitBinary [GitCmdRevParse; GitArgHead] with
  | None => ""
  | Some output =>
      let hash := strings.TrimSpace output in
      if negb (isValidCommitHash hash) then "" else hash
  end.

Definition getGitTag (env : Env) : string :=
  let gitBinary := getGitBinary env in
  if String.eqb gitBinary "" then "" else
  match cmd_Output env gitBinary [GitCmdDescribe; GitArgTags; GitArgExactMatch] with
  | None => ""
  | Some output => strings.TrimSpace output
  end.

Definition applyGitCommandFallback (env : Env) (g : GitInfo) : GitInfo :=
  let g := if String.eqb (Commit g) DefaultGitCommit then
             (let commit := getGitCommit env in
              if negb (String.eqb commit "")
              then {| Commit := commit; Tag := Tag g; TreeState := TreeState g;
                      CommitTime := CommitTime g |}
              else g)
           else g in
  let g := if String.eqb (Tag g) "" then
             (let tag := getGitTag env in
              if negb (String.eqb tag "")
              then {| Commit := Commit g; Tag := tag; TreeState := TreeState g;
                      CommitTime := CommitTime g |}
              else g)
           else g in
  g.

Definition enrichWithGitInfo (env : Env) (info : Info) : Info :=
  set_Git (applyGitCommandFallback env (applyBuildInfoGitData env
             (applyLdflagsGitInfo env (Git info)))) info.

Definition enrichWithBuildInfo (env : Env) (info : Info) : Info :=
  let b := Build info in
  let b := if negb (String.eqb (BuildTime env) DefaultBuildTime)
           then {| BuildInfo_Time := BuildTime env; User := User b; GoVersion := GoVersion b |}
           else b in
  let b := if negb (String.eqb (BuildUser env) DefaultBuildUser)
           then {| BuildInfo_Time := BuildInfo_Time b; User := BuildUser env;
                   GoVersion := GoVersion b |}
           else b in
  let b := {| BuildInfo_Time := BuildInfo_Time b; User := User b;
              GoVersion := runtime_Version env |} in
  set_Build b info.

(** The loop over [options.validators]: every validator is handed the
    same pointer, so it sees the [Info] as the validators before it
    left it; the first error ends the loop. *)
Fixpoint runValidators (vs : list Validator) (c : Context) (info : Info) (st : Store)
    (eff : list string) : option error * Info * Store * list string :=
  match vs with
  | [] => (None, info, st, eff)
  | validator :: rest =>
      match Validate validator c info st eff with
      | (Some err, info', st', eff') =>
          (Some (wrapError err CategoryValidation ErrMsgValidationFailedWrap), info', st', eff')
      | (None, info', st', eff') => runValidators rest c info' st' eff'
      end
  end.

Definition applyOptions (opts : list Option) : LoadOptions :=
  fold_left (fun o opt => opt o) opts defaultLoadOptions.

(** [loadVersionInfo].  [runs] counts the executions of its body. *)
Definition loadVersionInfo (env : Env) (opts : list Option) (w : World) : result nat * World :=
  let options := applyOptions opts in
  let w := {| store := store w; infos := infos w; reads := reads w; effects := effects w;
              runs := S (runs w) |} in
  let (loaded, rd) := loadManifest env options (store w) in
  let w := {| store := store w; infos := infos w; reads := reads w ++ rd;
              effects := effects w; runs := runs w |} in
  let manifest :=
    match loaded with
    | Ok r => Ok r
    | Err err =>
        if strictMode options then
          (if os.IsNotExist err
           then Err (newCategoryErrorWithHint CategoryManifest ErrMsgStrictModeManifestRequired
                       ErrHintStrictMode)
           else Err (wrapErrorWithHint err CategoryManifest ErrMsgLoadManifest ErrHintParseYAML))
        else if negb (os.IsNotExist err) then
          Err (wrapErrorWithHint err CategoryManifest ErrMsgLoadManifest ErrHintParseYAML)
        else Ok (defaultManifest, store w)
    end in
  match manifest with
  | Err err => (Err err, w)
  | Ok (manifest, st) =>
      let (info, st) := manifestToInfo env manifest st in
      let info := set_loadedAt (time_Now env) info in
      let info := if includeGit options then enrichWithGitInfo env info else info in
      let info := if includeBuild options then enrichWithBuildInfo env info else info in
      let c := match ctx options with Some c => c | None => Background end in
      match runValidators (validators options) c info st (effects w) with
      | (Some err, _, st, eff) => (Err err, with_effects eff (with_store st w))
      | (None, info, st, eff) =>
          let (p, w) := new_Info info (with_effects eff (with_store st w)) in (Ok p, w)
      end
  end.

(** *** Validators (version.validators.go) *)

Record genericVersionValidator := {
  dimensionType : string;
  name : string;
  minVersion : string;
  getterFunc : Info -> Store -> string -> string * bool;
  errNotFoundFmt : string;
  errInvalidFmt : string;
  errTooOldFmt : string
}.

Definition genericVersionValidator_Validate (v : genericVersionValidator)
    (c : Context) (info : Info) (st : Store) : option error :=
  let (actual, ok) := getterFunc v info st (name v) in
  if negb ok then
    let hint :=
      if String.eqb (dimensionType v) "schema" then ErrHintSchemaNotFound
      else if String.eqb (dimensionType v) "API" then ErrHintAPINotFound
      else if String.eqb (dimensionType v) "component" then ErrHintComponentNotFound
      else "" in
    Some (fmt.Errorf (errNotFoundFmt v +:+ nl +:+ "Hint: %s") [fmt.Str (name v); fmt.Str hint])
  else
    match semver.Parse actual with
    | Err err =>
        Some (fmt.Errorf (errInvalidFmt v) [fmt.Str actual; fmt.Str (name v); fmt.Err_ err])
    | Ok actualVer =>
        match semver.Parse (minVersion v) with
        | Err err =>
            Some (fmt.Errorf ErrFmtInvalidMinVersion [fmt.Str (minVersion v); fmt.Err_ err])
        | Ok minVer =>
            if semver.LessThan actualVer minVer then
              Some (fmt.Errorf (errTooOldFmt v +:+ nl +:+ "Hint: %s")
                      [fmt.Str (name v); fmt.Str actual; fmt.Str (minVersion v);
                       fmt.Str ErrHintVersionTooOld])
            else None
        end
    end.

Definition NewSchemaValidator (schemaName minVersion : string) : genericVersionValidator :=
  {| dimensionType := "schema"; name := schemaName; minVersion := minVersion;
     getterFunc := GetSchemaVersion; errNotFoundFmt := ErrFmtSchemaNotFound;
     errInvalidFmt := ErrFmtInvalidSchemaVersion; errTooOldFmt := ErrFmtSchemaTooOld |}.

Definition NewAPIValidator (apiName minVersion : string) : genericVersionValidator :=
  {| dimensionType := "API"; name := apiName; minVersion := minVersion;
     getterFunc := GetAPIVersion; errNotFoundFmt := ErrFmtAPINotFound;
     errInvalidFmt := ErrFmtInvalidAPIVersion; errTooOldFmt := ErrFmtAPITooOld |}.

Definition NewComponentValidator (componentName minVersion : string) : genericVersionValidator :=
  {| dimensionType := "component"; name := componentName; minVersion := minVersion;
     getterFunc := GetComponentVersion; errNotFoundFmt := ErrFmtComponentNotFound;
     errInvalidFmt := ErrFmtInvalidComponentVersion; errTooOldFmt := ErrFmtComponentTooOld |}.

(** A built-in validator as a [Validator]: it only reads the [Info],
    and has no effect outside. *)
Definition builtin (v : genericVersionValidator) : Validator :=
  {| Validate := fun c info st eff =>
       (genericVersionValidator_Validate v c info st, info, st, eff) |}.

(** [ValidatorFunc]. *)
Definition ValidatorFunc
    (f : Context -> Info -> Store -> list string
         -> option error * Info * Store * list string) : Validator :=
  {| Validate := f |}.

(** *** The singleton (version.go) *)

(** [instance] is an [atomic.Value]: nothing stored yet, or a [*Info],
    which [Reset] stores as nil.  [initOnce] is the [sync.Once], by its
    done flag. *)
Record Singleton := {
  instance : option (option nat);
  initOnce : bool;
  initError : option error
}.

Definition uninitialized : Singleton :=
  {| instance := None; initOnce := false; initError := None |}.

(** The function both entry points hand to [initOnce.Do]. *)
Definition initBody (env : Env) (opts : list Option) (g : Singleton) (w : World)
  : Singleton * World :=
  match loadVersionInfo env opts w with
  | (Ok info, w') =>
      ({| instance := Some (Some info); initOnce := initOnce g; initError := None |}, w')
  | (Err err, w') =>
      ({| instance := instance g; initOnce := initOnce g; initError := Some err |}, w')
  end.

(** [initOnce.Do(f)], one caller at a time: [f] runs unless the flag
    is set, and the flag is set when [f] has returned. *)
Definition onceDo (f : Singleton -> World -> Singleton * World) (g : Singleton) (w : World)
  : bool * (Singleton * World) :=
  if initOnce g then (false, (g, w))
  else
    let (g', w') := f g w in
    (true, ({| instance := instance g'; initOnce := true; initError := initError g' |}, w')).

Definition Initialize (env : Env) (opts : list Option) (g : Singleton) (w : World)
  : option error * (Singleton * World) :=
  let (didRun, gw) := onceDo (initBody env opts) g w in
  if negb didRun then
    (Some (fmt.Errorf ("%s" +:+ nl +:+ "Hint: %s")
             [fmt.Str ErrMsgInitializeMultiple; fmt.Str ErrHintInitializeMultiple]), gw)
  else (initError (fst gw), gw).

Definition Get (env : Env) (g : Singleton) (w : World) : result nat * (Singleton * World) :=
  match instance g with
  | Some (Some info) => (Ok info, (g, w))
  | _ =>
      let (_, gw) := onceDo (initBody env [WithGitInfo; WithBuildInfo]) g w in
      match initError (fst gw) with
      | Some err => (Err err, gw)
      | None =>
          match instance (fst gw) with
          | None => (Err ErrNotInitialized, gw)
          | Some None => (Err ErrNotInitialized, gw)
          | Some (Some info) => (Ok info, gw)
          end
      end
  end.

(** [MustGet]: [inr] is the panic, with its text. *)
Definition MustGet (env : Env) (g : Singleton) (w : World) : (nat + string) * (Singleton * World) :=
  match Get env g w with
  | (Ok info, gw) => (inl info, gw)
  | (Err err, gw) => (inr (fmt.Sprintf ErrFmtMustGetPanic [fmt.Err_ err]), gw)
  end.

Definition New (env : Env) (opts : list Option) (w : World) : result nat * World :=
  loadVersionInfo env opts w.

Definition IsInitialized (g : Singleton) : bool :=
  match instance g with
  | Some (Some _) => true
  | _ => false
  end.

(** [Reset]: [None] is the panic outside of [go test]. *)
Definition Reset (env : Env) (g : Singleton) : option Singleton :=
  if negb (testing_Testing env) then None
  else Some {| instance := Some None; initOnce := false; initError := None |}.

(** *** The entry points among concurrent callers

    The same two functions, one access to the shared variables at a
    time.  [initOnce] is now in one of three states: [Do] lets the
    first caller in, makes every caller that arrives while the function
    runs wait, and lets callers through once it has returned. *)

Inductive once_state := OnceIdle | OnceRunning | OnceDone.

Record Shared := {
  sh_instance : option (option nat);
  sh_once : once_state;
  sh_initError : option error;
  sh_world : World
}.

Inductive entry :=
| EnterInitialize (opts : list Option)
| EnterGet.

(** The options handed to [loadVersionInfo] inside [Do]. *)
Definition entry_opts (en : entry) : list Option :=
  match en with
  | EnterInitialize opts => opts
  | EnterGet => [WithGitInfo; WithBuildInfo]
  end.

(** Where a caller stands. *)
Inductive thread :=
| AtFastPath
  (** [Get]: [v := instance.Load()], the fast path *)
| AtDo (en : entry)
  (** calling [initOnce.Do] *)
| AtLoad (en : entry)
  (** inside the function: [info, initError = loadVersionInfo(...)] *)
| AtStore (en : entry) (r : result nat)
  (** inside the function: [if initError == nil { instance.Store(info) }] *)
| AtReturn (en : entry)
  (** the function returns and [Do] marks the [Once] done *)
| AfterDo (en : entry) (didRun : bool)
  (** [Do] has returned: [Initialize] tests [didRun] and reads
      [initError]; [Get] tests [initError] *)
| AtReload
  (** [Get]: [v := instance.Load()] on the slow path *)
| ReturnedInitialize (e : option error)
| ReturnedGet (r : result nat).

Definition spawn (en : entry) : thread :=
  match en with
  | EnterInitialize _ => AtDo en
  | EnterGet => AtFastPath
  end.

Definition set_instance (p : nat) (sh : Shared) : Shared :=
  {| sh_instance := Some (Some p); sh_once := sh_once sh; sh_initError := sh_initError sh;
     sh_world := sh_world sh |}.
Definition set_once (o : once_state) (sh : Shared) : Shared :=
  {| sh_instance := sh_instance sh; sh_once := o; sh_initError := sh_initError sh;
     sh_world := sh_world sh |}.

(** One step of one caller; [None] when it waits in [Do] or has
    returned. *)
Definition thread_step (env : Env) (t : thread) (sh : Shared) : option (thread * Shared) :=
  match t with
  | AtFastPath =>
      match sh_instance sh with
      | Some (Some info) => Some (ReturnedGet (Ok info), sh)
      | _ => Some (AtDo EnterGet, sh)
      end
  | AtDo en =>
      match sh_once sh with
      | OnceIdle => Some (AtLoad en, set_once OnceRunning sh)
      | OnceRunning => None
      | OnceDone => Some (AfterDo en false, sh)
      end
  | AtLoad en =>
      let (r, w') := loadVersionInfo env (entry_opts en) (sh_world sh) in
      Some (AtStore en r,
            {| sh_instance := sh_instance sh; sh_once := sh_once sh;
               sh_initError := match r with Ok _ => None | Err err => Some err end;
               sh_world := w' |})
  | AtStore en r =>
      match sh_initError sh, r with
      | None, Ok info => Some (AtReturn en, set_instance info sh)
      | _, _ => Some (AtReturn en, sh)
      end
  | AtReturn en => Some (AfterDo en true, set_once OnceDone sh)
  | AfterDo (EnterInitialize _) didRun =>
      if negb didRun then
        Some (ReturnedInitialize
                (Some (fmt.Errorf ("%s" +:+ nl +:+ "Hint: %s")
                         [fmt.Str ErrMsgInitializeMultiple; fmt.Str ErrHintInitializeMultiple])),
              sh)
      else Some (ReturnedInitialize (sh_initError sh), sh)
  | AfterDo EnterGet _ =>
      match sh_initError sh with
      | Some err => Some (ReturnedGet (Err err), sh)
      | None => Some (AtReload, sh)
      end
  | AtReload =>
      match sh_instance sh with
      | Some (Some info) => Some (ReturnedGet (Ok info), sh)
      | _ => Some (ReturnedGet (Err ErrNotInitialized), sh)
      end
  | ReturnedInitialize _ => None
  | ReturnedGet _ => None
  end.

(** Any caller that can move may move next. *)
Inductive step (env : Env) : Shared * list thread -> Shared * list thread -> Prop :=
| step_thread (i : nat) (t t' : thread) (sh sh' : Shared) (ts : list thread) :
    ts !! i = Some t ->
    thread_step env t sh = Some (t', sh') ->
    step env (sh, ts) (sh', <[i := t']> ts).

(** A caller on its own, for at most [fuel] steps. *)
Fixpoint run_thread (env : Env) (fuel : nat) (t : thread) (sh : Shared) : thread * Shared :=
  match fuel with
  | O => (t, sh)
  | S fuel' =>
      match thread_step env t sh with
      | Some (t', sh') => run_thread env fuel' t' sh'
      | None => (t, sh)
      end
  end.

(** *** HTTP handlers (http.go) *)

Definition HTTPContentTypeJSON : string := "application/json".
Definition HTTPCacheControl : string := "public, max-age=300".
Definition HTTPHeaderAppVersion : string := "X-App-Version".
Definition HTTPHeaderGitCommit : string := "X-Git-Commit".
Definition HTTPStatusOK : string := "ok".
Definition HTTPStatusError : string := "error".
Definition HTTPErrorMethodNotAllowed : string := "Method not allowed".
Definition HTTPErrorVersionUnavailable : string := "Failed to get version info".
Definition HTTPHealthErrorMessage : string := "version not available".

(** The struct [MarshalJSON] encodes: an [Info] without [loadedAt]. *)
Record jsonInfo := {
  J_Project : ProjectVersion;
  J_Git : GitInfo;
  J_Build : BuildInfo;
  J_Schemas : mapref;
  J_APIs : mapref;
  J_Components : mapref;
  J_Custom : mapref
}.

(** The struct the health endpoint encodes. *)
Record healthResponse := {
  hr_Status : string;
  hr_Version : string;
  hr_Error : string;
  hr_Timestamp : Z
}.

(** [encoding/json] on the two structs: the bytes of [json.Marshal], or
    its error. *)
Record Codec := {
  json_Marshal_jsonInfo : jsonInfo -> Store -> result string;
  json_Marshal_healthResponse : healthResponse -> result string
}.

(** [Info.MarshalJSON]. *)
Definition MarshalJSON (codec : Codec) (i : Info) (st : Store) : result string :=
  json_Marshal_jsonInfo codec
    {| J_Project := Project i; J_Git := Git i; J_Build := Build i; J_Schemas := schemas i;
       J_APIs := apis i; J_Components := components i; J_Custom := custom i |} st.

(** [json.NewEncoder(w).Encode(v)], given what marshalling [v] gives:
    the bytes and a newline in one write, or nothing on an error. *)
Definition Encode (w : http.ResponseWriter) (encoded : result string) : http.ResponseWriter :=
  match encoded with
  | Ok b => http.Write w (b +:+ nl)
  | Err _ => w
  end.

(** An [http.Handler] of this program: it works on the response writer
    and on the singleton.  [None] is a nil dereference, which needs a
    [*Info] that points nowhere. *)
Definition HandlerT : Type :=
  http.Request -> http.ResponseWriter -> Singleton -> World ->
  option (http.ResponseWriter * (Singleton * World)).

Definition Handler (codec : Codec) (env : Env) : HandlerT := fun r w g wd =>
  if negb (String.eqb (http.Method r) http.MethodGet) then
    Some (http.Error w HTTPErrorMethodNotAllowed http.StatusMethodNotAllowed, (g, wd))
  else
    match Get env g wd with
    | (Err _, gw) =>
        Some (http.Error w HTTPErrorVersionUnavailable http.StatusInternalServerError, gw)
    | (Ok info, gw) =>
        let w := http.Set_ w "Content-Type" HTTPContentTypeJSON in
        let w := http.Set_ w "Cache-Control" HTTPCacheControl in
        let w := http.WriteHeader w http.StatusOK in
        match deref (snd gw) info with
        | None => None
        | Some i => Some (Encode w (MarshalJSON codec i (store (snd gw))), gw)
        end
    end.

Definition HealthHandler (codec : Codec) (env : Env) : HandlerT := fun r w g wd =>
  if negb (String.eqb (http.Method r) http.MethodGet) then
    Some (http.Error w HTTPErrorMethodNotAllowed http.StatusMethodNotAllowed, (g, wd))
  else
    let (res, gw) := Get env g wd in
    let timestamp := time_Now env in
    let w := http.Set_ w "Content-Type" HTTPContentTypeJSON in
    match res with
    | Err _ =>
        let w := http.WriteHeader w http.StatusServiceUnavailable in
        Some (Encode w (json_Marshal_healthResponse codec
                          {| hr_Status := HTTPStatusError; hr_Version := "";
                             hr_Error := HTTPHealthErrorMessage; hr_Timestamp := timestamp |}),
              gw)
    | Ok info =>
        let w := http.WriteHeader w http.StatusOK in
        match deref (snd gw) info with
        | None => None
        | Some i =>
            Some (Encode w (json_Marshal_healthResponse codec
                              {| hr_Status := HTTPStatusOK; hr_Version := Version (Project i);
                                 hr_Error := ""; hr_Timestamp := timestamp |}),
                  gw)
        end
    end.

Definition HandlerFunc (codec : Codec) (env : Env) : HandlerT := Handler codec env.
Definition HealthHandlerFunc (codec : Codec) (env : Env) : HandlerT := HealthHandler codec env.

Definition Middleware (env : Env) (next : HandlerT) : HandlerT := fun r w g wd =>
  match Get env g wd with
  | (Ok info, gw) =>
      match deref (snd gw) info with
      | None => None
      | Some i =>
          let w := http.Set_ w HTTPHeaderAppVersion (Version (Project i)) in
          let w := if negb (String.eqb (Commit (Git i)) DefaultGitCommit)
                   then http.Set_ w HTTPHeaderGitCommit (Commit (Git i)) else w in
          next r w (fst gw) (snd gw)
      end
  | (Err _, gw) => next r w (fst gw) (snd gw)
  end.

(** *** The public semantic version API (semver.go) *)

Record SemVer := { internal : semver.Version }.

Definition ParseSemVer (s : string) : result SemVer :=
  match semver.Parse s with
  | Err err => Err err
  | Ok internal => Ok {| internal := internal |}
  end.

(** [MustParseSemVer]: [inr] is the panic, with its text. *)
Definition MustParseSemVer (s : string) : SemVer + string :=
  match ParseSemVer s with
  | Err err => inr (fmt.Sprintf "version.MustParseSemVer: %v" [fmt.Err_ err])
  | Ok v => inl v
  end.

(** The methods of [*SemVer]. *)
Definition SemVer_String (v : SemVer) : string := semver.String_ (internal v).
Definition SemVer_Major (v : SemVer) : Z := semver.Major (internal v).
Definition SemVer_Minor (v : SemVer) : Z := semver.Minor (internal v).
Definition SemVer_Patch (v : SemVer) : Z := semver.Patch (internal v).
Definition SemVer_Prerelease (v : SemVer) : string := semver.Prerelease (internal v).
Definition SemVer_Build (v : SemVer) : string := semver.Build (internal v).
Definition SemVer_Compare (v other : SemVer) : Z :=
  semver.Compare (internal v) (internal other).
Definition SemVer_LessThan (v other : SemVer) : bool :=
  semver.LessThan (internal v) (internal other).
Definition SemVer_GreaterThan (v other : SemVer) : bool :=
  semver.GreaterThan (internal v) (internal other).
Definition SemVer_Equal (v other : SemVer) : bool :=
  semver.Equal (internal v) (internal other).
Definition SemVer_GreaterThanOrEqual (v other : SemVer) : bool :=
  semver.GreaterThanOrEqual (internal v) (internal other).
Definition SemVer_LessThanOrEqual (v other : SemVer) : bool :=
  semver.LessThanOrEqual (internal v) (internal other).

Definition CompareVersions (v1 v2 : string) : result Z :=
  match ParseSemVer v1 with
  | Err err => Err (fmt.Errorf "invalid version v1: %w" [fmt.Err_ err])
  | Ok ver1 =>
      match ParseSemVer v2 with
      | Err err => Err (fmt.Errorf "invalid version v2: %w" [fmt.Err_ err])
      | Ok ver2 => Ok (SemVer_Compare ver1 ver2)
      end
  end.

Definition IsNewerVersion (v1 v2 : string) : result bool :=
  match ParseSemVer v1 with
  | Err err => Err (fmt.Errorf "invalid version v1: %w" [fmt.Err_ err])
  | Ok ver1 =>
      match ParseSemVer v2 with
      | Err err => Err (fmt.Errorf "invalid version v2: %w" [fmt.Err_ err])
      | Ok ver2 => Ok (SemVer_GreaterThan ver1 ver2)
      end
  end.

End version.

(** ** cmd/go-version *)

Module main.

Definition tab : string := String (ascii_of_nat 9) EmptyString.

(** [printSortedMap]: the text it writes to [w], for a map [m] given by
    its entries.  [for k := range m] visits the keys in an order the
    language leaves open; [order] is the order of this run. *)
Definition printSortedMap (order : list string) (m : gmap string string) : string :=
  let keys := fold_left (fun keys k => (keys ++ [k])%list) order [] in
  let keys := sort.Strings keys in
  fold_left
    (fun out k =>
       out +:+ fmt.Sprintf ("  %s:" +:+ tab +:+ "%s" +:+ version.nl)
                 [fmt.Str k; fmt.Str (default "" (m !! k))])
    keys "".

End main.
(** * Vocabulary of the statements *)

Section Vocabulary.
Import strings strconv semver.

Definition is_digit (c : ascii) : bool :=
  match digit_val c with Some _ => true | None => false end.

Fixpoint all_digits (s : string) : bool :=
  match s with
  | EmptyString => true
  | String c r => is_digit c && all_digits r
  end.

(** A decimal numeral as a canonical version string writes it: digits
    only, no leading zero except for zero itself, within [int]. *)
Definition numeral (s : string) : bool :=
  match s with
  | EmptyString => false
  | String c r =>
      all_digits s && (negb (Ascii.eqb c "0") || String.eqb r "")
      && match digits_acc s 0 with Some n => n <=? maxInt | None => false end
  end.

Fixpoint has_char (c : ascii) (s : string) : bool :=
  match s with
  | EmptyString => false
  | String x r => Ascii.eqb x c || has_char c r
  end.

(** [sep ++ x] when the optional part [x] is there, nothing otherwise. *)
Definition tag (sep : ascii) (x : string) : string :=
  if String.eqb x "" then "" else String sep x.

(** The part of [Parse] after the three splits. *)
Definition parse_parts (s : string) (coreParts : list string) (pre build : string)
  : result Version :=
  if ((length coreParts <? 1)%nat || (3 <? length coreParts)%nat)%bool
  then Err (fmt.Errorf "invalid version format: %s" [fmt.Str s]) else
  match Atoi (at_ coreParts 0) with
  | None => Err (fmt.Errorf "invalid major version: %s" [fmt.Str (at_ coreParts 0)])
  | Some major =>
      match (if (1 <? length coreParts)%nat then Atoi (at_ coreParts 1) else Some 0) with
      | None => Err (fmt.Errorf "invalid minor version: %s" [fmt.Str (at_ coreParts 1)])
      | Some minor =>
          match (if (2 <? length coreParts)%nat then Atoi (at_ coreParts 2) else Some 0) with
          | None => Err (fmt.Errorf "invalid patch version: %s" [fmt.Str (at_ coreParts 2)])
          | Some patch =>
              Ok {| Major := major; Minor := minor; Patch := patch;
                    Prerelease := pre; Build := build |}
          end
      end
  end.

(** [MAJOR[.MINOR[.PATCH]]], then the optional [-PRERELEASE] and
    [+BUILD]. *)
Definition version_text (core : list string) (pre build : string) : string :=
  (String.concat "." core +:+ tag "-" pre) +:+ tag "+" build.

(** The core with the missing minor and patch written as [0]. *)
Definition pad3 (core : list string) : list string :=
  (core ++ repeat "0" (3 - length core))%list.

(** Byte-wise lexicographic order, written out. *)
Fixpoint lex_compare (a b : string) : comparison :=
  match a, b with
  | EmptyString, EmptyString => Eq
  | EmptyString, String _ _ => Lt
  | String _ _, EmptyString => Gt
  | String x a', String y b' =>
      match N.compare (N_of_ascii x) (N_of_ascii y) with
      | Eq => lex_compare a' b'
      | Lt => Lt
      | Gt => Gt
      end
  end.

Definition sign (c : comparison) : Z :=
  match c with
  | Lt => -1
  | Eq => 0
  | Gt => 1
  end.

(** The precedence of two versions as the specification words it: major,
    then minor, then patch, numerically; on a tie a release is above a
    prerelease, and two prereleases are ordered as plain strings. *)
Definition precedence (a b : Version) : comparison :=
  match Z.compare (Major a) (Major b) with
  | Eq =>
      match Z.compare (Minor a) (Minor b) with
      | Eq =>
          match Z.compare (Patch a) (Patch b) with
          | Eq =>
              match Prerelease a, Prerelease b with
              | EmptyString, EmptyString => Eq
              | EmptyString, String _ _ => Gt
              | String _ _, EmptyString => Lt
              | pa, pb => lex_compare pa pb
              end
          | c => c
          end
      | c => c
      end
  | c => c
  end.

Definition with_build (v : Version) (b : string) : Version :=
  {| Major := Major v; Minor := Minor v; Patch := Patch v;
     Prerelease := Prerelease v; Build := b |}.

(** *** The four dimension maps of an [Info], uniformly *)

Section Dimensions.
Import version.

Inductive Dimension := DSchemas | DAPIs | DComponents | DCustom.

Definition value_of (d : Dimension) : Type :=
  match d with
  | DCustom => any
  | _ => string
  end.

Definition maps_of (d : Dimension) (st : Store) : gmap loc (gmap string (value_of d)) :=
  match d return gmap loc (gmap string (value_of d)) with
  | DSchemas => smaps st
  | DAPIs => smaps st
  | DComponents => smaps st
  | DCustom => amaps st
  end.

Definition set_maps (d : Dimension) (h : gmap loc (gmap string (value_of d))) (st : Store)
  : Store :=
  match d return gmap loc (gmap string (value_of d)) -> Store with
  | DSchemas => fun h => with_smaps h st
  | DAPIs => fun h => with_smaps h st
  | DComponents => fun h => with_smaps h st
  | DCustom => fun h => with_amaps h st
  end h.

Definition field_of (d : Dimension) (i : Info) : mapref :=
  match d with
  | DSchemas => schemas i
  | DAPIs => apis i
  | DComponents => components i
  | DCustom => custom i
  end.


(** What a dimension map of [i] holds in the store [st]. *)
Definition contents (d : Dimension) (st : Store) (r : mapref) : gmap string (value_of d) :=
  entries (maps_of d st) r.

(** Every map an [Info] refers to is a map of the store (Go has no
    dangling reference). *)
Definition allocated (st : Store) (i : Info) : Prop :=
  forall d l, field_of d i = Some l -> l ∈ dom (maps_of d st).

(** A caller working on the map [r] it holds: any sequence of
    assignments and deletions; [None] when one of them panics. *)
Fixpoint mutate {V : Type} (h : gmap loc (gmap string V)) (r : mapref) (ops : list (map_op (V:=V)))
  : option (gmap loc (gmap string V)) :=
  match ops with
  | [] => Some h
  | o :: ops' =>
      match apply_op h r o with
      | Some h' => mutate h' r ops'
      | None => None
      end
  end.

Definition mutate_dim (d : Dimension) (st : Store) (r : mapref)
    (ops : list (map_op (V:=value_of d))) : option Store :=
  match mutate (maps_of d st) r ops with
  | Some h => Some (set_maps d h st)
  | None => None
  end.

(** The mapping held under the key [k] of the custom map [r], as a
    caller reaches it: [m[k].(map[string]interface{})]; [None] when the
    type assertion panics. *)
Definition nested (st : Store) (r : mapref) (k : string) : option loc :=
  match entries (amaps st) r !! k with
  | Some (AMap o) => Some o
  | _ => None
  end.

(** [m[k].(map[string]interface{})[k']]. *)
Definition index_nested (st : Store) (r : mapref) (k k' : string) : option any :=
  match nested st r k with
  | Some o => entries (amaps st) (Some o) !! k'
  | None => None
  end.

(** [m[k].(map[string]interface{})[k'] = v]. *)
Definition assign_nested (st : Store) (r : mapref) (k k' : string) (v : any) : option Store :=
  match nested st r k with
  | Some o => Some (with_amaps (assign (amaps st) o k' v) st)
  | None => None
  end.

End Dimensions.

(** *** Fixtures: a small environment the theorems are run on *)

Section Fixtures.
Import version.

(** The manifest of the specification's end-to-end scenario, without
    and with its [schemas] section, and a file that is not YAML. *)
Definition doc_project : string := "project: {name: svc, version: 1.2.3}".
Definition doc_schemas : string := "project: {name: svc, version: 1.2.3}, Schemas: {db: 47}".
Definition doc_nameless : string := "project: {version: 1.2.3}".

(** A decoder that knows these documents. *)
Definition fixture_decoder (data : string) (st : Store) : result (Manifest * Store) :=
  if String.eqb data doc_project then
    Ok ({| MManifestVersion := "1.0"; MProject := {| MName := "svc"; MVersion := "1.2.3" |};
           Schemas := None; APIs := None; Components := None; Custom := None |}, st)
  else if String.eqb data doc_schemas then
    let (l, h) := make_map (smaps st) in
    Ok ({| MManifestVersion := "1.0"; MProject := {| MName := "svc"; MVersion := "1.2.3" |};
           Schemas := Some l; APIs := None; Components := None; Custom := None |},
        with_smaps (assign h l "db" "47") st)
  else if String.eqb data doc_nameless then
    Ok ({| MManifestVersion := ""; MProject := {| MName := ""; MVersion := "1.2.3" |};
           Schemas := None; APIs := None; Components := None; Custom := None |}, st)
  else Err (Errorf "yaml: unmarshal errors").

(** Nothing injected by the linker, no build information, no [git]; the
    file system holds the given files. *)
Definition fixture_env (files : gmap string File) : Env :=
  {| GitCommit := DefaultGitCommit; GitTag := ""; GitTreeState := DefaultGitTreeState;
     BuildTime := DefaultBuildTime; BuildUser := DefaultBuildUser;
     runtime_Version := "go1.24.6"; runtime_GOOS := "linux"; time_Now := 1700000000;
     debug_ReadBuildInfo := None;
     exec_LookPath := fun _ => None;
     cmd_Output := fun _ _ => None;
     fsys := files;
     yaml_Unmarshal := fixture_decoder;
     testing_Testing := true |}.

Definition empty_store : Store := {| smaps := ∅; amaps := ∅ |}.

Definition empty_world : World :=
  {| store := empty_store; infos := []; reads := []; effects := []; runs := 0 |}.

(** A store with one map of schemas, and an [Info] that holds it. *)
Definition fixture_store : Store :=
  {| smaps := {[ 1%positive := {[ "db" := "47" ]} ]}; amaps := ∅ |}.

Definition fixture_info : Info :=
  {| Project := {| Name := "svc"; Version := "1.2.3" |};
     Git := {| Commit := "dev"; Tag := ""; TreeState := "clean"; CommitTime := "" |};
     Build := {| BuildInfo_Time := "unknown"; User := ""; GoVersion := "go1.24.6" |};
     schemas := Some 1%positive; apis := None; components := None; custom := None;
     loadedAt := 1700000000 |}.

(** A store with a custom map whose entry [features] is a mapping, and
    an [Info] that holds it: the manifest section
    [custom: {features: {beta: false}}]. *)
Definition nested_store : Store :=
  {| smaps := ∅;
     amaps := {[ 1%positive := {[ "features" := AMap 2%positive ]};
                 2%positive := {[ "beta" := ABool false ]} ]} |}.

Definition nested_info : Info :=
  {| Project := {| Name := "svc"; Version := "1.2.3" |};
     Git := {| Commit := "dev"; Tag := ""; TreeState := "clean"; CommitTime := "" |};
     Build := {| BuildInfo_Time := "unknown"; User := ""; GoVersion := "go1.24.6" |};
     schemas := None; apis := None; components := None; custom := Some 1%positive;
     loadedAt := 1700000000 |}.

End Fixtures.

(** *** The stages of [loadVersionInfo] *)

Section Stages.
Import version.

(** The manifest [loadVersionInfo] goes on with, or the error it ends
    with: its lines from [loadManifest] to the default manifest. *)
Definition manifest_stage (env : Env) (options : LoadOptions) (st : Store)
  : result (Manifest * Store) * list string :=
  let (loaded, rd) := loadManifest env options st in
  (match loaded with
   | Ok r => Ok r
   | Err err =>
       if strictMode options then
         (if os.IsNotExist err
          then Err (newCategoryErrorWithHint CategoryManifest ErrMsgStrictModeManifestRequired
                      ErrHintStrictMode)
          else Err (wrapErrorWithHint err CategoryManifest ErrMsgLoadManifest ErrHintParseYAML))
       else if negb (os.IsNotExist err) then
         Err (wrapErrorWithHint err CategoryManifest ErrMsgLoadManifest ErrHintParseYAML)
       else Ok (defaultManifest, st)
   end, rd).

(** The snapshot handed to the validators: its lines from
    [manifestToInfo] to the end of enrichment. *)
Definition snapshot (env : Env) (options : LoadOptions) (m : Manifest) (st : Store)
  : Info * Store :=
  let (info, st) := manifestToInfo env m st in
  let info := set_loadedAt (time_Now env) info in
  let info := if includeGit options then enrichWithGitInfo env info else info in
  let info := if includeBuild options then enrichWithBuildInfo env info else info in
  (info, st).

Definition context_of (options : LoadOptions) : Context :=
  match ctx options with
  | Some c => c
  | None => Background
  end.

(** The world at the end of a load that read [rd] and left the store
    [st] and the effects [eff]. *)
Definition after_load (w : World) (st : Store) (rd : list string) (eff : list string) : World :=
  {| store := st; infos := infos w; reads := reads w ++ rd; effects := eff;
     runs := S (runs w) |}.

(** The source is absent: nothing embedded, and no path or no file at
    the path. *)
Definition source_missing (env : Env) (options : LoadOptions) : Prop :=
  manifestEmbed options = ""
  /\ (manifestPath options = ""
      \/ exists e, ReadFile env (manifestPath options) = Err e /\ os.IsNotExist e = true).

(** The bytes the loader hands to the parser, if it finds any. *)
Definition source_bytes (env : Env) (options : LoadOptions) : option string :=
  if negb (String.eqb (manifestEmbed options) "") then Some (manifestEmbed options)
  else if negb (String.eqb (manifestPath options) "") then
    match ReadFile env (manifestPath options) with
    | Ok data => Some data
    | Err _ => None
    end
  else None.

(** The manifest [m'] holds what the YAML decoder reads from the bytes
    [data]: the project and the four sections are the decoded ones, the
    project has a name and a version, and the manifest version is the
    decoded one, or ["1.0"] when the document gives none. *)
Definition holds_content (env : Env) (data : string) (st : Store) (m' : Manifest) (st' : Store)
  : Prop :=
  exists m,
    yaml_Unmarshal env data st = Ok (m, st')
    /\ MName (MProject m) <> "" /\ MVersion (MProject m) <> ""
    /\ MProject m' = MProject m
    /\ Schemas m' = Schemas m /\ APIs m' = APIs m
    /\ Components m' = Components m /\ Custom m' = Custom m
    /\ MManifestVersion m' =
         (if String.eqb (MManifestVersion m) "" then ManifestVersion else MManifestVersion m).

(** The bytes [data] are refused with the error [e]: they do not decode,
    or they decode to a project without a name, or to one with a name
    and without a version. *)
Definition refused (env : Env) (data : string) (st : Store) (e : error) : Prop :=
  (exists err,
     yaml_Unmarshal env data st = Err err
     /\ e = wrapError err CategoryManifest ErrMsgParseYAML)
  \/ (exists m st',
        yaml_Unmarshal env data st = Ok (m, st')
        /\ MName (MProject m) = ""
        /\ e = newCategoryErrorWithHint CategoryManifest ErrMsgProjectNameRequired
                 ErrHintProjectNameRequired)
  \/ (exists m st',
        yaml_Unmarshal env data st = Ok (m, st')
        /\ MName (MProject m) <> "" /\ MVersion (MProject m) = ""
        /\ e = newCategoryErrorWithHint CategoryManifest ErrMsgProjectVersionRequired
                 ErrHintProjectVersionRequired).

(** The validator leaves the [Info] it is handed as it is. *)
Definition reads_only (v : Validator) : Prop :=
  forall c i st eff, exists e st' eff', Validate v c i st eff = (e, i, st', eff').

End Stages.

(** *** The built-in validators, as the specification describes them *)

Section Verdicts.
Import version.

Inductive BuiltinDim := BSchema | BAPI | BComponent.

Definition builtin_validator (b : BuiltinDim) (item minimum : string) : genericVersionValidator :=
  match b with
  | BSchema => NewSchemaValidator item minimum
  | BAPI => NewAPIValidator item minimum
  | BComponent => NewComponentValidator item minimum
  end.

Definition label (b : BuiltinDim) : string :=
  match b with
  | BSchema => "schema"
  | BAPI => "API"
  | BComponent => "component"
  end.

Definition not_found_hint (b : BuiltinDim) : string :=
  match b with
  | BSchema => ErrHintSchemaNotFound
  | BAPI => ErrHintAPINotFound
  | BComponent => ErrHintComponentNotFound
  end.

Definition builtin_field (b : BuiltinDim) (i : Info) : mapref :=
  match b with
  | BSchema => schemas i
  | BAPI => apis i
  | BComponent => components i
  end.

(** The item's version in the dimension map of the validator, if any. *)
Definition lookup_item (b : BuiltinDim) (i : Info) (st : Store) (item : string) : option string :=
  entries (smaps st) (builtin_field b i) !! item.

(** The four failures, with what each carries. *)
Definition not_found_error (b : BuiltinDim) (item : string) : error :=
  Errorf (label b +:+ " '" +:+ item +:+ "' not found in manifest" +:+ nl
          +:+ "Hint: " +:+ not_found_hint b).

Definition invalid_version_error (b : BuiltinDim) (item actual : string) (cause : error) : error :=
  Wrapf ("invalid " +:+ label b +:+ " version '" +:+ actual +:+ "' for '" +:+ item
         +:+ "': " +:+ Error cause) cause.

Definition invalid_minimum_error (minimum : string) (cause : error) : error :=
  Wrapf ("invalid minimum version '" +:+ minimum +:+ "' for validator: " +:+ Error cause) cause.

Definition too_old_error (b : BuiltinDim) (item actual minimum : string) : error :=
  Errorf (label b +:+ " '" +:+ item +:+ "' version " +:+ actual
          +:+ " is less than required minimum " +:+ minimum +:+ nl
          +:+ "Hint: " +:+ ErrHintVersionTooOld).

(** The answer the specification gives for an item found, or not, in
    the dimension map. *)
Definition expected_verdict (b : BuiltinDim) (item minimum : string) (found : option string)
  : option error :=
  match found with
  | None => Some (not_found_error b item)
  | Some actual =>
      match semver.Parse actual with
      | Err cause => Some (invalid_version_error b item actual cause)
      | Ok a =>
          match semver.Parse minimum with
          | Err cause => Some (invalid_minimum_error minimum cause)
          | Ok m =>
              if semver.LessThan a m then Some (too_old_error b item actual minimum)
              else None
          end
      end
  end.

End Verdicts.

(** *** Test doubles: validators that leave a mark when they run *)

Section Doubles.
Import version.

Definition failing_double (mark : string) : Validator :=
  ValidatorFunc (fun _ info st eff =>
    (Some (Errorf (mark +:+ " rejects")), info, st, (eff ++ [mark])%list)).

Definition passing_double (mark : string) : Validator :=
  ValidatorFunc (fun _ info st eff => (None, info, st, (eff ++ [mark])%list)).

(** A validator that writes the snapshot: [info.Project.Name = name]. *)
Definition renaming_double (name : string) : Validator :=
  ValidatorFunc (fun _ info st eff =>
    (None,
     {| Project := {| Name := name; Version := Version (Project info) |};
        Git := Git info; Build := Build info; schemas := schemas info; apis := apis info;
        components := components info; custom := custom info; loadedAt := loadedAt info |},
     st, (eff ++ ["renamed"])%list)).

End Doubles.

(** *** Callers of the singleton, one after the other *)

Section Callers.
Import version.

Inductive call :=
| CallGet
| CallMustGet
| CallIsInitialized
| CallInitialize (opts : list Option).

Inductive outcome :=
| GetOutcome (r : result nat)
| MustGetOutcome (r : nat + string)
| IsInitializedOutcome (b : bool)
| InitializeOutcome (e : option error).

Definition run_call (env : Env) (c : call) (g : Singleton) (w : World)
  : outcome * (Singleton * World) :=
  match c with
  | CallGet => let (r, gw) := Get env g w in (GetOutcome r, gw)
  | CallMustGet => let (r, gw) := MustGet env g w in (MustGetOutcome r, gw)
  | CallIsInitialized => (IsInitializedOutcome (IsInitialized g), (g, w))
  | CallInitialize opts => let (e, gw) := Initialize env opts g w in (InitializeOutcome e, gw)
  end.

Fixpoint run_calls (env : Env) (cs : list call) (g : Singleton) (w : World)
  : list outcome * (Singleton * World) :=
  match cs with
  | [] => ([], (g, w))
  | c :: cs' =>
      let (o, gw) := run_call env c g w in
      let (os, gw') := run_calls env cs' (fst gw) (snd gw) in
      (o :: os, gw')
  end.

(** The error of a second [Initialize]. *)
Definition already_initialized : error :=
  Errorf (ErrMsgInitializeMultiple +:+ nl +:+ "Hint: " +:+ ErrHintInitializeMultiple).

(** What each call answers once the initialization has failed with [e]. *)
Definition outcome_after_failure (e : error) (c : call) : outcome :=
  match c with
  | CallGet => GetOutcome (Err e)
  | CallMustGet => MustGetOutcome (inr ("version.MustGet: " +:+ Error e))
  | CallIsInitialized => IsInitializedOutcome false
  | CallInitialize _ => InitializeOutcome (Some already_initialized)
  end.

End Callers.

(** The singleton after a failed initialization. *)
Definition failed_state (g : version.Singleton) (e : error) : version.Singleton :=
  {| version.instance := version.instance g; version.initOnce := true;
     version.initError := Some e |}.

(** *** Concurrent callers: what holds along every interleaving *)

Section Interleavings.
Import version.

Definition published (sh : Shared) (p : nat) : Prop := sh_instance sh = Some (Some p).

Definition unpublished (sh : Shared) : Prop := forall p, sh_instance sh <> Some (Some p).

Definition err_of (r : result nat) : option error :=
  match r with
  | Ok _ => None
  | Err e => Some e
  end.

(** What a run of the pipeline has left in the world [w], started from
    [w0]: on success one more [Info], to which the result points. *)
Definition loaded (w0 w : World) (r : result nat) : Prop :=
  match r with
  | Ok p => p = length (infos w0) /\ exists i, infos w = (infos w0 ++ [i])%list
  | Err _ => infos w = infos w0
  end.

(** The initialization has come to its one outcome: no error and the
    instance the pipeline allocated, or an error and no instance. *)
Definition settled (w0 : World) (sh : Shared) : Prop :=
  (sh_initError sh = None
   /\ exists p, published sh p /\ loaded w0 (sh_world sh) (Ok p))
  \/ (exists e, sh_initError sh = Some e /\ unpublished sh
                /\ loaded w0 (sh_world sh) (Err e)).

(** The caller is inside the function handed to [Do]. *)
Definition is_runner (t : thread) : bool :=
  match t with
  | AtLoad _ | AtStore _ _ | AtReturn _ => true
  | _ => false
  end.

Definition has_returned (t : thread) : bool :=
  match t with
  | ReturnedInitialize _ | ReturnedGet _ => true
  | _ => false
  end.

(** What is known where a caller stands; [w0] is the world before the
    callers arrived. *)
Definition thread_ok (w0 : World) (sh : Shared) (t : thread) : Prop :=
  match t with
  | AtFastPath => True
  | AtDo _ => True
  | AtLoad _ =>
      sh_once sh = OnceRunning /\ runs (sh_world sh) = runs w0
      /\ infos (sh_world sh) = infos w0
      /\ unpublished sh /\ sh_initError sh = None
  | AtStore _ r =>
      sh_once sh = OnceRunning /\ runs (sh_world sh) = S (runs w0)
      /\ loaded w0 (sh_world sh) r
      /\ unpublished sh /\ sh_initError sh = err_of r
  | AtReturn _ =>
      sh_once sh = OnceRunning /\ runs (sh_world sh) = S (runs w0) /\ settled w0 sh
  | AfterDo _ _ => sh_once sh = OnceDone
  | AtReload => sh_once sh = OnceDone /\ sh_initError sh = None
  | ReturnedInitialize _ => sh_once sh = OnceDone
  | ReturnedGet (Ok p) => published sh p
  | ReturnedGet (Err e) => sh_once sh = OnceDone /\ sh_initError sh = Some e
  end.

Definition invariant (w0 : World) (cfg : Shared * list thread) : Prop :=
  (forall i t, snd cfg !! i = Some t -> thread_ok w0 (fst cfg) t)
  /\ (forall i j ti tj,
        snd cfg !! i = Some ti -> snd cfg !! j = Some tj ->
        is_runner ti = true -> is_runner tj = true -> i = j)
  /\ (sh_once (fst cfg) = OnceIdle ->
      runs (sh_world (fst cfg)) = runs w0 /\ infos (sh_world (fst cfg)) = infos w0
      /\ unpublished (fst cfg) /\ sh_initError (fst cfg) = None)
  /\ (sh_once (fst cfg) = OnceRunning ->
      exists i t, snd cfg !! i = Some t /\ is_runner t = true)
  /\ (sh_once (fst cfg) = OnceDone ->
      runs (sh_world (fst cfg)) = S (runs w0) /\ settled w0 (fst cfg)).

(** The singleton before any caller: the [Once] unused, no instance, no
    error. *)
Definition fresh_shared (sh : Shared) : Prop :=
  sh_once sh = OnceIdle /\ unpublished sh /\ sh_initError sh = None.

(** The steps a caller has left at most. *)
Definition weight (t : thread) : nat :=
  match t with
  | AtFastPath => 8
  | AtDo _ => 7
  | AtLoad _ => 6
  | AtStore _ _ => 5
  | AtReturn _ => 4
  | AfterDo _ _ => 3
  | AtReload => 2
  | ReturnedInitialize _ => 0
  | ReturnedGet _ => 0
  end.

Definition total_weight (ts : list thread) : nat := list_sum (List.map weight ts).

Definition all_returned (ts : list thread) : Prop :=
  forall i t, ts !! i = Some t -> has_returned t = true.

(** The shared variables as the one-caller-at-a-time functions see
    them. *)
Definition as_singleton (sh : Shared) : Singleton :=
  {| instance := sh_instance sh;
     initOnce := match sh_once sh with OnceDone => true | _ => false end;
     initError := sh_initError sh |}.

Definition as_shared (g : Singleton) (w : World) : Shared :=
  {| sh_instance := instance g;
     sh_once := if initOnce g then OnceDone else OnceIdle;
     sh_initError := initError g;
     sh_world := w |}.

(** Callers scheduled by a list of indices; a caller that cannot move
    when its turn comes is passed over. *)
Definition step_at (env : Env) (i : nat) (cfg : Shared * list thread) : Shared * list thread :=
  match snd cfg !! i with
  | Some t =>
      match thread_step env t (fst cfg) with
      | Some (t', sh') => (sh', <[i := t']> (snd cfg))
      | None => cfg
      end
  | None => cfg
  end.

Definition run_schedule (env : Env) (sched : list nat) (cfg : Shared * list thread)
  : Shared * list thread :=
  fold_left (fun c i => step_at env i c) sched cfg.

End Interleavings.

End Vocabulary.

(** * Vocabulary of the further properties *)

Section VersionsVocabulary.
Import strconv semver.

(** A version [Parse] can give back from its printed form: the three
    numbers are not negative (and fit an [int], as any Go value does),
    and the prerelease holds no ['+']. *)
Definition printable (v : Version) : Prop :=
  0 <= Major v <= maxInt /\ 0 <= Minor v <= maxInt /\ 0 <= Patch v <= maxInt
  /\ has_char "+" (Prerelease v) = false.

(** What [Compare] looks at: everything but the build metadata. *)
Definition precedence_key (v : Version) : Z * Z * Z * string :=
  (Major v, Minor v, Patch v, Prerelease v).

End VersionsVocabulary.

Section VersionsFixtures.
Import semver.

(** The version the specification's example text denotes, and two
    around it. *)
Definition v_1_2_3_beta : Version :=
  {| Major := 1; Minor := 2; Patch := 3; Prerelease := "beta.1"; Build := "build.123" |}.
Definition v_1_2_3 : Version :=
  {| Major := 1; Minor := 2; Patch := 3; Prerelease := ""; Build := "" |}.
Definition v_2_0_0 : Version :=
  {| Major := 2; Minor := 0; Patch := 0; Prerelease := ""; Build := "" |}.

End VersionsFixtures.

(** *** The options a caller can pass

    The fields of [LoadOptions] are unexported, so code outside the
    package builds an [Option] with one of the package's constructors;
    a call site is a list of these. *)

Section OptionsVocabulary.
Import version.

Inductive setting :=
| SetManifestPath (path : string)
| SetEmbedded (data : string)
| SetGitInfo (on : bool)
| SetBuildInfo (on : bool)
| AddValidators (vs : list Validator)
| SetStrictMode
| SetContext (c : Context).

Definition option_of (s : setting) : Option :=
  match s with
  | SetManifestPath path => WithManifestPath path
  | SetEmbedded data => WithEmbedded data
  | SetGitInfo true => WithGitInfo
  | SetGitInfo false => WithoutGitInfo
  | SetBuildInfo true => WithBuildInfo
  | SetBuildInfo false => WithoutBuildInfo
  | AddValidators vs => WithValidators vs
  | SetStrictMode => WithStrictMode
  | SetContext c => WithContext c
  end.

Definition path_of (s : setting) : option string :=
  match s with SetManifestPath path => Some path | _ => None end.
Definition embedded_of (s : setting) : option string :=
  match s with SetEmbedded data => Some data | _ => None end.
Definition git_of (s : setting) : option bool :=
  match s with SetGitInfo on => Some on | _ => None end.
Definition build_of (s : setting) : option bool :=
  match s with SetBuildInfo on => Some on | _ => None end.
Definition context_set_by (s : setting) : option Context :=
  match s with SetContext c => Some c | _ => None end.
Definition validators_of (s : setting) : list Validator :=
  match s with AddValidators vs => vs | _ => [] end.
Definition is_strict (s : setting) : bool :=
  match s with SetStrictMode => true | _ => false end.

(** The value the last setting of one kind gave, if any did. *)
Definition last_set {A : Type} (pick : setting -> option A) (ss : list setting) : option A :=
  last (omap pick ss).

End OptionsVocabulary.

(** *** The sources of git information *)

Section GitSourcesVocabulary.
Import version.

(** The value of the first setting with the key [key] whose value is
    not [skip]. *)
Definition first_value (key skip : string) (settings : list (string * string))
  : option string :=
  snd <$> List.find (fun kv => String.eqb (fst kv) key && negb (String.eqb (snd kv) skip))
            settings.

Definition marked_modified (settings : list (string * string)) : bool :=
  existsb (fun kv => String.eqb (fst kv) VCSKeyModified && String.eqb (snd kv) VCSValueTrue)
    settings.

(** What [debug.ReadBuildInfo] says, when it says anything. *)
Definition build_setting (env : Env) (key skip : string) : option string :=
  match debug_ReadBuildInfo env with
  | Some settings => first_value key skip settings
  | None => None
  end.

Definition build_modified (env : Env) : bool :=
  match debug_ReadBuildInfo env with
  | Some settings => marked_modified settings
  | None => false
  end.

(** The git section [manifestToInfo] starts from. *)
Definition default_git : GitInfo :=
  {| Commit := DefaultGitCommit; Tag := ""; TreeState := DefaultGitTreeState; CommitTime := "" |}.

(** Two environments that differ at most in what [git] is found and
    what it prints. *)
Definition same_but_git (env env' : Env) : Prop :=
  GitCommit env' = GitCommit env /\ GitTag env' = GitTag env
  /\ GitTreeState env' = GitTreeState env
  /\ debug_ReadBuildInfo env' = debug_ReadBuildInfo env.

(** An environment built with [-ldflags]: commit and tag injected. *)
Definition release_env (env : Env) (commit tag : string) : Env :=
  {| GitCommit := commit; GitTag := tag; GitTreeState := GitTreeState env;
     BuildTime := BuildTime env; BuildUser := BuildUser env;
     runtime_Version := runtime_Version env; runtime_GOOS := runtime_GOOS env;
     time_Now := time_Now env; debug_ReadBuildInfo := debug_ReadBuildInfo env;
     exec_LookPath := exec_LookPath env; cmd_Output := cmd_Output env; fsys := fsys env;
     yaml_Unmarshal := yaml_Unmarshal env; testing_Testing := testing_Testing env |}.

(** An environment where [git] is found at [path] and prints [out] for
    every command. *)
Definition git_env (env : Env) (path out : string) : Env :=
  {| GitCommit := GitCommit env; GitTag := GitTag env; GitTreeState := GitTreeState env;
     BuildTime := BuildTime env; BuildUser := BuildUser env;
     runtime_Version := runtime_Version env; runtime_GOOS := runtime_GOOS env;
     time_Now := time_Now env; debug_ReadBuildInfo := debug_ReadBuildInfo env;
     exec_LookPath := fun _ => Some path; cmd_Output := fun _ _ => Some out; fsys := fsys env;
     yaml_Unmarshal := yaml_Unmarshal env; testing_Testing := testing_Testing env |}.


End GitSourcesVocabulary.

Section GitFixtures.
Import version.


(** [git] found in a directory a user can write to. *)
Definition hijacked_env : Env := git_env (fixture_env ∅) "/tmp/bin/git" "0a1b2c3d4e5f".

End GitFixtures.

(** *** The loader *)

Section LoaderVocabulary.
Import version.

(** The four maps of a decoded manifest, by dimension. *)
Definition manifest_field (d : Dimension) (m : Manifest) : mapref :=
  match d with
  | DSchemas => Schemas m
  | DAPIs => APIs m
  | DComponents => Components m
  | DCustom => Custom m
  end.

(** Every map the manifest refers to is a map of the store. *)
Definition manifest_allocated (st : Store) (m : Manifest) : Prop :=
  forall d l, manifest_field d m = Some l -> l ∈ dom (maps_of d st).

(** The per-item getter and the map getter of a dimension of strings. *)
Definition item_getter (b : BuiltinDim) : Info -> Store -> string -> string * bool :=
  match b with
  | BSchema => GetSchemaVersion
  | BAPI => GetAPIVersion
  | BComponent => GetComponentVersion
  end.

Definition map_getter (b : BuiltinDim) : Info -> Store -> mapref * Store :=
  match b with
  | BSchema => GetSchemas
  | BAPI => GetAPIs
  | BComponent => GetComponents
  end.

(** [v, ok := m[name]] read off the entries of a map. *)
Definition index_entries (m : gmap string string) (name : string) : string * bool :=
  match m !! name with
  | Some v => (v, true)
  | None => ("", false)
  end.

(** A file system where the manifest is there and cannot be read. *)
Definition locked_files : gmap string File := {[ "versions.yaml" := FileErr EACCES ]}.

(** A file system with the manifest of the end-to-end scenario. *)
Definition doc_files : gmap string File := {[ "versions.yaml" := FileData doc_schemas ]}.

End LoaderVocabulary.

Section StoreVocabulary.

(** Two dimensions whose maps live in the same part of the store. *)
Definition same_maps (d d' : Dimension) : bool :=
  match d, d' with
  | DCustom, DCustom => true
  | DCustom, _ => false
  | _, DCustom => false
  | _, _ => true
  end.

End StoreVocabulary.

Section ManifestFixtures.
Import version.

(** The decoded manifest of the end-to-end scenario: its [schemas]
    section is the map of [fixture_store]. *)
Definition fixture_manifest : Manifest :=
  {| MManifestVersion := "1.0"; MProject := {| MName := "svc"; MVersion := "1.2.3" |};
     Schemas := Some 1%positive; APIs := None; Components := None; Custom := None |}.

End ManifestFixtures.

(** *** The singleton after a successful initialization *)

Section PublishedVocabulary.
Import version.

Definition published_state (p : nat) : Singleton :=
  {| instance := Some (Some p); initOnce := true; initError := None |}.

(** What each call answers once the instance [p] is published. *)
Definition outcome_after_success (p : nat) (c : call) : outcome :=
  match c with
  | CallGet => GetOutcome (Ok p)
  | CallMustGet => MustGetOutcome (inl p)
  | CallIsInitialized => IsInitializedOutcome true
  | CallInitialize _ => InitializeOutcome (Some already_initialized)
  end.

(** The singleton as [Reset] leaves it. *)
Definition reset_state : Singleton :=
  {| instance := Some None; initOnce := false; initError := None |}.

(** The singleton after the pipeline has run once inside [Do], from a
    state where [stored] was in [instance]. *)
Definition state_after (stored : option (option nat)) (r : result nat) : Singleton :=
  match r with
  | Ok p => published_state p
  | Err e => {| instance := stored; initOnce := true; initError := Some e |}
  end.

End PublishedVocabulary.

(** *** HTTP: what a response says *)

Section HTTPVocabulary.
Import version.

(** The status that went out, and the values of a header that went out
    with it. *)
Definition status (w : http.ResponseWriter) : option Z := fst <$> http.wrote w.

Definition sent (w : http.ResponseWriter) (key : string) : option (list string) :=
  match http.wrote w with
  | Some (_, h) => h !! key
  | None => None
  end.

(** A published pointer points to an [Info]. *)
Definition valid_instance (g : Singleton) (wd : World) : Prop :=
  forall p, instance g = Some (Some p) -> is_Some (deref wd p).

(** What [Encode] adds to the body. *)
Definition encoded_line (encoded : result string) : string :=
  match encoded with
  | Ok b => b +:+ nl
  | Err _ => ""
  end.

Definition fresh_writer : http.ResponseWriter :=
  {| http.header := ∅; http.wrote := None; http.body := "" |}.

(** A stand-in for [encoding/json] that writes the project and the
    status only. *)
Definition fixture_codec : Codec :=
  {| json_Marshal_jsonInfo := fun j _ =>
       Ok ("{project:" +:+ Name (J_Project j) +:+ "@" +:+ Version (J_Project j) +:+ "}");
     json_Marshal_healthResponse := fun h =>
       Ok ("{status:" +:+ hr_Status h +:+ ",version:" +:+ hr_Version h +:+ "}") |}.

Definition get_request : http.Request := {| http.Method := "GET" |}.
Definition post_request : http.Request := {| http.Method := "POST" |}.

(** A handler that answers 204 and records the version header it was
    given in the body. *)
Definition echo_handler : HandlerT := fun r w g wd =>
  Some (http.Write (http.WriteHeader w 204)
          (match http.header w !! HTTPHeaderAppVersion with
           | Some (v :: _) => v
           | _ => "-"
           end), (g, wd)).

End HTTPVocabulary.

(** *** The command line tool *)

Section CommandVocabulary.

(** The line [printSortedMap] writes for one entry. *)
Definition entry_line (m : gmap string string) (k : string) : string :=
  "  " +:+ k +:+ ":" +:+ main.tab +:+ default "" (m !! k) +:+ version.nl.

(** The keys of a map, in some order. *)
Definition keys_of (m : gmap string string) : list string := (map_to_list m).*1.

(** Go's [<] on strings. *)
Definition byte_lt (a b : string) : Prop := String.ltb a b = true.

Definition components_map : gmap string string :=
  {[ "redis" := "7.2"; "kafka" := "3.6"; "auth" := "1.0.1" ]}.

End CommandVocabulary.

Section OptionKinds.

(** The field of [LoadOptions] a setting writes. *)
Inductive setting_kind :=
| KPath | KEmbedded | KGit | KBuild | KValidators | KStrict | KContext.

Definition kind_of (s : setting) : setting_kind :=
  match s with
  | SetManifestPath _ => KPath
  | SetEmbedded _ => KEmbedded
  | SetGitInfo _ => KGit
  | SetBuildInfo _ => KBuild
  | AddValidators _ => KValidators
  | SetStrictMode => KStrict
  | SetContext _ => KContext
  end.

End OptionKinds.

(** *** The texts [Parse] accepts *)

Section AcceptedVocabulary.
Import strings strconv.

(** The text up to the first ['-'] or ['+']. *)
Fixpoint core_of (t : string) : string :=
  match t with
  | EmptyString => EmptyString
  | String c r =>
      if (Ascii.eqb c "-" || Ascii.eqb c "+")%bool then EmptyString else String c (core_of r)
  end.

(** A number as [Parse] reads one: not empty, decimal digits only (any
    other byte stops [digits_acc]), the value within [int]. *)
Definition decimal (p : string) : bool :=
  match p with
  | EmptyString => false
  | _ =>
      match digits_acc p 0 with
      | Some n => n <=? maxInt
      | None => false
      end
  end.

(** After one leading ["v"], the text is not empty and its core is one
    to three numbers separated by dots. *)
Definition accepted (s : string) : bool :=
  let t := TrimPrefix s "v" in
  (negb (String.eqb t "")
   && (length (Split (core_of t) ".") <=? 3)%nat
   && forallb decimal (Split (core_of t) "."))%bool.

End AcceptedVocabulary.
(** * Proofs *)

(** ** Byte strings *)

Lemma string_app_cons (x : ascii) (a b : string) : String x a +:+ b = String x (a +:+ b).
Proof. reflexivity. Qed.

Lemma string_app_assoc (a b c : string) : (a +:+ b) +:+ c = a +:+ (b +:+ c).
Proof.
induction a as [|x a IH]; [reflexivity|].
rewrite !string_app_cons. now rewrite IH.
Qed.

Lemma string_app_nil_r (a : string) : a +:+ "" = a.
Proof.
induction a as [|x a IH]; [reflexivity|].
rewrite string_app_cons. now rewrite IH.
Qed.

(** ** Decimal numerals: printing what was parsed *)

Section Numerals.
Import strconv.

Lemma digit_val_range c d : digit_val c = Some d -> 0 <= d <= 9.
Proof.
  unfold digit_val. destruct (_ && _) eqn:E; [|discriminate].
  intros [= <-]. apply andb_prop in E as [? ?]. lia.
Qed.

Lemma digit_char_val c d : digit_val c = Some d -> digit_char d = c.
Proof.
  unfold digit_val, digit_char. destruct (_ && _) eqn:E; [|discriminate].
  intros [= <-]. replace (48 + (Z.of_N (N_of_ascii c) - 48)) with (Z.of_N (N_of_ascii c)) by lia.
  rewrite N2Z.id. apply ascii_N_embedding.
Qed.

Lemma format_acc_fuel f1 : forall f2 n acc,
  0 <= n < 2 ^ Z.of_nat (S f1) -> 0 <= n < 2 ^ Z.of_nat (S f2) ->
  format_acc f1 n acc = format_acc f2 n acc.
Proof.
  induction f1 as [|f1 IH]; intros f2 n acc H1 H2.
  - destruct f2 as [|f2]; [reflexivity|]. simpl in *.
    destruct (n <? 10) eqn:E; [reflexivity|]. apply Z.ltb_ge in E. lia.
  - destruct f2 as [|f2].
    + cbn [format_acc]. destruct (n <? 10) eqn:E; [reflexivity|].
      apply Z.ltb_ge in E. simpl in H2. lia.
    + cbn [format_acc]. destruct (n <? 10) eqn:E; [reflexivity|].
      apply Z.ltb_ge in E. apply IH.
      * rewrite Nat2Z.inj_succ, Z.pow_succ_r in H1 by lia.
        split; [apply Z.div_pos; lia|]. apply Z.div_lt_upper_bound; lia.
      * rewrite Nat2Z.inj_succ, Z.pow_succ_r in H2 by lia.
        split; [apply Z.div_pos; lia|]. apply Z.div_lt_upper_bound; lia.
Qed.

Lemma format_acc_app f : forall n acc,
  format_acc f n acc = format_acc f n EmptyString +:+ acc.
Proof.
  induction f as [|f IH]; intros n acc; cbn [format_acc].
  - reflexivity.
  - destruct (n <? 10); [reflexivity|].
    rewrite (IH _ (String _ acc)), (IH _ (String _ EmptyString)).
    rewrite string_app_assoc. reflexivity.
Qed.

Lemma log2_fuel n : 0 <= n -> 0 <= n < 2 ^ Z.of_nat (S (Z.to_nat (Z.log2 n))).
Proof.
  intros Hn. split; [assumption|].
  rewrite Nat2Z.inj_succ, Z2Nat.id by apply Z.log2_nonneg.
  destruct (Z.eq_dec n 0) as [->|Hz]; [reflexivity|].
  apply Z.log2_spec. lia.
Qed.

(** One more digit on the right. *)
Lemma utoa_snoc k c d :
  0 <= k -> digit_val c = Some d -> 0 < k ->
  utoa (k * 10 + d) = utoa k +:+ String c EmptyString.
Proof.
  intros Hk Hd Hpos. pose proof (digit_val_range _ _ Hd) as Hr.
  unfold utoa. set (F := Z.to_nat (Z.log2 (k * 10 + d))).
  assert (HF : 0 <= k * 10 + d < 2 ^ Z.of_nat (S F)) by (apply log2_fuel; lia).
  assert (HF' : 2 ^ Z.of_nat (S F) < 2 ^ Z.of_nat (S (S F))).
  { rewrite (Nat2Z.inj_succ (S F)), Z.pow_succ_r by lia. lia. }
  rewrite (format_acc_fuel F (S F) (k * 10 + d)) by lia.
  cbn [format_acc].
  destruct (k * 10 + d <? 10) eqn:E; [apply Z.ltb_lt in E; lia|].
  replace ((k * 10 + d) / 10) with k by (apply Z.div_unique with d; lia).
  replace ((k * 10 + d) mod 10) with d by (apply Z.mod_unique with k; lia).
  rewrite (digit_char_val _ _ Hd).
  rewrite (format_acc_fuel F (Z.to_nat (Z.log2 k)) k);
    [apply format_acc_app | lia | apply log2_fuel; lia].
Qed.

Lemma utoa_digit c d : digit_val c = Some d -> utoa d = String c EmptyString.
Proof.
  intros Hd. pose proof (digit_val_range _ _ Hd) as Hr. unfold utoa.
  destruct (Z.to_nat (Z.log2 d)); cbn [format_acc];
    [|rewrite (proj2 (Z.ltb_lt d 10)) by lia];
    rewrite Z.mod_small by lia; now rewrite (digit_char_val _ _ Hd).
Qed.

Lemma digits_acc_nonneg s : forall acc n, 0 <= acc -> digits_acc s acc = Some n -> acc <= n.
Proof.
  induction s as [|c r IH]; intros acc n Hacc; cbn [digits_acc].
  - intros [= <-]. lia.
  - destruct (digit_val c) as [d|] eqn:Hd; [|discriminate].
    pose proof (digit_val_range _ _ Hd) as Hr. intros H. apply IH in H; lia.
Qed.

Lemma utoa_digits_acc s : forall acc n,
  0 < acc -> digits_acc s acc = Some n -> utoa n = utoa acc +:+ s.
Proof.
  induction s as [|c r IH]; intros acc n Hacc; cbn [digits_acc].
  - intros [= <-]. now rewrite string_app_nil_r.
  - destruct (digit_val c) as [d|] eqn:Hd; [|discriminate].
    pose proof (digit_val_range _ _ Hd) as Hr. intros H.
    apply IH in H; [|lia]. rewrite H, (utoa_snoc acc c d) by (assumption || lia).
    rewrite string_app_assoc. reflexivity.
Qed.

Lemma numeral_value s :
  numeral s = true -> exists n, digits_acc s 0 = Some n /\ 0 <= n <= maxInt.
Proof.
  destruct s as [|c r]; [discriminate|]. unfold numeral.
  intros H. apply andb_prop in H as [_ H].
  destruct (digits_acc (String c r) 0) as [n|] eqn:E; [|discriminate].
  exists n. split; [reflexivity|]. apply Z.leb_le in H.
  apply digits_acc_nonneg in E; lia.
Qed.

(** Printing the value of a numeral gives the numeral back. *)
Lemma utoa_numeral s n : numeral s = true -> digits_acc s 0 = Some n -> utoa n = s.
Proof.
  destruct s as [|c r]; [discriminate|]. unfold numeral.
  intros H E. apply andb_prop in H as [H _]. apply andb_prop in H as [_ H].
  cbn [digits_acc] in E. destruct (digit_val c) as [d|] eqn:Hd; [|discriminate].
  pose proof (digit_val_range _ _ Hd) as Hr.
  change (0 * 10 + d) with d in E.
  apply orb_prop in H as [H|H].
  - assert (Hpos : 0 < d).
    { destruct (Z.eq_dec d 0) as [->|]; [|lia]. exfalso.
      apply digit_char_val in Hd. subst c. discriminate. }
    apply utoa_digits_acc in E; [|assumption].
    rewrite E, (utoa_digit c d Hd). reflexivity.
  - apply String.eqb_eq in H. subst r. simpl in E. injection E as <-.
    apply utoa_digit, Hd.
Qed.

Lemma Atoi_numeral s : numeral s = true ->
  exists n, Atoi s = Some n /\ 0 <= n <= maxInt /\ Itoa n = s.
Proof.
  intros H. destruct (numeral_value s H) as (n & E & Hn).
  exists n. split; [|split; [assumption|]].
  - destruct s as [|c r]; [discriminate|].
    assert (Hd : is_digit c = true).
    { unfold numeral in H. apply andb_prop in H as [H _]. apply andb_prop in H as [H _].
      simpl in H. apply andb_prop in H as [H _]. exact H. }
    unfold Atoi.
    assert (Hs : match String c r with
                 | String "+" r0 => (false, r0)
                 | String "-" r0 => (true, r0)
                 | _ => (false, String c r)
                 end = (false, String c r)).
    { destruct c as [[] [] [] [] [] [] [] []]; try reflexivity; discriminate Hd. }
    rewrite Hs. cbn [snd fst unsigned]. rewrite E.
    unfold minInt, maxInt in *.
    destruct (_ && _) eqn:B; [reflexivity|].
    apply andb_false_iff in B as [B|B]; [apply Z.leb_gt in B | apply Z.leb_gt in B]; lia.
  - unfold Itoa. destruct (n <? 0) eqn:B; [apply Z.ltb_lt in B; lia|].
    apply utoa_numeral; assumption.
Qed.

End Numerals.

(** ** Splitting a canonical version string *)

Section Splitting.
Import strings.

Lemma has_char_app c a b : has_char c (a +:+ b) = has_char c a || has_char c b.
Proof.
  induction a as [|x a IH]; [reflexivity|].
  rewrite string_app_cons. cbn [has_char]. rewrite IH. now rewrite orb_assoc.
Qed.

Lemma cut_none c s : has_char c s = false -> cut c s = None.
Proof.
  induction s as [|x s IH]; [reflexivity|]. cbn [has_char cut].
  intros H. apply orb_false_elim in H as [-> H]. now rewrite (IH H).
Qed.

Lemma cut_first c a b : has_char c a = false -> cut c (a +:+ String c b) = Some (a, b).
Proof.
  induction a as [|x a IH].
  - intros _. change (cut c (String c b) = Some (EmptyString, b)).
    cbn [cut]. now rewrite Ascii.eqb_refl.
  - cbn [has_char]. intros H. apply orb_false_elim in H as [Hx H].
    rewrite string_app_cons. cbn [cut]. now rewrite Hx, (IH H).
Qed.

(** The two results [Parse] reads off [SplitN]: the text before the
    separator, and the text after it ([""] when there is none). *)
Lemma SplitN2_tag c X y :
  has_char c X = false ->
  semver.at_ (SplitN2 (X +:+ tag c y) c) 0 = X /\
  (if (1 <? length (SplitN2 (X +:+ tag c y) c))%nat
   then semver.at_ (SplitN2 (X +:+ tag c y) c) 1 else "") = y.
Proof.
  intros HX. unfold tag, SplitN2. destruct (String.eqb y "") eqn:E.
  - apply String.eqb_eq in E. subst y. rewrite string_app_nil_r, (cut_none _ _ HX).
    split; reflexivity.
  - rewrite (cut_first _ _ _ HX). split; reflexivity.
Qed.

Lemma Split_none c s : has_char c s = false -> Split s c = [s].
Proof.
  induction s as [|x s IH]; [reflexivity|]. cbn [has_char Split].
  intros H. apply orb_false_elim in H as [-> H]. now rewrite (IH H).
Qed.

Lemma Split_first c a b : has_char c a = false -> Split (a +:+ String c b) c = a :: Split b c.
Proof.
  induction a as [|x a IH].
  - intros _. change (Split (String c b) c = EmptyString :: Split b c).
    cbn [Split]. now rewrite Ascii.eqb_refl.
  - cbn [has_char]. intros H. apply orb_false_elim in H as [Hx H].
    rewrite string_app_cons. cbn [Split]. now rewrite Hx, (IH H).
Qed.

Lemma all_digits_no_char c s :
  is_digit c = false -> all_digits s = true -> has_char c s = false.
Proof.
  intros Hc. induction s as [|x s IH]; [reflexivity|]. cbn [all_digits has_char].
  intros H. apply andb_prop in H as [Hx H]. rewrite (IH H), orb_false_r.
  destruct (Ascii.eqb_spec x c) as [->|]; [congruence | reflexivity].
Qed.

Lemma numeral_no_char c s : is_digit c = false -> numeral s = true -> has_char c s = false.
Proof.
  intros Hc H. apply all_digits_no_char; [assumption|].
  destruct s as [|x r]; [discriminate|]. unfold numeral in H.
  apply andb_prop in H as [H _]. now apply andb_prop in H as [H _].
Qed.

Lemma numeral_head s : numeral s = true -> exists x r, s = String x r /\ is_digit x = true.
Proof.
  destruct s as [|x r]; [discriminate|]. intros H. exists x, r. split; [reflexivity|].
  unfold numeral in H. apply andb_prop in H as [H _]. apply andb_prop in H as [H _].
  cbn [all_digits] in H. now apply andb_prop in H as [H _].
Qed.

(** A string that starts with a digit has no ["v"] to strip and is not
    empty. *)
Lemma TrimPrefix_digit x r : is_digit x = true -> TrimPrefix (String x r) "v" = String x r.
Proof.
  intros H. unfold TrimPrefix. cbn [strip_prefix].
  destruct (Ascii.eqb_spec "v" x) as [<-|]; [discriminate H | reflexivity].
Qed.

Lemma TrimPrefix_v s : TrimPrefix ("v" +:+ s) "v" = s.
Proof. reflexivity. Qed.

End Splitting.

(** ** semver: Parse on canonical text, and String after it *)

Section RoundTrip.
Import strings strconv semver.

Lemma Parse_parts s :
  Parse s =
    let s := TrimPrefix s "v" in
    if String.eqb s "" then Err (fmt.Errorf "empty version string" []) else
    let parts := SplitN2 s "+" in
    let parts' := SplitN2 (at_ parts 0) "-" in
    parse_parts s (Split (at_ parts' 0) ".")
      (if (1 <? length parts')%nat then at_ parts' 1 else "")
      (if (1 <? length parts)%nat then at_ parts 1 else "").
Proof. reflexivity. Qed.

Lemma Parse_text X x r pre build :
  X = String x r -> is_digit x = true ->
  has_char "+" X = false -> has_char "-" X = false -> has_char "+" pre = false ->
  Parse ((X +:+ tag "-" pre) +:+ tag "+" build)
  = parse_parts ((X +:+ tag "-" pre) +:+ tag "+" build) (Split X ".") pre build.
Proof.
  intros HX Hx Hplus Hminus Hpre. rewrite Parse_parts. cbv zeta.
  assert (Hs : exists r', (X +:+ tag "-" pre) +:+ tag "+" build = String x r').
  { subst X. rewrite !string_app_cons. eauto. }
  destruct Hs as [r' Hs]. rewrite Hs, (TrimPrefix_digit _ _ Hx). cbn [String.eqb].
  rewrite <- Hs.
  assert (HV : has_char "+" (X +:+ tag "-" pre) = false).
  { rewrite has_char_app, Hplus. unfold tag.
    destruct (String.eqb pre ""); [reflexivity|]. cbn [has_char]. now rewrite Hpre. }
  destruct (SplitN2_tag "+" _ build HV) as [-> ->].
  destruct (SplitN2_tag "-" _ pre Hminus) as [-> ->].
  reflexivity.
Qed.

Lemma is_digit_dot : is_digit "." = false. Proof. reflexivity. Qed.
Lemma is_digit_plus : is_digit "+" = false. Proof. reflexivity. Qed.
Lemma is_digit_minus : is_digit "-" = false. Proof. reflexivity. Qed.

Lemma core_no_char c core :
  is_digit c = false -> Ascii.eqb "." c = false ->
  forallb numeral core = true -> has_char c (String.concat "." core) = false.
Proof.
  intros Hc Hdot. induction core as [|a core IH]; [reflexivity|].
  cbn [forallb]. intros H. apply andb_prop in H as [Ha H].
  destruct core as [|b core]; [apply numeral_no_char; assumption|].
  change (String.concat "." (a :: b :: core))
    with (a +:+ String "." (String.concat "." (b :: core))).
  rewrite has_char_app, (numeral_no_char c a Hc Ha). cbn [has_char orb].
  rewrite Hdot. now apply IH.
Qed.

Lemma Split_core core :
  core <> [] -> forallb numeral core = true -> Split (String.concat "." core) "." = core.
Proof.
  induction core as [|a core IH]; [congruence|]. intros _.
  cbn [forallb]. intros H. apply andb_prop in H as [Ha H].
  destruct core as [|b core].
  - apply Split_none, numeral_no_char; [reflexivity | assumption].
  - change (String.concat "." (a :: b :: core))
      with (a +:+ String "." (String.concat "." (b :: core))).
    rewrite Split_first by (apply numeral_no_char; [reflexivity | assumption]).
    f_equal. apply IH; [congruence | assumption].
Qed.

End RoundTrip.

Section SemverRoundTrip.
Import strings strconv semver.

Lemma Parse_v s : TrimPrefix s "v" = s -> Parse ("v" +:+ s) = Parse s.
Proof.
  intros H. rewrite !Parse_parts. cbv zeta. rewrite TrimPrefix_v, H. reflexivity.
Qed.

Lemma Sprintf_version a b c :
  fmt.Sprintf "%d.%d.%d" [fmt.Int a; fmt.Int b; fmt.Int c]
  = Itoa a +:+ "." +:+ Itoa b +:+ "." +:+ Itoa c.
Proof.
  change (Itoa a +:+ String "." (Itoa b +:+ String "." (Itoa c +:+ ""))
          = Itoa a +:+ "." +:+ Itoa b +:+ "." +:+ Itoa c).
  now rewrite string_app_nil_r.
Qed.

Lemma String_text v :
  String_ v =
    ((Itoa (Major v) +:+ "." +:+ Itoa (Minor v) +:+ "." +:+ Itoa (Patch v))
       +:+ tag "-" (Prerelease v)) +:+ tag "+" (Build v).
Proof.
  unfold String_, tag. rewrite Sprintf_version.
  destruct (String.eqb (Prerelease v) ""), (String.eqb (Build v) ""); cbn [negb];
    rewrite ?string_app_nil_r; reflexivity.
Qed.

Lemma parse_parts_core core s pre build :
  (1 <= length core <= 3)%nat -> forallb numeral core = true ->
  exists v, parse_parts s core pre build = Ok v
    /\ Prerelease v = pre /\ Build v = build
    /\ Itoa (Major v) +:+ "." +:+ Itoa (Minor v) +:+ "." +:+ Itoa (Patch v)
       = String.concat "." (pad3 core).
Proof.
  intros Hlen Hnum.
  destruct core as [|a [|b [|c [|d core]]]]; cbn [length] in Hlen; try lia;
    cbn [forallb] in Hnum;
    repeat match goal with
           | H : _ && _ = true |- _ => apply andb_prop in H as [? H]
           end.
  - destruct (Atoi_numeral a) as (na & Ea & _ & Ia); [assumption|].
    eexists. unfold parse_parts, at_. cbn [length Nat.ltb Nat.leb orb nth].
    rewrite Ea. repeat split. cbn [Major Minor Patch]. now rewrite Ia.
  - destruct (Atoi_numeral a) as (na & Ea & _ & Ia); [assumption|].
    destruct (Atoi_numeral b) as (nb & Eb & _ & Ib); [assumption|].
    eexists. unfold parse_parts, at_. cbn [length Nat.ltb Nat.leb orb nth].
    rewrite Ea, Eb. repeat split. cbn [Major Minor Patch]. now rewrite Ia, Ib.
  - destruct (Atoi_numeral a) as (na & Ea & _ & Ia); [assumption|].
    destruct (Atoi_numeral b) as (nb & Eb & _ & Ib); [assumption|].
    destruct (Atoi_numeral c) as (nc & Ec & _ & Ic); [assumption|].
    eexists. unfold parse_parts, at_. cbn [length Nat.ltb Nat.leb orb nth].
    rewrite Ea, Eb, Ec. repeat split. cbn [Major Minor Patch]. now rewrite Ia, Ib, Ic.
Qed.

Lemma pad3_full core : length core = 3%nat -> pad3 core = core.
Proof. intros H. unfold pad3. rewrite H. cbn [Nat.sub repeat]. apply app_nil_r. Qed.

(** C5 (as amended).  For a canonical version text
    [MAJOR[.MINOR[.PATCH]][-PRERELEASE][+BUILD]] (each number a decimal
    numeral without leading zeros and at most [9223372036854775807],
    the largest [int]; the prerelease without a ['+']), with or without
    a leading ["v"], [Parse] succeeds and [String] prints the same text
    with the missing minor and patch written as [0]; so the round trip
    [String (Parse s) = s] holds whenever all three numbers are written,
    and the ["v"] is never printed back. *)
Theorem String_Parse_canonical (core : list string) (pre build : string) :
  (1 <= length core <= 3)%nat ->
  forallb numeral core = true ->
  has_char "+" pre = false ->
  exists v,
    Parse (version_text core pre build) = Ok v
    /\ Parse ("v" +:+ version_text core pre build) = Ok v
    /\ String_ v = version_text (pad3 core) pre build
    /\ (length core = 3%nat -> String_ v = version_text core pre build).
Proof.
  intros Hlen Hnum Hpre.
  assert (Hne : core <> []) by (destruct core; [cbn in Hlen; lia | congruence]).
  assert (Hhead : exists x r, String.concat "." core = String x r /\ is_digit x = true).
  { destruct core as [|a core]; [congruence|]. cbn [forallb] in Hnum.
    apply andb_prop in Hnum as [Ha _].
    destruct (numeral_head a Ha) as (x & r & -> & Hx).
    destruct core as [|b core]; [eauto|].
    change (String.concat "." (String x r :: b :: core))
      with (String x r +:+ String "." (String.concat "." (b :: core))).
    rewrite string_app_cons. eauto. }
  destruct Hhead as (x & r & HX & Hx).
  pose proof (Parse_text _ x r pre build HX Hx
                (core_no_char "+" core eq_refl eq_refl Hnum)
                (core_no_char "-" core eq_refl eq_refl Hnum) Hpre) as HP.
  rewrite (Split_core core Hne Hnum) in HP.
  destruct (parse_parts_core core (version_text core pre build) pre build Hlen Hnum)
    as (v & Hv & Hp & Hb & Hc).
  exists v. fold (version_text core pre build) in HP.
  assert (HS : String_ v = version_text (pad3 core) pre build).
  { rewrite String_text, Hp, Hb, Hc. reflexivity. }
  repeat split.
  - now rewrite HP.
  - rewrite Parse_v; [now rewrite HP|].
    unfold version_text. rewrite HX, !string_app_cons. now apply TrimPrefix_digit.
  - exact HS.
  - intros H3. now rewrite HS, pad3_full.
Qed.

(** The version text of the specification's example, round-tripped. *)
Lemma String_Parse_canonical_witness :
  exists v,
    Parse "1.2.3-beta.1+build.123" = Ok v
    /\ Parse "v1.2.3-beta.1+build.123" = Ok v
    /\ String_ v = "1.2.3-beta.1+build.123"
    /\ (length ["1"; "2"; "3"] = 3%nat -> String_ v = "1.2.3-beta.1+build.123").
Proof.
  apply (String_Parse_canonical ["1"; "2"; "3"] "beta.1" "build.123");
    [cbn; lia | reflexivity | reflexivity].
Defined.

(** The inputs the specification lists, and one with a ["v"]. *)
Example round_trip_listed :
  List.map (fun s => match Parse s with Ok v => String_ v | Err e => Error e end)
    ["1.2.3"; "1.2.3-alpha"; "1.2.3+build"; "1.2.3-beta.1+build.123"; "2"; "2.1"; "v1.2.3"]
  = ["1.2.3"; "1.2.3-alpha"; "1.2.3+build"; "1.2.3-beta.1+build.123"; "2.0.0"; "2.1.0";
     "1.2.3"].
Proof. vm_compute. reflexivity. Qed.

(** The numbers are Go [int]s: the largest is read, the next one is
    refused. *)
Example Parse_refuses_beyond_int :
  Parse "9223372036854775807.0.0"
  = Ok {| Major := 9223372036854775807; Minor := 0; Patch := 0; Prerelease := ""; Build := "" |}
  /\ Parse "9223372036854775808.0.0"
     = Err (Errorf "invalid major version: 9223372036854775808").
Proof. split; vm_compute; reflexivity. Qed.

(** C5 as stated fails on the inputs with fewer than three numbers:
    ["2"] parses, and is printed back as ["2.0.0"]. *)
Lemma round_trip_fails_major_only :
  ~ (exists v, Parse "2" = Ok v /\ String_ v = "2").
Proof.
  intros (v & Hv & Hs). vm_compute in Hv. injection Hv as <-.
  vm_compute in Hs. discriminate Hs.
Qed.

End SemverRoundTrip.

(** ** semver: Compare *)

Section SemverOrder.
Import semver.

Lemma String_compare_lex a : forall b, String.compare a b = lex_compare a b.
Proof. intros b. reflexivity. Qed.

(** Go's [!=] and [<] on strings against the written-out order. *)
Lemma string_order_sign p q :
  (if negb (String.eqb p q) then (if String.ltb p q then -1 else 1) else 0)
  = sign (lex_compare p q).
Proof.
  rewrite <- String_compare_lex. unfold String.ltb.
  destruct (String.eqb_spec p q) as [->|Hne]; cbn [negb].
  - assert (E : String.compare q q = Eq).
    { induction q as [|x q IH]; [reflexivity|]. cbn [String.compare].
      unfold Ascii.compare. now rewrite N.compare_refl. }
    now rewrite E.
  - destruct (String.compare p q) eqn:E; try reflexivity.
    apply String.compare_eq_iff in E. contradiction.
Qed.

Lemma Compare_sign a b : Compare a b = sign (precedence a b).
Proof.
  unfold Compare, precedence.
  destruct (Z.compare_spec (Major a) (Major b)) as [HM|HM|HM];
    destruct (Z.eqb_spec (Major a) (Major b)), (Z.ltb_spec (Major a) (Major b));
    cbn [negb sign]; try lia; try reflexivity.
  destruct (Z.compare_spec (Minor a) (Minor b)) as [Hm|Hm|Hm];
    destruct (Z.eqb_spec (Minor a) (Minor b)), (Z.ltb_spec (Minor a) (Minor b));
    cbn [negb sign]; try lia; try reflexivity.
  destruct (Z.compare_spec (Patch a) (Patch b)) as [Hp|Hp|Hp];
    destruct (Z.eqb_spec (Patch a) (Patch b)), (Z.ltb_spec (Patch a) (Patch b));
    cbn [negb sign]; try lia; try reflexivity.
  destruct (Prerelease a) as [|x pa], (Prerelease b) as [|y pb]; try reflexivity.
  change (String.eqb (String x pa) "") with false.
  change (String.eqb (String y pb) "") with false.
  cbn [negb andb]. apply string_order_sign.
Qed.

(** C6.  [Compare] is the sign of the specified precedence (major, minor,
    patch numerically; then release above prerelease; then the prerelease
    tags as byte strings), so it is one of -1, 0, 1; the build metadata
    of either side does not change it; and the five predicates read
    their answer off that precedence. *)
Theorem Compare_precedence (a b : Version) :
  Compare a b = sign (precedence a b)
  /\ (Compare a b = -1 \/ Compare a b = 0 \/ Compare a b = 1)
  /\ (forall x y, Compare (with_build a x) (with_build b y) = Compare a b)
  /\ (LessThan a b = true <-> precedence a b = Lt)
  /\ (GreaterThan a b = true <-> precedence a b = Gt)
  /\ (Equal a b = true <-> precedence a b = Eq)
  /\ (GreaterThanOrEqual a b = true <-> precedence a b <> Lt)
  /\ (LessThanOrEqual a b = true <-> precedence a b <> Gt).
Proof.
  split; [apply Compare_sign|].
  split; [rewrite Compare_sign; destruct (precedence a b); cbn; auto|].
  split; [reflexivity|].
  unfold LessThan, GreaterThan, Equal, GreaterThanOrEqual, LessThanOrEqual.
  rewrite Compare_sign.
  destruct (precedence a b); cbn; repeat split; intros; congruence.
Qed.

(** The orderings the specification lists. *)
Example ordering_listed :
  List.map (fun p => match Parse (fst p), Parse (snd p) with
                     | Ok a, Ok b => Some (Compare a b)
                     | _, _ => None
                     end)
    [("1.2.3", "1.3.0"); ("1.3.0", "2.0.0"); ("1.2.3", "1.2.3-alpha");
     ("1.2.3-alpha", "1.2.3-beta"); ("1.2.3+a", "1.2.3+b")]
  = [Some (-1); Some (-1); Some 1; Some (-1); Some 0].
Proof. vm_compute. reflexivity. Qed.

End SemverOrder.

(** ** Go maps: copies and mutation *)

Section MapCopies.
Import version.
Context {V : Type}.
Implicit Types (h : gmap loc (gmap string V)) (r : mapref).

Lemma entries_insert_eq h l m : entries (<[l := m]> h) (Some l) = m.
Proof. unfold entries. now rewrite lookup_insert_eq. Qed.

Lemma entries_insert_ne h l m r : r ≠ Some l -> entries (<[l := m]> h) r = entries h r.
Proof.
  intros Hne. destruct r as [l'|]; [|reflexivity]. unfold entries.
  rewrite lookup_insert_ne; [reflexivity | congruence].
Qed.

(** The loop of a copy ends with the source's entries in the new map. *)
Lemma copy_map_eq h src :
  copy_map h src = (fresh (dom h), <[fresh (dom h) := entries h (Some src)]> h).
Proof.
  unfold copy_map, make_map. f_equal.
  set (c := fresh (dom h)).
  apply (map_fold_weak_ind
           (fun acc (m : gmap string V) => acc = <[c := m]> h)
           (fun k v h' => assign h' c k v)).
  - reflexivity.
  - intros k v m acc _ ->. unfold assign.
    now rewrite entries_insert_eq, insert_insert_eq.
Qed.

Lemma fresh_not_allocated h : fresh (dom h) ∉ dom h.
Proof. apply is_fresh. Qed.

Lemma copy_if_set_spec h r r' h' :
  copy_if_set h r = (r', h') ->
  (r' = None <-> r = None)
  /\ entries h' r' = entries h r
  /\ (forall l, l ∈ dom h -> r' ≠ Some l /\ h' !! l = h !! l)
  /\ dom h ⊆ dom h'
  /\ (forall l, r' = Some l -> l ∈ dom h').
Proof.
  destruct r as [src|]; cbn [copy_if_set].
  - rewrite copy_map_eq. intros [= <- <-].
    pose proof (fresh_not_allocated h) as Hf.
    repeat split; try congruence.
    + apply entries_insert_eq.
    + apply lookup_insert_ne. congruence.
    + rewrite dom_insert. set_solver.
    + intros l [= <-]. rewrite dom_insert. set_solver.
  - intros [= <- <-]. repeat split; try congruence; try discriminate. 
Qed.

(** A caller's operations on the map [r] leave every other map alone. *)
Lemma mutate_frame ops : forall h r h',
  mutate h r ops = Some h' ->
  (forall l, r ≠ Some l -> h' !! l = h !! l).
Proof.
  induction ops as [|o ops IH]; intros h r h'; cbn [mutate].
  - now intros [= <-].
  - destruct (apply_op h r o) as [h1|] eqn:E; [|discriminate].
    intros Hm l Hl. rewrite (IH _ _ _ Hm l Hl).
    destruct o as [k v|k], r as [lr|]; cbn [apply_op] in E; try discriminate;
      injection E as <-; try reflexivity;
      unfold assign; apply lookup_insert_ne; congruence.
Qed.

Lemma entries_frame h h' r :
  (forall l, r = Some l -> h' !! l = h !! l) -> entries h' r = entries h r.
Proof.
  intros H. destruct r as [l|]; [|reflexivity]. unfold entries. now rewrite (H l eq_refl).
Qed.

End MapCopies.

Section CopyOut.
Import version.









(** The copy is of the map, not of what its values refer to: a value
    of the custom map that is a nested mapping is the same reference in
    the copy. *)
Remark nested_mapping_is_shared (o : loc) :
  let h : gmap loc (gmap string any) := {[ 1%positive := {[ "features" := AMap o ]} ]} in
  entries (snd (copy_map h 1%positive)) (Some (fst (copy_map h 1%positive))) !! "features"
  = Some (AMap o).
Proof.
  intros h. rewrite copy_map_eq. cbn [fst snd]. rewrite entries_insert_eq.
  unfold entries, h. rewrite lookup_singleton_eq. cbn [default].
  apply lookup_singleton_eq.
Qed.

Lemma nested_allocated : allocated nested_store nested_info.
Proof.
  intros [] l; cbn [field_of nested_info schemas apis components custom];
    intros [= <-]. cbn [maps_of nested_store amaps].
  apply elem_of_dom. eexists. vm_compute. reflexivity.
Qed.


(** So no statement of C1 that follows the returned map into the
    mappings it holds stands for [GetCustom]. *)
Remark GetCustom_copy_is_shallow :
  ~ (forall (i : Info) (st st1 st2 st3 : Store) (r1 r2 : mapref) (k k' : string) (v : any),
       allocated st i ->
       GetCustom i st = (r1, st1) ->
       assign_nested st1 r1 k k' v = Some st2 ->
       GetCustom i st2 = (r2, st3) ->
       index_nested st2 (custom i) k k' = index_nested st (custom i) k k'
       /\ index_nested st3 r2 k k' = index_nested st (custom i) k k').
Proof.
  intros H.
  destruct (GetCustom nested_info nested_store) as [r1 st1] eqn:G1.
  destruct (assign_nested st1 r1 "features" "beta" (ABool true)) as [st2|] eqn:A.
  2: { vm_compute in G1. injection G1 as <- <-. vm_compute in A. discriminate A. }
  destruct (GetCustom nested_info st2) as [r2 st3] eqn:G2.
  destruct (H _ _ _ _ _ _ _ _ _ _ nested_allocated G1 A G2) as [E _].
  vm_compute in G1. injection G1 as <- <-. vm_compute in A. injection A as <-.
  vm_compute in E. discriminate E.
Qed.

(** ** Absent sections *)

(** C10.  For the [Info] built from a manifest, a dimension whose section
    is absent (a nil map in the manifest) is nil in the [Info]: its
    per-item getter answers [("", false)] for every name, and its map
    getter returns nil, in whatever store they are called. *)
Theorem absent_sections_nil (env : Env) (m : Manifest) (st st' : Store) (i : Info) :
  manifestToInfo env m st = (i, st') ->
  (Schemas m = None ->
     (forall st0 name, GetSchemaVersion i st0 name = ("", false))
     /\ (forall st0, GetSchemas i st0 = (None, st0)))
  /\ (APIs m = None ->
     (forall st0 name, GetAPIVersion i st0 name = ("", false))
     /\ (forall st0, GetAPIs i st0 = (None, st0)))
  /\ (Components m = None ->
     (forall st0 name, GetComponentVersion i st0 name = ("", false))
     /\ (forall st0, GetComponents i st0 = (None, st0)))
  /\ (Custom m = None -> forall st0, GetCustom i st0 = (None, st0)).
Proof.
  unfold manifestToInfo.
  destruct (copy_if_set (smaps st) (Schemas m)) as [s h1] eqn:Cs.
  destruct (copy_if_set h1 (APIs m)) as [a h2] eqn:Ca.
  destruct (copy_if_set h2 (Components m)) as [c h3] eqn:Cc.
  destruct (copy_if_set (amaps st) (Custom m)) as [u g1] eqn:Cu.
  intros [= <- <-].
  unfold GetSchemaVersion, GetAPIVersion, GetComponentVersion,
    GetSchemas, GetAPIs, GetComponents, GetCustom.
  cbn [schemas apis components custom].
  repeat split; intros;
    match goal with
    | H : ?f m = None, C : copy_if_set _ (?f m) = _ |- _ =>
        rewrite H in C; cbn [copy_if_set] in C; injection C as <- <-
    end; reflexivity.
Qed.

(** The manifest used when no file is found has no section at all. *)
Lemma absent_sections_nil_witness :
  let i := fst (manifestToInfo (fixture_env ∅) defaultManifest empty_store) in
  GetSchemaVersion i fixture_store "db" = ("", false)
  /\ GetSchemas i fixture_store = (None, fixture_store)
  /\ GetCustom i fixture_store = (None, fixture_store).
Proof.
  intros i.
  destruct (absent_sections_nil (fixture_env ∅) defaultManifest empty_store _ i
              (surjective_pairing _)) as (Hs & _ & _ & Hc).
  destruct (Hs eq_refl) as [Hv Hm].
  split; [apply Hv | split; [apply Hm | apply Hc; reflexivity]].
Defined.

(** A section that is there but empty is a map, not nil. *)
Remark empty_section_not_nil :
  fst (copy_if_set (V:=string) {[ 1%positive := ∅ ]} (Some 1%positive)) <> None.
Proof. cbn [copy_if_set]. rewrite copy_map_eq. discriminate. Qed.

End CopyOut.

(** ** The loader *)

Section Loader.
Import version.

Lemma nonempty_length (s : string) :
  (0 <? String.length s)%nat = negb (String.eqb s "").
Proof. destruct s; reflexivity. Qed.

Lemma loadManifest_cases env options st :
  loadManifest env options st =
    if negb (String.eqb (manifestEmbed options) "") then
      (parseManifest env (manifestEmbed options) st, [])
    else if negb (String.eqb (manifestPath options) "") then
      (match ReadFile env (manifestPath options) with
       | Ok data => parseManifest env data st
       | Err e => Err e
       end, [manifestPath options])
    else (Err ErrNotExist, []).
Proof.
  unfold loadManifest. rewrite nonempty_length.
  destruct (negb (String.eqb (manifestEmbed options) "")); [reflexivity|].
  destruct (negb (String.eqb (manifestPath options) "")); [|reflexivity].
  destruct (ReadFile env (manifestPath options)); reflexivity.
Qed.

Lemma parseManifest_decoder env env' data st :
  yaml_Unmarshal env' = yaml_Unmarshal env ->
  parseManifest env' data st = parseManifest env data st.
Proof. intros H. unfold parseManifest. now rewrite H. Qed.

(** [parseManifest] by what the decoder reads. *)
Lemma parseManifest_Ok env data st m' st' :
  parseManifest env data st = Ok (m', st') <-> holds_content env data st m' st'.
Proof.
  unfold parseManifest, holds_content. split.
  - destruct (yaml_Unmarshal env data st) as [[m st0]|err]; [|discriminate].
    destruct (String.eqb_spec (MManifestVersion m) "") as [Hv|Hv];
      cbn [MProject MName MVersion];
      (destruct (String.eqb_spec (MName (MProject m)) "") as [Hn|Hn]; [discriminate|]);
      (destruct (String.eqb_spec (MVersion (MProject m)) "") as [Hp|Hp]; [discriminate|]);
      intros [= <- <-]; exists m; cbn; repeat split; auto.
    + now rewrite Hv.
    + apply String.eqb_neq in Hv. now rewrite Hv.
  - intros (m & -> & Hn & Hp & E1 & E2 & E3 & E4 & E5 & E6).
    assert (Hm : m' = if String.eqb (MManifestVersion m) ""
                      then {| MManifestVersion := ManifestVersion; MProject := MProject m;
                              Schemas := Schemas m; APIs := APIs m;
                              Components := Components m; Custom := Custom m |}
                      else m).
    { destruct m', m. cbn in *. subst.
      destruct (String.eqb MManifestVersion1 ""); reflexivity. }
    rewrite <- Hm.
    assert (HP : MProject m' = MProject m) by exact E1.
    rewrite HP.
    apply String.eqb_neq in Hn, Hp. now rewrite Hn, Hp.
Qed.

Lemma parseManifest_Err env data st e :
  parseManifest env data st = Err e <-> refused env data st e.
Proof.
  unfold parseManifest, refused. split.
  - destruct (yaml_Unmarshal env data st) as [[m st0]|err].
    + assert (HP : forall x : Manifest,
                 MProject (if String.eqb (MManifestVersion m) ""
                           then {| MManifestVersion := ManifestVersion; MProject := MProject m;
                                   Schemas := Schemas m; APIs := APIs m;
                                   Components := Components m; Custom := Custom m |}
                           else m) = MProject m)
        by (intros _; destruct (String.eqb (MManifestVersion m) ""); reflexivity).
      rewrite (HP m).
      destruct (String.eqb_spec (MName (MProject m)) "") as [Hn|Hn].
      * intros [= <-]. right. left. eauto.
      * destruct (String.eqb_spec (MVersion (MProject m)) "") as [Hp|Hp]; [|discriminate].
        intros [= <-]. right. right. exists m, st0. auto.
    + intros [= <-]. left. eauto.
  - intros [(err & -> & ->) | [(m & st0 & -> & Hn & ->) | (m & st0 & -> & Hn & Hp & ->)]].
    + reflexivity.
    + assert (HP : MProject (if String.eqb (MManifestVersion m) ""
                           then {| MManifestVersion := ManifestVersion; MProject := MProject m;
                                   Schemas := Schemas m; APIs := APIs m;
                                   Components := Components m; Custom := Custom m |}
                           else m) = MProject m)
        by (destruct (String.eqb (MManifestVersion m) ""); reflexivity).
      rewrite HP, Hn. reflexivity.
    + assert (HP : MProject (if String.eqb (MManifestVersion m) ""
                           then {| MManifestVersion := ManifestVersion; MProject := MProject m;
                                   Schemas := Schemas m; APIs := APIs m;
                                   Components := Components m; Custom := Custom m |}
                           else m) = MProject m)
        by (destruct (String.eqb (MManifestVersion m) ""); reflexivity).
      rewrite HP, Hp. apply String.eqb_neq in Hn. now rewrite Hn.
Qed.

Lemma Errorf_not_IsNotExist f args : os.IsNotExist (fmt.Errorf f args) = false.
Proof. unfold fmt.Errorf. destruct (fmt.format f args) as [msg [e|]]; reflexivity. Qed.

(** An error of the parser is never of the not-found kind. *)
Lemma parseManifest_not_IsNotExist env data st e :
  parseManifest env data st = Err e -> os.IsNotExist e = false.
Proof.
  unfold parseManifest.
  destruct (yaml_Unmarshal env data st) as [[m st']|err].
  - destruct (String.eqb (MName (MProject _)) ""); [intros [= <-]; apply Errorf_not_IsNotExist|].
    destruct (String.eqb (MVersion (MProject _)) ""); [intros [= <-]; apply Errorf_not_IsNotExist|].
    discriminate.
  - intros [= <-]. apply Errorf_not_IsNotExist.
Qed.

(** C3.  When the embedded bytes are not empty, [loadManifest] reads no
    file and returns what these bytes hold: the manifest the YAML
    decoder reads from them (with the manifest version defaulted), or
    the error that refuses them, which is never of the not-found kind;
    the result is the same for any file system and any configured path.
    When they are empty and a path is set, that file is read, once: a
    read error is returned as it is, and otherwise the result is what
    the file's bytes hold.  With neither, the error is [os.ErrNotExist],
    of the not-found kind, and nothing is read. *)
Theorem loadManifest_precedence (env : Env) (options : LoadOptions) (st : Store) :
  (manifestEmbed options <> "" ->
     snd (loadManifest env options st) = []
     /\ (forall m st', fst (loadManifest env options st) = Ok (m, st')
                       <-> holds_content env (manifestEmbed options) st m st')
     /\ (forall e, fst (loadManifest env options st) = Err e
                   <-> refused env (manifestEmbed options) st e)
     /\ (forall e, fst (loadManifest env options st) = Err e -> os.IsNotExist e = false)
     /\ (forall env' options',
           yaml_Unmarshal env' = yaml_Unmarshal env ->
           manifestEmbed options' = manifestEmbed options ->
           loadManifest env' options' st = loadManifest env options st))
  /\ (manifestEmbed options = "" -> manifestPath options <> "" ->
     snd (loadManifest env options st) = [manifestPath options]
     /\ (forall e, ReadFile env (manifestPath options) = Err e ->
           fst (loadManifest env options st) = Err e)
     /\ (forall data, ReadFile env (manifestPath options) = Ok data ->
           (forall m st', fst (loadManifest env options st) = Ok (m, st')
                          <-> holds_content env data st m st')
           /\ (forall e, fst (loadManifest env options st) = Err e
                         <-> refused env data st e)))
  /\ (manifestEmbed options = "" -> manifestPath options = "" ->
     loadManifest env options st = (Err ErrNotExist, [])
     /\ os.IsNotExist ErrNotExist = true).
Proof.
  split; [|split].
  - intros Hne. apply String.eqb_neq in Hne.
    assert (HL : loadManifest env options st = (parseManifest env (manifestEmbed options) st, []))
      by (rewrite loadManifest_cases; now rewrite Hne).
    rewrite HL. cbn [fst snd].
    split; [reflexivity|].
    split; [intros m st'; apply parseManifest_Ok|].
    split; [intros e; apply parseManifest_Err|].
    split; [intros e; apply parseManifest_not_IsNotExist|].
    intros env' options' Hdec Hemb. rewrite loadManifest_cases, Hemb, Hne. cbn [negb].
    now rewrite (parseManifest_decoder env env' _ _ Hdec).
  - intros Hemb Hpath. rewrite loadManifest_cases, Hemb.
    apply String.eqb_neq in Hpath. rewrite Hpath. cbn [String.eqb negb fst snd].
    split; [reflexivity|].
    split.
    + intros e ->. reflexivity.
    + intros data ->. split; [intros m st'; apply parseManifest_Ok|intros e; apply parseManifest_Err].
  - intros Hemb Hpath. rewrite loadManifest_cases, Hemb, Hpath. split; reflexivity.
Qed.

(** Embedded bytes win over a file that is there and says otherwise:
    the file has no project name and would be refused; the manifest
    loaded is the embedded one, with its project and its schema. *)
Lemma loadManifest_precedence_witness :
  let env := fixture_env {[ "versions.yaml" := FileData doc_nameless ]} in
  let options := WithEmbedded doc_schemas defaultLoadOptions in
  manifestPath options = "versions.yaml"
  /\ snd (loadManifest env options empty_store) = []
  /\ (exists m st',
        fst (loadManifest env options empty_store) = Ok (m, st')
        /\ MName (MProject m) = "svc" /\ MVersion (MProject m) = "1.2.3"
        /\ entries (smaps st') (Schemas m) = {[ "db" := "47" ]})
  /\ fst (loadManifest env defaultLoadOptions empty_store)
     = Err (newCategoryErrorWithHint CategoryManifest ErrMsgProjectNameRequired
              ErrHintProjectNameRequired).
Proof.
  intros env options. split; [reflexivity|].
  destruct (loadManifest_precedence env options empty_store) as [He _].
  destruct He as (Hrd & Hok & _); [discriminate|].
  split; [exact Hrd|].
  split.
  - destruct (fst (loadManifest env options empty_store)) as [[m st']|e] eqn:Hr;
      [|vm_compute in Hr; discriminate Hr].
    exists m, st'. split; [reflexivity|].
    destruct (proj1 (Hok m st') eq_refl) as (m0 & Hdec & _ & _ & HP & HS & _).
    vm_compute in Hdec. injection Hdec as <- <-.
    rewrite HP, HS. split; [reflexivity|]. split; [reflexivity|].
    vm_compute. reflexivity.
  - destruct (loadManifest_precedence env defaultLoadOptions empty_store) as (_ & Hf & _).
    destruct Hf as (_ & _ & Hdata); [reflexivity | discriminate |].
    destruct (Hdata doc_nameless eq_refl) as [_ Herr]. apply Herr.
    right. left. eexists _, _. split; [reflexivity|]. split; reflexivity.
Defined.

(** [loadVersionInfo] by its stages. *)
Lemma loadVersionInfo_stages env opts w :
  loadVersionInfo env opts w =
    let options := applyOptions opts in
    match manifest_stage env options (store w) with
    | (Err err, rd) => (Err err, after_load w (store w) rd (effects w))
    | (Ok (m, st), rd) =>
        let (info, st') := snapshot env options m st in
        match runValidators (validators options) (context_of options) info st' (effects w) with
        | (Some err, _, st'', eff) => (Err err, after_load w st'' rd eff)
        | (None, info', st'', eff) =>
            (Ok (length (infos w)),
             {| store := st''; infos := infos w ++ [info']; reads := reads w ++ rd;
                effects := eff; runs := S (runs w) |})
        end
    end.
Proof.
  unfold loadVersionInfo, manifest_stage, snapshot, after_load, context_of. cbv zeta.
  cbn [store infos reads effects runs].
  destruct (loadManifest env (applyOptions opts) (store w)) as [[[m st]|err] rd].
  - destruct (manifestToInfo env m st) as [info st'].
    destruct (runValidators _ _ _ _ _) as [[[[e|] info'] st''] eff]; reflexivity.
  - destruct (strictMode (applyOptions opts)).
    + destruct (os.IsNotExist err); reflexivity.
    + destruct (os.IsNotExist err); cbn [negb]; [|reflexivity].
      destruct (manifestToInfo env defaultManifest (store w)) as [info st'].
      destruct (runValidators _ _ _ _ _) as [[[[e|] info'] st''] eff]; reflexivity.
Qed.

Lemma source_missing_loadManifest env options st :
  source_missing env options ->
  exists e rd, loadManifest env options st = (Err e, rd) /\ os.IsNotExist e = true.
Proof.
  intros [Hemb Hpath]. rewrite loadManifest_cases, Hemb. cbn [String.eqb negb].
  destruct (String.eqb_spec (manifestPath options) "") as [_|Hne]; cbn [negb].
  - exists ErrNotExist, []. split; reflexivity.
  - destruct Hpath as [Hp|(e & Hr & He)]; [contradiction|].
    rewrite Hr. eauto.
Qed.

Lemma source_bytes_loadManifest env options st data :
  source_bytes env options = Some data ->
  exists rd, loadManifest env options st = (parseManifest env data st, rd).
Proof.
  unfold source_bytes. rewrite loadManifest_cases.
  destruct (negb (String.eqb (manifestEmbed options) "")); [intros [= <-]; eauto|].
  destruct (negb (String.eqb (manifestPath options) "")); [|discriminate].
  destruct (ReadFile env (manifestPath options)); [intros [= <-]; eauto | discriminate].
Qed.

(** Enrichment and the time stamp leave the project and the maps as
    [manifestToInfo] set them. *)
Lemma snapshot_fields env options m st info st' :
  snapshot env options m st = (info, st') ->
  Project info = {| Name := MName (MProject m); Version := MVersion (MProject m) |}
  /\ (forall d, field_of d info = field_of d (fst (manifestToInfo env m st)))
  /\ st' = snd (manifestToInfo env m st).
Proof.
  unfold snapshot. destruct (manifestToInfo env m st) as [i0 st0] eqn:E.
  intros [= <- <-]. cbn [fst snd].
  assert (HP : Project i0 = {| Name := MName (MProject m); Version := MVersion (MProject m) |}).
  { unfold manifestToInfo in E. repeat destruct (copy_if_set _ _) in E.
    injection E as <- _. reflexivity. }
  split; [|split; [|reflexivity]].
  - destruct (includeGit options), (includeBuild options); exact HP.
  - intros d. destruct (includeGit options), (includeBuild options), d; reflexivity.
Qed.

Lemma manifestToInfo_default env st :
  manifestToInfo env defaultManifest st =
    ({| Project := {| Name := DefaultProjectName; Version := DefaultProjectVersion |};
        Git := {| Commit := DefaultGitCommit; Tag := ""; TreeState := DefaultGitTreeState;
                  CommitTime := "" |};
        Build := {| BuildInfo_Time := DefaultBuildTime; User := "";
                    GoVersion := runtime_Version env |};
        schemas := None; apis := None; components := None; custom := None; loadedAt := 0 |},
     st).
Proof. unfold manifestToInfo. cbn. destruct st. reflexivity. Qed.

End Loader.

(** ** The built-in validators *)

Section Validators.
Import version.

Lemma getter_lookup_item b item minimum info st :
  getterFunc (builtin_validator b item minimum) info st item =
    match lookup_item b info st item with
    | Some v => (v, true)
    | None => ("", false)
    end.
Proof.
  unfold lookup_item.
  destruct b; cbn [builtin_validator NewSchemaValidator NewAPIValidator
                     NewComponentValidator getterFunc builtin_field];
    unfold GetSchemaVersion, GetAPIVersion, GetComponentVersion, index_string;
    match goal with |- context [match ?f with Some _ => _ | None => _ end] => destruct f end;
    reflexivity.
Qed.

Lemma not_found_render b item minimum :
  fmt.Errorf (errNotFoundFmt (builtin_validator b item minimum) +:+ nl +:+ "Hint: %s")
    [fmt.Str item;
     fmt.Str (if String.eqb (dimensionType (builtin_validator b item minimum)) "schema"
              then ErrHintSchemaNotFound
              else if String.eqb (dimensionType (builtin_validator b item minimum)) "API"
                   then ErrHintAPINotFound
                   else if String.eqb (dimensionType (builtin_validator b item minimum))
                             "component"
                        then ErrHintComponentNotFound else "")]
  = not_found_error b item.
Proof. destruct b; reflexivity. Qed.

Lemma invalid_version_render b item minimum actual cause :
  fmt.Errorf (errInvalidFmt (builtin_validator b item minimum))
    [fmt.Str actual; fmt.Str item; fmt.Err_ cause]
  = invalid_version_error b item actual cause.
Proof.
  unfold invalid_version_error. rewrite <- (string_app_nil_r (Error cause)).
  destruct b; reflexivity.
Qed.

Lemma invalid_minimum_render minimum cause :
  fmt.Errorf ErrFmtInvalidMinVersion [fmt.Str minimum; fmt.Err_ cause]
  = invalid_minimum_error minimum cause.
Proof.
  unfold invalid_minimum_error. rewrite <- (string_app_nil_r (Error cause)). reflexivity.
Qed.

Lemma too_old_render b item minimum actual :
  fmt.Errorf (errTooOldFmt (builtin_validator b item minimum) +:+ nl +:+ "Hint: %s")
    [fmt.Str item; fmt.Str actual; fmt.Str minimum; fmt.Str ErrHintVersionTooOld]
  = too_old_error b item actual minimum.
Proof. destruct b; reflexivity. Qed.

Lemma Validate_expected b item minimum c info st :
  genericVersionValidator_Validate (builtin_validator b item minimum) c info st
  = expected_verdict b item minimum (lookup_item b info st item).
Proof.
  unfold genericVersionValidator_Validate, expected_verdict.
  assert (Hn : name (builtin_validator b item minimum) = item) by (destruct b; reflexivity).
  assert (Hm : minVersion (builtin_validator b item minimum) = minimum)
    by (destruct b; reflexivity).
  rewrite Hn, Hm, getter_lookup_item.
  destruct (lookup_item b info st item) as [actual|]; cbn [negb].
  - destruct (semver.Parse actual) as [a|cause]; [|now rewrite invalid_version_render].
    destruct (semver.Parse minimum) as [m|cause]; [|now rewrite invalid_minimum_render].
    destruct (semver.LessThan a m); [now rewrite too_old_render | reflexivity].
  - now rewrite not_found_render.
Qed.

(** The text of "not found" and the text of "too old" part ways right
    after the item's name. *)
Lemma not_found_not_too_old b item actual minimum :
  not_found_error b item <> too_old_error b item actual minimum.
Proof.
  unfold not_found_error, too_old_error. intros [= E].
  do 3 apply (inj (String.app _)) in E. discriminate E.
Qed.

(** C7.  A built-in validator for the item [item] with minimum [minimum],
    run on an [Info], answers as specified from the item's entry in its
    dimension map: "not found", naming the item, when there is no entry;
    an invalid-version failure, wrapping the parse error, when the entry
    or the minimum does not parse; "too old", carrying item, actual and
    minimum, exactly when both parse and the actual is less than the
    minimum; and no error exactly when both parse and it is not less.
    The "too old" error is none of the other three. *)
Theorem builtin_validator_verdict (b : BuiltinDim) (item minimum : string) (c : Context)
    (info : Info) (st : Store) :
  let verdict := genericVersionValidator_Validate (builtin_validator b item minimum) c info st in
  let found := lookup_item b info st item in
  verdict = expected_verdict b item minimum found
  /\ (found = None -> verdict = Some (not_found_error b item))
  /\ (forall actual cause,
        found = Some actual -> semver.Parse actual = Err cause ->
        verdict = Some (invalid_version_error b item actual cause))
  /\ (forall actual a cause,
        found = Some actual -> semver.Parse actual = Ok a -> semver.Parse minimum = Err cause ->
        verdict = Some (invalid_minimum_error minimum cause))
  /\ (forall actual,
        found = Some actual ->
        (verdict = Some (too_old_error b item actual minimum) <->
         exists a m, semver.Parse actual = Ok a /\ semver.Parse minimum = Ok m
                     /\ semver.LessThan a m = true))
  /\ (found = None -> forall actual, verdict <> Some (too_old_error b item actual minimum))
  /\ (verdict = None <->
       exists actual a m, found = Some actual /\ semver.Parse actual = Ok a
                          /\ semver.Parse minimum = Ok m /\ semver.LessThan a m = false)
  /\ (forall actual actual' cause,
        too_old_error b item actual minimum <> not_found_error b item
        /\ too_old_error b item actual minimum <> invalid_version_error b item actual' cause
        /\ too_old_error b item actual minimum <> invalid_minimum_error minimum cause).
Proof.
  intros verdict found.
  assert (HV : verdict = expected_verdict b item minimum found) by apply Validate_expected.
  split; [exact HV|]. rewrite HV. clear HV verdict. unfold expected_verdict.
  split; [now intros ->|].
  split; [now intros actual cause -> ->|].
  split; [now intros actual a cause -> -> ->|].
  split; [|split; [|split]].
  - intros actual ->.
    destruct (semver.Parse actual) as [a|ca].
    + destruct (semver.Parse minimum) as [m|cm].
      * destruct (semver.LessThan a m) eqn:L.
        -- split; [eauto | reflexivity].
        -- split; [discriminate|]. intros (a' & m' & [= <-] & [= <-] & L'). congruence.
      * split; [discriminate|]. intros (a' & m' & _ & Hm & _). discriminate Hm.
    + split; [discriminate|]. intros (a' & m' & Ha & _). discriminate Ha.
  - intros -> actual E. apply (not_found_not_too_old b item actual minimum). congruence.
  - destruct found as [actual|].
    + destruct (semver.Parse actual) as [a|ca] eqn:Pa.
      * destruct (semver.Parse minimum) as [m|cm] eqn:Pm.
        -- destruct (semver.LessThan a m) eqn:L.
           ++ split; [discriminate|].
              intros (x & a' & m' & [= <-] & Ha & Hm & L').
              rewrite Pa in Ha. injection Ha as <-. congruence.
           ++ split; [eauto 10|reflexivity].
        -- split; [discriminate|]. intros (x & a' & m' & _ & _ & Hm & _). discriminate Hm.
      * split; [discriminate|]. intros (x & a' & m' & [= <-] & Ha & _). congruence.
    + split; [discriminate|]. intros (x & a' & m' & Hx & _). discriminate Hx.
  - intros actual actual' cause. split; [|split; discriminate].
    intros E. apply (not_found_not_too_old b item actual minimum). congruence.
Qed.

(** The end-to-end scenarios of the specification on the [Info] with
    schemas [{db: 47}]: minimum 45, minimum 50, and an item that is not
    there; and an entry that is not a version. *)
Example builtin_validator_scenarios :
  let run := fun item minimum =>
    genericVersionValidator_Validate (NewSchemaValidator item minimum) Background
      fixture_info fixture_store in
  run "db" "45" = None
  /\ run "db" "50" = Some (too_old_error BSchema "db" "47" "50")
  /\ run "missing_db" "1" = Some (not_found_error BSchema "missing_db")
  /\ run "db" "x" =
       Some (invalid_minimum_error "x" (fmt.Errorf "invalid major version: %s" [fmt.Str "x"])).
Proof. vm_compute. repeat split. Qed.

(** The schema [db] at 47 against a minimum of 50, and an item that is
    not in the manifest. *)
Lemma builtin_validator_verdict_witness :
  genericVersionValidator_Validate (NewSchemaValidator "db" "50") Background
    fixture_info fixture_store
  = Some (too_old_error BSchema "db" "47" "50")
  /\ genericVersionValidator_Validate (NewSchemaValidator "missing_db" "1") Background
       fixture_info fixture_store
     = Some (not_found_error BSchema "missing_db").
Proof.
  split.
  - destruct (builtin_validator_verdict BSchema "db" "50" Background fixture_info fixture_store)
      as (_ & _ & _ & _ & H & _).
    apply (H "47"); [vm_compute; reflexivity|].
    eexists _, _. split; [vm_compute; reflexivity|]. split; vm_compute; reflexivity.
  - destruct (builtin_validator_verdict BSchema "missing_db" "1" Background
                fixture_info fixture_store) as (_ & H & _).
    apply H. vm_compute. reflexivity.
Defined.

Lemma runValidators_app vs1 : forall vs2 c info st eff,
  runValidators (vs1 ++ vs2) c info st eff =
    match runValidators vs1 c info st eff with
    | (Some err, info', st', eff') => (Some err, info', st', eff')
    | (None, info', st', eff') => runValidators vs2 c info' st' eff'
    end.
Proof.
  induction vs1 as [|v vs1 IH]; intros vs2 c info st eff; [reflexivity|].
  cbn [app runValidators].
  destruct (Validate v c info st eff) as [[[[err|] info'] st'] eff']; [reflexivity|].
  apply IH.
Qed.

(** C8.  Let the configured validators be [pre ++ v :: post], let those
    of [pre], run in order on the snapshot, all accept, and let [v],
    run on what they left, then fail with [err].  The loop ends there
    with [err] wrapped as a validation failure, and so does the load:
    the store and the effects are those left by [pre] and [v], whatever
    [post] holds, no [Info] is returned, and none is allocated. *)
Theorem validators_fail_fast (env : Env) (opts : list Option) (w : World)
    (pre post : list Validator) (v : Validator) (m : Manifest) (st1 st2 : Store)
    (rd : list string) (info info_k info' : Info) (st_k st' : Store)
    (eff_k eff' : list string) (err : error) :
  let options := applyOptions opts in
  validators options = (pre ++ v :: post)%list ->
  manifest_stage env options (store w) = (Ok (m, st1), rd) ->
  snapshot env options m st1 = (info, st2) ->
  runValidators pre (context_of options) info st2 (effects w) = (None, info_k, st_k, eff_k) ->
  Validate v (context_of options) info_k st_k eff_k = (Some err, info', st', eff') ->
  runValidators (pre ++ v :: post) (context_of options) info st2 (effects w)
    = (Some (wrapError err CategoryValidation ErrMsgValidationFailedWrap), info', st', eff')
  /\ loadVersionInfo env opts w
     = (Err (wrapError err CategoryValidation ErrMsgValidationFailedWrap),
        after_load w st' rd eff').
Proof.
  intros options Hvs Hm Hs Hpre Hv.
  assert (Hrun : runValidators (pre ++ v :: post) (context_of options) info st2 (effects w)
                 = (Some (wrapError err CategoryValidation ErrMsgValidationFailedWrap),
                    info', st', eff')).
  { rewrite runValidators_app, Hpre. cbn [runValidators]. now rewrite Hv. }
  split; [exact Hrun|].
  rewrite loadVersionInfo_stages. fold options. cbv zeta.
  now rewrite Hm, Hs, Hvs, Hrun.
Qed.

(** Two test doubles, the first failing: only the first leaves its mark. *)
Lemma validators_fail_fast_witness :
  exists w',
    loadVersionInfo (fixture_env ∅)
      [WithValidators [failing_double "first"; passing_double "second"]] empty_world
    = (Err (wrapError (Errorf "first rejects") CategoryValidation ErrMsgValidationFailedWrap), w')
    /\ effects w' = ["first"]
    /\ infos w' = [].
Proof.
  eexists. split; [|split].
  - apply (validators_fail_fast (fixture_env ∅)
             [WithValidators [failing_double "first"; passing_double "second"]] empty_world
             [] [passing_double "second"] (failing_double "first")
             defaultManifest empty_store empty_store ["versions.yaml"]
             (fst (snapshot (fixture_env ∅) defaultLoadOptions defaultManifest empty_store))
             (fst (snapshot (fixture_env ∅) defaultLoadOptions defaultManifest empty_store))
             (fst (snapshot (fixture_env ∅) defaultLoadOptions defaultManifest empty_store))
             empty_store empty_store
             [] ["first"] (Errorf "first rejects"));
      reflexivity.
  - reflexivity.
  - reflexivity.
Defined.

End Validators.

(** ** A missing manifest *)

Section Defaults.
Import version.

(** A built-in validator finds nothing in a snapshot without maps. *)
Lemma builtin_rejects_empty b item minimum c info st :
  (forall d, field_of d info = None) ->
  genericVersionValidator_Validate (builtin_validator b item minimum) c info st
  = Some (not_found_error b item).
Proof.
  intros Hf. rewrite Validate_expected.
  assert (E : lookup_item b info st item = None).
  { unfold lookup_item.
    destruct b; cbn [builtin_field];
      [rewrite (Hf DSchemas : schemas info = None)
      |rewrite (Hf DAPIs : apis info = None)
      |rewrite (Hf DComponents : components info = None)]; reflexivity. }
  now rewrite E.
Qed.

(** C4 (as amended).  When the manifest source is absent (nothing
    embedded, and no path or no file at the path): in strict mode the
    load fails, with the error that says so; without strict mode the
    default manifest is taken, which gives a snapshot with project name
    ["unknown"], version ["0.0.0-dev"] and every dimension map nil,
    hence empty, and this snapshot goes to the validators like any
    other.  With no validator configured the load succeeds and returns
    it; with validators the load succeeds exactly when they all accept,
    and returns the snapshot as they left it; it fails with the first
    error otherwise, as it does as soon as the first validator is a
    built-in one, which finds no entry.  When a source is found and its
    bytes are refused (YAML that does not decode, or a project without
    name or version), the load fails whatever the mode. *)
Theorem missing_manifest_strict_or_defaults (env : Env) (opts : list Option) (w : World) :
  let options := applyOptions opts in
  (source_missing env options -> strictMode options = true ->
     exists w',
       loadVersionInfo env opts w =
         (Err (newCategoryErrorWithHint CategoryManifest ErrMsgStrictModeManifestRequired
                 ErrHintStrictMode), w')
       /\ infos w' = infos w)
  /\ (source_missing env options -> strictMode options = false ->
     exists info st',
       snapshot env options defaultManifest (store w) = (info, st')
       /\ Name (Project info) = "unknown"
       /\ Version (Project info) = "0.0.0-dev"
       /\ (forall d, field_of d info = None /\ contents d st' (field_of d info) = ∅)
       /\ (validators options = [] ->
             exists p w',
               loadVersionInfo env opts w = (Ok p, w')
               /\ deref w' p = Some info /\ store w' = st')
       /\ (forall info' st'' eff,
             runValidators (validators options) (context_of options) info st' (effects w)
             = (None, info', st'', eff) ->
             exists p w',
               loadVersionInfo env opts w = (Ok p, w') /\ deref w' p = Some info')
       /\ (forall err info' st'' eff,
             runValidators (validators options) (context_of options) info st' (effects w)
             = (Some err, info', st'', eff) ->
             exists w', loadVersionInfo env opts w = (Err err, w') /\ infos w' = infos w)
       /\ (forall b item minimum rest,
             validators options = builtin (builtin_validator b item minimum) :: rest ->
             exists w',
               loadVersionInfo env opts w =
                 (Err (wrapError (not_found_error b item) CategoryValidation
                         ErrMsgValidationFailedWrap), w')
               /\ infos w' = infos w))
  /\ (forall data e,
       source_bytes env options = Some data ->
       refused env data (store w) e ->
       exists w',
         loadVersionInfo env opts w =
           (Err (wrapErrorWithHint e CategoryManifest ErrMsgLoadManifest ErrHintParseYAML), w')
         /\ infos w' = infos w).
Proof.
  intros options. rewrite loadVersionInfo_stages. fold options. cbv zeta.
  unfold manifest_stage.
  split; [|split].
  - intros Hmiss Hstrict.
    destruct (source_missing_loadManifest env options (store w) Hmiss) as (e & rd & -> & He).
    rewrite Hstrict, He. eexists. split; reflexivity.
  - intros Hmiss Hstrict.
    destruct (source_missing_loadManifest env options (store w) Hmiss) as (e & rd & -> & He).
    rewrite Hstrict, He. cbn [negb].
    destruct (snapshot env options defaultManifest (store w)) as [info st'] eqn:Es.
    destruct (snapshot_fields _ _ _ _ _ _ Es) as (HP & HF & Hst).
    rewrite manifestToInfo_default in HF, Hst. cbn [fst snd] in HF, Hst.
    assert (HF' : forall d, field_of d info = None) by (intros d; rewrite HF; destruct d; reflexivity).
    exists info, st'. split; [reflexivity|].
    split; [now rewrite HP|]. split; [now rewrite HP|].
    split; [intros d; split; [apply HF'|unfold contents; now rewrite HF']|].
    split; [|split; [|split]].
    + intros ->. cbn [runValidators]. eexists _, _. split; [reflexivity|].
      split; [unfold deref; cbn [infos]; apply list_lookup_middle; reflexivity | reflexivity].
    + intros info' st'' eff ->. eexists _, _. split; [reflexivity|].
      unfold deref; cbn [infos]. apply list_lookup_middle. reflexivity.
    + intros err info' st'' eff ->. eexists. split; reflexivity.
    + intros b item minimum rest ->. cbn [runValidators builtin Validate].
      rewrite (builtin_rejects_empty b item minimum _ info st' HF').
      eexists. split; reflexivity.
  - intros data e Hsrc Href. apply parseManifest_Err in Href.
    destruct (source_bytes_loadManifest env options (store w) data Hsrc) as [rd ->].
    rewrite Href, (parseManifest_not_IsNotExist _ _ _ _ Href). cbn [negb].
    destruct (strictMode options); eexists; split; reflexivity.
Qed.

(** No file in the file system and the default options, then the same
    with strict mode; and a manifest that is there without a project
    name. *)
Lemma missing_manifest_strict_or_defaults_witness :
  (exists p w' i,
     loadVersionInfo (fixture_env ∅) [] empty_world = (Ok p, w')
     /\ deref w' p = Some i
     /\ Name (Project i) = "unknown" /\ Version (Project i) = "0.0.0-dev"
     /\ (forall d, field_of d i = None /\ contents d (store w') (field_of d i) = ∅))
  /\ (exists e w', loadVersionInfo (fixture_env ∅) [WithStrictMode] empty_world = (Err e, w'))
  /\ (exists e w',
        loadVersionInfo (fixture_env ∅) [WithEmbedded doc_nameless] empty_world = (Err e, w')).
Proof.
  assert (Hmiss : forall o, manifestEmbed o = "" -> manifestPath o = "versions.yaml" ->
                            source_missing (fixture_env ∅) o).
  { intros o He Hp. split; [exact He|]. right. rewrite Hp. eexists. split; reflexivity. }
  split; [|split].
  - destruct (missing_manifest_strict_or_defaults (fixture_env ∅) [] empty_world)
      as (_ & H & _).
    destruct H as (info & st' & _ & Hn & Hv & Hf & Hnone & _);
      [apply Hmiss; reflexivity | reflexivity |].
    destruct (Hnone eq_refl) as (p & w' & Hl & Hd & Hst).
    exists p, w', info. rewrite Hst. auto.
  - destruct (missing_manifest_strict_or_defaults (fixture_env ∅) [WithStrictMode] empty_world)
      as (H & _ & _).
    destruct H as (w' & H & _); [apply Hmiss; reflexivity | reflexivity |]. eauto.
  - destruct (missing_manifest_strict_or_defaults (fixture_env ∅)
                [WithEmbedded doc_nameless] empty_world) as (_ & _ & H).
    destruct (H doc_nameless
                (newCategoryErrorWithHint CategoryManifest ErrMsgProjectNameRequired
                   ErrHintProjectNameRequired) eq_refl) as (w' & H' & _).
    { right. left. eexists _, _. split; [reflexivity|]. split; reflexivity. }
    eauto.
Defined.

(** C4 as stated fails once a validator is configured: the defaults are
    validated like any snapshot.  No manifest file, no strict mode, and
    the built-in validator of the schema [db]: the load does not
    succeed with the defaults, it fails. *)
Lemma defaults_rejected_by_validator :
  let opts := [WithValidators [builtin (NewSchemaValidator "db" "1")]] in
  source_missing (fixture_env ∅) (applyOptions opts)
  /\ strictMode (applyOptions opts) = false
  /\ fst (loadVersionInfo (fixture_env ∅) opts empty_world)
     = Err (wrapError (not_found_error BSchema "db") CategoryValidation
              ErrMsgValidationFailedWrap)
  /\ Error (wrapError (not_found_error BSchema "db") CategoryValidation
              ErrMsgValidationFailedWrap)
     = "[validation] validation failed: schema 'db' not found in manifest" +:+ nl
       +:+ "Hint: " +:+ ErrHintSchemaNotFound.
Proof.
  intros opts. split; [|split; [|split]].
  - split; [reflexivity|]. right. eexists. split; reflexivity.
  - reflexivity.
  - vm_compute. reflexivity.
  - vm_compute. reflexivity.
Qed.

End Defaults.

(** ** The singleton, one caller at a time *)

Section SingletonSequential.
Import version.

Lemma load_failure_allocates_nothing env opts w e w' :
  loadVersionInfo env opts w = (Err e, w') -> infos w' = infos w /\ runs w' = S (runs w).
Proof.
  rewrite loadVersionInfo_stages. cbv zeta.
  destruct (manifest_stage _ _ _) as [[[m st]|err] rd].
  - destruct (snapshot _ _ _ _) as [info st'].
    destruct (runValidators _ _ _ _ _) as [[[[err|] info'] st''] eff]; [|discriminate].
    intros [= <- <-]. split; reflexivity.
  - intros [= <- <-]. split; reflexivity.
Qed.

Lemma IsInitialized_false g :
  IsInitialized g = false -> instance g = None \/ instance g = Some None.
Proof. unfold IsInitialized. destruct (instance g) as [[p|]|]; auto; discriminate. Qed.

Lemma call_after_failure env g e w c :
  IsInitialized g = false ->
  run_call env c (failed_state g e) w = (outcome_after_failure e c, (failed_state g e, w)).
Proof.
  intros Hi. apply IsInitialized_false in Hi.
  assert (HG : Get env (failed_state g e) w = (Err e, (failed_state g e, w))).
  { destruct g as [inst once ierr]. cbn [instance] in Hi.
    destruct Hi as [-> | ->]; reflexivity. }
  destruct c as [| | |opts]; cbn [run_call outcome_after_failure].
  - now rewrite HG.
  - unfold MustGet. rewrite HG.
    rewrite <- (string_app_nil_r (Error e)). reflexivity.
  - destruct g as [inst once ierr]. cbn [instance] in Hi.
    destruct Hi as [-> | ->]; reflexivity.
  - reflexivity.
Qed.

Lemma calls_after_failure env g e w cs :
  IsInitialized g = false ->
  run_calls env cs (failed_state g e) w
  = (List.map (outcome_after_failure e) cs, (failed_state g e, w)).
Proof.
  intros Hi. induction cs as [|c cs IH]; [reflexivity|].
  cbn [run_calls List.map]. rewrite (call_after_failure env g e w c Hi). cbn [fst snd].
  now rewrite IH.
Qed.

(** C9.  Let the singleton be uninitialized: the once-guard not yet used
    and no [Info] published.  If the pipeline fails with [e] inside
    [Initialize], or inside the [Get] that initializes with the default
    options, then the call returns [e], the stored instance is what it was
    (so [IsInitialized] is still false), no [Info] has been allocated,
    [e] is recorded, and any later calls leave the singleton and the world
    as they are (the pipeline does not run again): each [Get] returns
    [e], [IsInitialized] false, [Initialize] the already-called error. *)
Theorem failed_initialization_is_final (env : Env) (g : Singleton) (w w' : World)
    (e : error) (cs : list call) :
  initOnce g = false ->
  IsInitialized g = false ->
  (forall opts, loadVersionInfo env opts w = (Err e, w') ->
     Initialize env opts g w = (Some e, (failed_state g e, w')))
  /\ (loadVersionInfo env [WithGitInfo; WithBuildInfo] w = (Err e, w') ->
     Get env g w = (Err e, (failed_state g e, w')))
  /\ IsInitialized (failed_state g e) = false
  /\ initError (failed_state g e) = Some e
  /\ (forall opts, loadVersionInfo env opts w = (Err e, w') -> infos w' = infos w)
  /\ run_calls env cs (failed_state g e) w'
     = (List.map (outcome_after_failure e) cs, (failed_state g e, w')).
Proof.
  intros Honce Hinit.
  split; [|split; [|split; [|split; [|split]]]].
  - intros opts Hload. unfold Initialize, onceDo, initBody. rewrite Honce, Hload.
    cbn [negb fst initError instance]. reflexivity.
  - intros Hload. pose proof (IsInitialized_false g Hinit) as Hi.
    destruct g as [inst once ierr]. cbn [instance initOnce] in *. subst once.
    unfold Get, onceDo, initBody. cbn [instance initOnce]. rewrite Hload.
    destruct Hi as [-> | ->]; reflexivity.
  - pose proof (IsInitialized_false g Hinit) as Hi.
    destruct g as [inst once ierr]. cbn [instance] in Hi.
    destruct Hi as [-> | ->]; reflexivity.
  - reflexivity.
  - intros opts Hload. now apply load_failure_allocates_nothing in Hload.
  - now apply calls_after_failure.
Qed.

(** A strict [Initialize] with no manifest file, then five calls. *)
Lemma failed_initialization_is_final_witness :
  let env := fixture_env ∅ in
  let e := newCategoryErrorWithHint CategoryManifest ErrMsgStrictModeManifestRequired
             ErrHintStrictMode in
  exists w',
    Initialize env [WithStrictMode] uninitialized empty_world
      = (Some e, (failed_state uninitialized e, w'))
    /\ runs w' = 1%nat
    /\ run_calls env [CallGet; CallIsInitialized; CallInitialize []; CallGet; CallMustGet]
         (failed_state uninitialized e) w'
       = ([GetOutcome (Err e); IsInitializedOutcome false;
           InitializeOutcome (Some already_initialized); GetOutcome (Err e);
           MustGetOutcome (inr ("version.MustGet: " +:+ Error e))],
          (failed_state uninitialized e, w')).
Proof.
  intros env e.
  assert (Hr : fst (loadVersionInfo env [WithStrictMode] empty_world) = Err e)
    by (vm_compute; reflexivity).
  destruct (loadVersionInfo env [WithStrictMode] empty_world) as [r w'] eqn:Hload.
  cbn [fst] in Hr. subst r. exists w'.
  destruct (failed_initialization_is_final env uninitialized empty_world w' e
              [CallGet; CallIsInitialized; CallInitialize []; CallGet; CallMustGet]
              eq_refl eq_refl) as (HI & _ & _ & _ & _ & Hcalls).
  split; [apply HI, Hload|].
  split; [now apply load_failure_allocates_nothing in Hload|].
  exact Hcalls.
Defined.

End SingletonSequential.

(** ** The singleton among concurrent callers *)

Section Interleaving.
Import version.

Lemma load_runs env opts w r w' :
  loadVersionInfo env opts w = (r, w') -> runs w' = S (runs w).
Proof.
  rewrite loadVersionInfo_stages. cbv zeta.
  destruct (manifest_stage _ _ _) as [[[m st]|err] rd].
  - destruct (snapshot _ _ _ _) as [info st'].
    destruct (runValidators _ _ _ _ _) as [[[[err|] info'] st''] eff];
      intros [= <- <-]; reflexivity.
  - intros [= <- <-]. reflexivity.
Qed.

Lemma load_infos env opts w r w' :
  loadVersionInfo env opts w = (r, w') -> loaded w w' r.
Proof.
  rewrite loadVersionInfo_stages. cbv zeta.
  destruct (manifest_stage _ _ _) as [[[m st]|err] rd].
  - destruct (snapshot _ _ _ _) as [info st'].
    destruct (runValidators _ _ _ _ _) as [[[[err|] info'] st''] eff];
      intros [= <- <-]; cbn; eauto.
  - intros [= <- <-]. reflexivity.
Qed.

Lemma lookup_insert_cases (ts : list thread) i t' j tj :
  <[i := t']> ts !! j = Some tj ->
  (j = i /\ tj = t') \/ (j <> i /\ ts !! j = Some tj).
Proof.
  rewrite list_lookup_insert_Some.
  intros [(-> & -> & _)|(Hne & Hj)]; [left | right]; split; congruence.
Qed.

Lemma runner_is_running w0 sh u :
  is_runner u = true -> thread_ok w0 sh u -> sh_once sh = OnceRunning.
Proof. destruct u; cbn; try discriminate; tauto. Qed.

(** While nothing is published and the [Once] is not done, every caller
    outside the function is still on its way into [Do]. *)
Lemma ok_before_done w0 sh u :
  sh_once sh <> OnceDone -> unpublished sh -> is_runner u = false -> thread_ok w0 sh u ->
  u = AtFastPath \/ exists en, u = AtDo en.
Proof.
  intros Ho Hu Hr. destruct u as [| | | | | | | |[p|e]]; cbn in *; try discriminate; eauto;
    try tauto.
  intros Hp. destruct (Hu p Hp).
Qed.

(** A step of the caller [i] that leaves every other caller's knowledge
    true keeps the invariant. *)
Lemma invariant_update w0 sh sh' ts i t t' :
  invariant w0 (sh, ts) ->
  ts !! i = Some t ->
  thread_ok w0 sh' t' ->
  (forall j u, j <> i -> ts !! j = Some u -> thread_ok w0 sh' u) ->
  (is_runner t' = true -> is_runner t = true \/ sh_once sh = OnceIdle) ->
  (sh_once sh' = OnceIdle ->
     runs (sh_world sh') = runs w0 /\ infos (sh_world sh') = infos w0
     /\ unpublished sh' /\ sh_initError sh' = None) ->
  (sh_once sh' = OnceRunning ->
     is_runner t' = true \/ (sh_once sh = OnceRunning /\ is_runner t = false)) ->
  (sh_once sh' = OnceDone -> runs (sh_world sh') = S (runs w0) /\ settled w0 sh') ->
  invariant w0 (sh', <[i := t']> ts).
Proof.
  intros (Hok & Huniq & Hidle & Hrun & Hdone) Hi Ht' Hothers Hrunner Hidle' Hrun' Hdone'.
  cbn [fst snd] in *.
  assert (Hlen : (i < length ts)%nat) by (apply lookup_lt_is_Some; eauto).
  unfold invariant. cbn [fst snd].
  split; [|split; [|split; [|split]]]; try assumption.
  - intros j u Hj. destruct (lookup_insert_cases _ _ _ _ _ Hj) as [[-> ->]|[Hne Hj']].
    + exact Ht'.
    + now apply (Hothers j u).
  - assert (Hone : forall k tk, k <> i -> ts !! k = Some tk -> is_runner tk = true ->
                                is_runner t' = true -> False).
    { intros k tk Hk Hlk Hrk Hrt'. destruct (Hrunner Hrt') as [Hrt|Hid].
      - apply Hk. now apply (Huniq k i tk t).
      - pose proof (runner_is_running w0 sh tk Hrk (Hok k tk Hlk)) as Hc. congruence. }
    intros j k tj tk Hj Hk Hrj Hrk.
    destruct (lookup_insert_cases _ _ _ _ _ Hj) as [[-> ->]|[Hnj Hj']];
      destruct (lookup_insert_cases _ _ _ _ _ Hk) as [[-> ->]|[Hnk Hk']].
    + reflexivity.
    + exfalso. eapply Hone; eauto.
    + exfalso. eapply Hone; eauto.
    + now apply (Huniq j k tj tk).
  - intros Ho. destruct (Hrun' Ho) as [Hrt'|[Ho' Hrt]].
    + exists i, t'. split; [now apply list_lookup_insert_eq | exact Hrt'].
    + destruct (Hrun Ho') as (k & tk & Hk & Hrk).
      assert (k <> i) by (intros ->; congruence).
      exists k, tk. split; [|exact Hrk]. now rewrite list_lookup_insert_ne.
Qed.

(** A step that leaves the shared variables alone and neither enters
    nor leaves the function. *)
Lemma invariant_quiet w0 sh ts i t t' :
  invariant w0 (sh, ts) ->
  ts !! i = Some t ->
  is_runner t = false -> is_runner t' = false ->
  thread_ok w0 sh t' ->
  invariant w0 (sh, <[i := t']> ts).
Proof.
  intros Hinv Hi Hrt Hrt' Hok'.
  pose proof Hinv as (Hok & _ & Hidle & _ & Hdone). cbn [fst snd] in *.
  apply (invariant_update w0 sh sh ts i t t'); auto.
  - intros j u _ Hj. exact (Hok j u Hj).
  - congruence.
Qed.

Lemma ok_set_done w0 sh u :
  is_runner u = false -> thread_ok w0 sh u -> thread_ok w0 (set_once OnceDone sh) u.
Proof.
  destruct u as [| | | | | | | |[p|e]]; cbn; try discriminate; try tauto.
Qed.

(** Other callers while one is inside the function and nothing is
    published: they hold nothing that the function's writes could
    break. *)
Lemma others_wait w0 sh sh' ts i t :
  invariant w0 (sh, ts) ->
  ts !! i = Some t ->
  sh_once sh <> OnceDone -> unpublished sh ->
  (is_runner t = true \/ sh_once sh = OnceIdle) ->
  forall j u, j <> i -> ts !! j = Some u -> thread_ok w0 sh' u.
Proof.
  intros (Hok & Huniq & _) Hi Hnd Hunp Hcase j u Hne Hj. cbn [fst snd] in *.
  assert (Hru : is_runner u = false).
  { destruct (is_runner u) eqn:Hru; [exfalso | reflexivity].
    destruct Hcase as [Hrt|Hidle].
    - apply Hne. now apply (Huniq j i u t).
    - pose proof (runner_is_running w0 sh u Hru (Hok j u Hj)). congruence. }
  destruct (ok_before_done w0 sh u Hnd Hunp Hru (Hok j u Hj)) as [->|[en ->]]; exact I.
Qed.

(** Every step keeps the invariant. *)
Lemma invariant_step env w0 cfg cfg' :
  invariant w0 cfg -> step env cfg cfg' -> invariant w0 cfg'.
Proof.
  intros Hinv Hstep. destruct Hstep as [i t t' sh sh' ts Hi Ht].
  pose proof Hinv as (Hok & Huniq & Hidle & Hrun & Hdone). cbn [fst snd] in *.
  pose proof (Hok i t Hi) as Hti.
  destruct t as [|en|en|en r|en|en didRun| |e|r]; cbn [thread_step] in Ht.
  - (* the fast path of Get *)
    destruct (sh_instance sh) as [[p|]|] eqn:E; injection Ht as <- <-;
      now apply (invariant_quiet w0 sh ts i AtFastPath).
  - (* entering Do *)
    destruct (sh_once sh) eqn:Ho; [| discriminate |].
    + injection Ht as <- <-. destruct (Hidle eq_refl) as (Hr & Hl & Hu & He).
      apply (invariant_update w0 sh _ ts i (AtDo en) _ Hinv Hi).
      * cbn. auto.
      * apply (others_wait w0 sh _ ts i (AtDo en)); auto; congruence.
      * intros _. now right.
      * discriminate.
      * intros _. now left.
      * discriminate.
    + injection Ht as <- <-. now apply (invariant_quiet w0 sh ts i (AtDo en)).
  - (* the pipeline runs *)
    destruct Hti as (Ho & Hr & Hl & Hu & He).
    destruct (loadVersionInfo env (entry_opts en) (sh_world sh)) as [r w'] eqn:L.
    injection Ht as <- <-. pose proof (load_runs _ _ _ _ _ L) as Hruns.
    pose proof (load_infos _ _ _ _ _ L) as Hinfos.
    apply (invariant_update w0 sh _ ts i (AtLoad en) _ Hinv Hi).
    + cbn. split; [exact Ho|]. split; [congruence|].
      split; [unfold loaded in *; now rewrite <- Hl|].
      split; [exact Hu|]. now destruct r.
    + apply (others_wait w0 sh _ ts i (AtLoad en)); auto; congruence.
    + intros _. now left.
    + cbn. congruence.
    + intros _. now left.
    + cbn. congruence.
  - (* the instance is stored, if there is one *)
    destruct Hti as (Ho & Hr & Hl & Hu & He).
    assert (Hothers : forall sh', forall j u, j <> i -> ts !! j = Some u -> thread_ok w0 sh' u).
    { intros sh''. apply (others_wait w0 sh _ ts i (AtStore en r)); auto; congruence. }
    destruct r as [p|e]; cbn [err_of] in He; rewrite He in Ht; injection Ht as <- <-.
    + apply (invariant_update w0 sh _ ts i (AtStore en (Ok p)) _ Hinv Hi).
      * cbn. split; [exact Ho|]. split; [exact Hr|]. left.
        split; [exact He|]. exists p. split; [reflexivity | exact Hl].
      * apply Hothers.
      * intros _. now left.
      * cbn. congruence.
      * intros _. now left.
      * cbn. congruence.
    + apply (invariant_update w0 sh _ ts i (AtStore en (Err e)) _ Hinv Hi).
      * cbn. split; [exact Ho|]. split; [exact Hr|]. right. exists e. auto.
      * apply Hothers.
      * intros _. now left.
      * congruence.
      * intros _. now left.
      * congruence.
  - (* the function returns: the Once is done *)
    destruct Hti as (Ho & Hr & Hs). injection Ht as <- <-.
    apply (invariant_update w0 sh _ ts i (AtReturn en) _ Hinv Hi).
    + reflexivity.
    + intros j u Hne Hj. apply ok_set_done; [|exact (Hok j u Hj)].
      destruct (is_runner u) eqn:Hru; [exfalso | reflexivity].
      apply Hne. now apply (Huniq j i u (AtReturn en)).
    + discriminate.
    + discriminate.
    + discriminate.
    + intros _. split; [exact Hr | exact Hs].
  - (* after Do *)
    cbn in Hti. destruct en as [opts|].
    + destruct (negb didRun); injection Ht as <- <-;
        now apply (invariant_quiet w0 sh ts i (AfterDo (EnterInitialize opts) didRun)).
    + destruct (sh_initError sh) as [e|] eqn:E; injection Ht as <- <-;
        now apply (invariant_quiet w0 sh ts i (AfterDo EnterGet didRun)).
  - (* the slow path of Get reads the instance *)
    destruct Hti as (Ho & He).
    destruct (Hdone Ho) as (_ & [(_ & p & Hp & _)|(e & He' & _)]); [|congruence].
    unfold published in Hp. rewrite Hp in Ht. injection Ht as <- <-.
    now apply (invariant_quiet w0 sh ts i AtReload).
  - discriminate.
  - discriminate.
Qed.

Lemma invariant_initial entries sh0 :
  fresh_shared sh0 -> invariant (sh_world sh0) (sh0, spawn <$> entries).
Proof.
  intros (Ho & Hu & He).
  assert (Hsp : forall i t, (spawn <$> entries) !! i = Some t ->
                            t = AtFastPath \/ exists en, t = AtDo en).
  { intros i t. rewrite list_lookup_fmap.
    destruct (entries !! i) as [[opts|]|]; cbn; intros [= <-]; eauto. }
  unfold invariant. cbn [fst snd].
  split; [|split; [|split; [|split]]].
  - intros i t Ht. destruct (Hsp i t Ht) as [->|[en ->]]; exact I.
  - intros i j ti tj Hi _ Hr. destruct (Hsp i ti Hi) as [->|[en ->]]; discriminate Hr.
  - auto.
  - congruence.
  - congruence.
Qed.

Lemma invariant_reachable env w0 cfg cfg' :
  invariant w0 cfg -> rtc (step env) cfg cfg' -> invariant w0 cfg'.
Proof.
  intros Hinv Hrtc. induction Hrtc as [|cfg cfg1 cfg2 Hstep _ IH]; [assumption|].
  apply IH. eapply invariant_step; eassumption.
Qed.

(** The pipeline has run at most once, wherever the callers stand. *)
Lemma invariant_runs w0 sh ts :
  invariant w0 (sh, ts) -> (runs w0 <= runs (sh_world sh) <= S (runs w0))%nat.
Proof.
  intros (Hok & _ & Hidle & Hrun & Hdone). cbn [fst snd] in *.
  destruct (sh_once sh) eqn:Ho.
  - destruct (Hidle eq_refl) as (Hr & _). lia.
  - destruct (Hrun eq_refl) as (i & t & Hi & Hr). specialize (Hok i t Hi).
    destruct t; try discriminate Hr; cbn in Hok; lia.
  - destruct (Hdone eq_refl) as (Hr & _). lia.
Qed.

(** *** Progress *)

Lemma thread_step_weight env t sh t' sh' :
  thread_step env t sh = Some (t', sh') -> (weight t' < weight t)%nat.
Proof.
  destruct t as [|en|en|en r|en|en didRun| |e|r]; cbn [thread_step].
  - destruct (sh_instance sh) as [[p|]|]; intros [= <- <-]; cbn; lia.
  - destruct (sh_once sh); [|discriminate|]; intros [= <- <-]; cbn; lia.
  - destruct (loadVersionInfo _ _ _). intros [= <- <-]. cbn. lia.
  - destruct (sh_initError sh), r; intros [= <- <-]; cbn; lia.
  - intros [= <- <-]. cbn. lia.
  - destruct en; [destruct (negb didRun) | destruct (sh_initError sh)];
      intros [= <- <-]; cbn; lia.
  - destruct (sh_instance sh) as [[p|]|]; intros [= <- <-]; cbn; lia.
  - discriminate.
  - discriminate.
Qed.

Lemma total_weight_insert ts : forall i t t',
  ts !! i = Some t ->
  (total_weight (<[i := t']> ts) + weight t = total_weight ts + weight t')%nat.
Proof.
  assert (Hcons : forall u l, total_weight (u :: l) = (weight u + total_weight l)%nat)
    by reflexivity.
  induction ts as [|u ts IH]; intros [|i] t t' Hi; try discriminate.
  - injection Hi as ->. change (<[0%nat := t']> (t :: ts)) with (t' :: ts).
    rewrite !Hcons. lia.
  - change (<[S i := t']> (u :: ts)) with (u :: <[i := t']> ts).
    change ((u :: ts) !! S i) with (ts !! i) in Hi.
    specialize (IH i t t' Hi). rewrite !Hcons. lia.
Qed.

(** Every step brings the callers nearer to their return. *)
Lemma step_weight env sh ts cfg' :
  step env (sh, ts) cfg' -> (total_weight (snd cfg') < total_weight ts)%nat.
Proof.
  intros Hstep. inversion Hstep as [i t t' sh1 sh' ts1 Hi Ht]; subst. cbn [snd].
  pose proof (thread_step_weight _ _ _ _ _ Ht).
  pose proof (total_weight_insert ts i t t' Hi). lia.
Qed.

Lemma returned_or_not ts :
  all_returned ts \/ exists i t, ts !! i = Some t /\ has_returned t = false.
Proof.
  induction ts as [|u ts IH].
  - left. intros i t Hi. discriminate.
  - destruct (has_returned u) eqn:Hu.
    + destruct IH as [Hall|(i & t & Hi & Ht)].
      * left. intros [|i] t Hi; [injection Hi as <-; exact Hu | exact (Hall i t Hi)].
      * right. exists (S i), t. auto.
    + right. exists O, u. auto.
Qed.

(** While a caller has not returned, some caller can move: the one
    inside the function if there is one, any other otherwise. *)
Lemma progress env w0 sh ts :
  invariant w0 (sh, ts) -> ~ all_returned ts -> exists cfg', step env (sh, ts) cfg'.
Proof.
  intros (Hok & _ & _ & Hrun & _) Hnot. cbn [fst snd] in *.
  destruct (returned_or_not ts) as [Hall|(i & t & Hi & Ht)]; [contradiction|].
  assert (Hmove : forall j u, ts !! j = Some u ->
                   (exists u' sh', thread_step env u sh = Some (u', sh')) ->
                   exists cfg', step env (sh, ts) cfg').
  { intros j u Hj (u' & sh' & Hu). eexists. eapply step_thread; eassumption. }
  destruct (thread_step env t sh) as [[t' sh']|] eqn:Hstep; [eapply Hmove; eauto|].
  destruct t as [|en|en|en r|en|en didRun| |e|r]; cbn [thread_step] in Hstep;
    try discriminate Ht.
  - destruct (sh_instance sh) as [[p|]|]; discriminate.
  - destruct (sh_once sh) eqn:Ho; try discriminate.
    destruct (Hrun eq_refl) as (k & tk & Hk & Hr). apply (Hmove k tk Hk).
    destruct tk as [| |en'|en' r'|en'| | | |]; try discriminate Hr; cbn [thread_step].
    + destruct (loadVersionInfo _ _ _). eauto.
    + destruct (sh_initError sh), r'; eauto.
    + eauto.
  - destruct (loadVersionInfo _ _ _). discriminate.
  - destruct (sh_initError sh), r; discriminate.
  - discriminate.
  - destruct en; [destruct (negb didRun) | destruct (sh_initError sh)]; discriminate.
  - destruct (sh_instance sh) as [[p|]|]; discriminate.
Qed.

(** So the callers can always be run to their return. *)
Lemma completion env w0 : forall n cfg,
  (total_weight (snd cfg) < n)%nat -> invariant w0 cfg ->
  exists cfg', rtc (step env) cfg cfg' /\ all_returned (snd cfg').
Proof.
  induction n as [|n IH]; intros [sh ts] Hn Hinv; [lia|]. cbn [snd] in Hn.
  destruct (returned_or_not ts) as [Hall|Hsome].
  - exists (sh, ts). split; [apply rtc_refl | exact Hall].
  - assert (Hnot : ~ all_returned ts).
    { intros Hall. destruct Hsome as (i & t & Hi & Ht). rewrite (Hall i t Hi) in Ht.
      discriminate. }
    destruct (progress env w0 sh ts Hinv Hnot) as [cfg1 Hstep].
    pose proof (step_weight env sh ts cfg1 Hstep) as Hw.
    destruct (IH cfg1) as (cfg' & Hrtc & Hall); [lia | eapply invariant_step; eauto |].
    exists cfg'. split; [eapply rtc_l; eauto | exact Hall].
Qed.

Lemma step_length env cfg cfg' :
  rtc (step env) cfg cfg' -> length (snd cfg') = length (snd cfg).
Proof.
  induction 1 as [|cfg cfg1 cfg2 Hstep _ IH]; [reflexivity|].
  rewrite IH. destruct Hstep. cbn [snd]. apply length_insert.
Qed.

(** When all callers have returned, the [Once] is done. *)
Lemma returned_done w0 sh ts :
  invariant w0 (sh, ts) -> all_returned ts -> ts <> [] -> sh_once sh = OnceDone.
Proof.
  intros (Hok & _ & Hidle & Hrun & _) Hall Hne. cbn [fst snd] in *.
  destruct (sh_once sh) eqn:Ho; [| |reflexivity]; exfalso.
  - destruct ts as [|t ts]; [congruence|].
    pose proof (Hok O t eq_refl) as Ht. pose proof (Hall O t eq_refl) as Hr.
    destruct (Hidle eq_refl) as (_ & _ & Hu & _).
    destruct t as [| | | | | | | |[p|e]]; try discriminate Hr; cbn in Ht.
    + congruence.
    + exact (Hu p Ht).
    + destruct Ht. congruence.
  - destruct (Hrun eq_refl) as (i & t & Hi & Hr). pose proof (Hall i t Hi) as Hret.
    destruct t; discriminate.
Qed.

Lemma Get_published env sh p w :
  published sh p -> Get env (as_singleton sh) w = (Ok p, (as_singleton sh, w)).
Proof. unfold published, Get, as_singleton. cbn [instance]. now intros ->. Qed.

Lemma Get_failed env sh e w :
  sh_once sh = OnceDone -> sh_initError sh = Some e -> unpublished sh ->
  Get env (as_singleton sh) w = (Err e, (as_singleton sh, w)).
Proof.
  intros Ho He Hu. unfold Get, onceDo, as_singleton. cbn [instance initOnce initError].
  rewrite Ho. cbn [fst initError]. rewrite He.
  destruct (sh_instance sh) as [[p|]|] eqn:E; [destruct (Hu p E) | reflexivity | reflexivity].
Qed.

(** C2.  Let any number of callers enter [Initialize] and [Get] while the
    singleton is uninitialized, and let them be interleaved in any way,
    one access to the shared variables at a time, with [initOnce.Do]
    letting one caller in and holding the others until it is done.
    Then at every moment the pipeline has run at most once; no caller is
    ever stuck for good: the callers can always be run to their return,
    and every step brings that nearer; and when all have returned the
    pipeline has run exactly once, and either it has allocated one [Info],
    which is the published instance, every [Get] among the callers has
    returned that very pointer, and so does any [Get] afterwards; or the
    initialization has failed, no [Info] has been allocated, and every
    [Get] has returned, and returns, its error. *)
Theorem concurrent_callers_initialize_once (env : Env) (entries : list entry)
    (sh0 sh : Shared) (ts : list thread) :
  fresh_shared sh0 ->
  rtc (step env) (sh0, spawn <$> entries) (sh, ts) ->
  (runs (sh_world sh) <= S (runs (sh_world sh0)))%nat
  /\ (exists cfg', rtc (step env) (sh, ts) cfg' /\ all_returned (snd cfg'))
  /\ (forall cfg', step env (sh, ts) cfg' -> (total_weight (snd cfg') < total_weight ts)%nat)
  /\ (all_returned ts -> entries <> [] ->
      runs (sh_world sh) = S (runs (sh_world sh0))
      /\ ((exists p info,
             published sh p /\ sh_initError sh = None
             /\ infos (sh_world sh) = (infos (sh_world sh0) ++ [info])%list
             /\ deref (sh_world sh) p = Some info
             /\ (forall i r, ts !! i = Some (ReturnedGet r) -> r = Ok p)
             /\ (forall w, Get env (as_singleton sh) w = (Ok p, (as_singleton sh, w))))
          \/ (exists e,
                sh_initError sh = Some e /\ unpublished sh
                /\ infos (sh_world sh) = infos (sh_world sh0)
                /\ (forall i r, ts !! i = Some (ReturnedGet r) -> r = Err e)
                /\ (forall w, Get env (as_singleton sh) w = (Err e, (as_singleton sh, w)))))).
Proof.
  intros Hfresh Hreach.
  pose proof (invariant_reachable env _ _ _ (invariant_initial entries sh0 Hfresh) Hreach)
    as Hinv.
  split; [apply (invariant_runs _ sh ts Hinv)|].
  split; [apply (completion env (sh_world sh0) (S (total_weight ts)) (sh, ts));
            [cbn [snd]; lia | exact Hinv]|].
  split; [intros cfg'; apply step_weight|].
  intros Hall Hne.
  assert (Hts : ts <> []).
  { pose proof (step_length env _ _ Hreach) as Hlen. cbn [snd] in Hlen.
    rewrite length_fmap in Hlen. destruct ts; [|congruence].
    destruct entries; [congruence | discriminate Hlen]. }
  pose proof (returned_done _ sh ts Hinv Hall Hts) as Ho.
  pose proof Hinv as (Hok & _ & _ & _ & Hdone). cbn [fst snd] in *.
  destruct (Hdone Ho) as (Hruns & Hsettled). split; [exact Hruns|].
  destruct Hsettled as [(He & p & Hp & -> & info & Hl)|(e & He & Hu & Hl)].
  - left. exists (length (infos (sh_world sh0))), info.
    split; [exact Hp|]. split; [exact He|]. split; [exact Hl|].
    split; [unfold deref; rewrite Hl; now apply list_lookup_middle|].
    split; [|intros w; now apply Get_published].
    intros i [p'|e'] Hi; pose proof (Hok i _ Hi) as Hr; cbn in Hr.
    + unfold published in *. congruence.
    + destruct Hr. congruence.
  - right. exists e.
    split; [exact He|]. split; [exact Hu|]. split; [exact Hl|].
    split; [|intros w; now apply Get_failed].
    intros i [p'|e'] Hi; pose proof (Hok i _ Hi) as Hr; cbn in Hr.
    + destruct (Hu p' Hr).
    + destruct Hr. congruence.
Qed.

(** *** The two readings of the entry points agree *)

Lemma run_thread_Initialize env opts g w :
  run_thread env 8 (spawn (EnterInitialize opts)) (as_shared g w)
  = (ReturnedInitialize (fst (Initialize env opts g w)),
     as_shared (fst (snd (Initialize env opts g w))) (snd (snd (Initialize env opts g w)))).
Proof.
  destruct g as [inst once ierr]. unfold Initialize, onceDo, initBody, as_shared, spawn.
  cbn [instance initOnce initError].
  destruct once; [reflexivity|].
  cbn [run_thread thread_step sh_once sh_world sh_instance set_once entry_opts].
  destruct (loadVersionInfo env opts w) as [[p|e] w']; reflexivity.
Qed.

Lemma run_thread_Get env g w :
  run_thread env 8 (spawn EnterGet) (as_shared g w)
  = (ReturnedGet (fst (Get env g w)),
     as_shared (fst (snd (Get env g w))) (snd (snd (Get env g w)))).
Proof.
  destruct g as [inst once ierr]. unfold Get, onceDo, initBody, as_shared, spawn.
  cbn [instance initOnce initError].
  destruct inst as [[p|]|]; [reflexivity | |];
    (destruct once;
     [destruct ierr; reflexivity |
      cbn [run_thread thread_step sh_once sh_world sh_instance set_once entry_opts];
      destruct (loadVersionInfo env [WithGitInfo; WithBuildInfo] w) as [[p|e] w'];
      reflexivity]).
Qed.

Lemma run_schedule_reachable env sched : forall cfg,
  rtc (step env) cfg (run_schedule env sched cfg).
Proof.
  induction sched as [|i sched IH]; intros [sh ts]; [apply rtc_refl|].
  cbn [run_schedule fold_left]. unfold step_at at 2. cbn [fst snd].
  destruct (ts !! i) as [t|] eqn:Hi; [|apply IH].
  destruct (thread_step env t sh) as [[t' sh']|] eqn:Ht; [|apply IH].
  eapply rtc_l; [eapply step_thread; eassumption | apply IH].
Qed.

(** One [Initialize] and two [Get]s: one [Get] misses the fast path
    before the [Initialize] enters [Do], the other arrives while the
    pipeline runs. *)
Lemma concurrent_callers_initialize_once_witness :
   let env := fixture_env ∅ in
   let entries := [EnterInitialize [WithEmbedded doc_project]; EnterGet; EnterGet] in
   let sh0 := as_shared uninitialized empty_world in
   let cfg := run_schedule env [1; 0; 1; 0; 2; 2; 0; 0; 1; 0; 2; 1; 2; 1; 2]%nat
                (sh0, spawn <$> entries) in
   snd cfg = [ReturnedInitialize None; ReturnedGet (Ok O); ReturnedGet (Ok O)]
   /\ runs (sh_world (fst cfg)) = 1%nat
   /\ published (fst cfg) O.
Proof.
  intros env entries sh0 cfg.
  assert (Hts : snd cfg = [ReturnedInitialize None; ReturnedGet (Ok O); ReturnedGet (Ok O)])
    by (vm_compute; reflexivity).
  split; [exact Hts|].
  assert (Hfresh : fresh_shared sh0) by (repeat split; intros p; discriminate).
  destruct (concurrent_callers_initialize_once env entries sh0 (fst cfg) (snd cfg) Hfresh)
    as (_ & _ & _ & Hfinal).
  { rewrite <- surjective_pairing. apply run_schedule_reachable. }
  destruct Hfinal as (Hruns & Hcase).
  - rewrite Hts. intros [|[|[|i]]] t; cbn; intros [= <-]; reflexivity.
  - discriminate.
  - split; [exact Hruns|].
    destruct Hcase as [(p & info & Hp & _ & _ & _ & Hgets & _)|(e & _ & _ & _ & Hgets & _)].
    + assert (Hr : Ok O = Ok p) by (apply (Hgets 1%nat); rewrite Hts; reflexivity).
      injection Hr as <-. exact Hp.
    + assert (Hr : Ok O = Err e) by (apply (Hgets 1%nat); rewrite Hts; reflexivity).
      discriminate Hr.
Defined.

End Interleaving.

(** * Further properties of the code *)

(** ** Decimal numerals: parsing what was printed *)

Section Printing.
Import strconv.

Lemma digit_val_char d : 0 <= d <= 9 -> digit_val (digit_char d) = Some d.
Proof.
  intros H.
  assert (C : d = 0 \/ d = 1 \/ d = 2 \/ d = 3 \/ d = 4 \/ d = 5 \/ d = 6 \/ d = 7
              \/ d = 8 \/ d = 9) by lia.
  repeat (destruct C as [->|C]; [reflexivity|]). now subst d.
Qed.

Lemma utoa_small n : 0 <= n < 10 -> utoa n = String (digit_char n) EmptyString.
Proof. intros H. apply utoa_digit, digit_val_char. lia. Qed.

Lemma utoa_step n :
  10 <= n -> utoa n = utoa (n / 10) +:+ String (digit_char (n mod 10)) EmptyString.
Proof.
  intros H. pose proof (Z.mod_pos_bound n 10 ltac:(lia)) as Hm.
  rewrite <- (utoa_snoc (n / 10) (digit_char (n mod 10)) (n mod 10)).
  - f_equal. rewrite (Z.div_mod n 10) at 1 by lia. lia.
  - apply Z.div_pos; lia.
  - apply digit_val_char. lia.
  - apply Z.div_str_pos. lia.
Qed.

Lemma digits_acc_app a : forall b acc,
  digits_acc (a +:+ b) acc =
    match digits_acc a acc with
    | Some k => digits_acc b k
    | None => None
    end.
Proof.
  induction a as [|x a IH]; intros b acc; [reflexivity|].
  rewrite string_app_cons. cbn [digits_acc].
  destruct (digit_val x); [apply IH | reflexivity].
Qed.

Lemma all_digits_app a b : all_digits (a +:+ b) = all_digits a && all_digits b.
Proof.
  induction a as [|x a IH]; [reflexivity|].
  rewrite string_app_cons. cbn [all_digits]. rewrite IH. now rewrite andb_assoc.
Qed.

(** What [utoa] prints: digits only, at least one, and they read back
    as the number. *)
Lemma utoa_reads_back (m : nat) : forall n,
  0 <= n < Z.of_nat m ->
  digits_acc (utoa n) 0 = Some n /\ all_digits (utoa n) = true /\ utoa n <> EmptyString.
Proof.
  induction m as [|m IH]; intros n Hn; [lia|].
  destruct (Z_lt_le_dec n 10) as [Hs|Hb].
  - rewrite utoa_small by lia. cbn [digits_acc all_digits].
    unfold is_digit. rewrite digit_val_char by lia.
    split; [f_equal; lia|]. split; [reflexivity | discriminate].
  - pose proof (Z.mod_pos_bound n 10 ltac:(lia)) as Hm.
    assert (Hq : 0 <= n / 10 < Z.of_nat m).
    { split; [apply Z.div_pos; lia|]. apply Z.div_lt_upper_bound; lia. }
    destruct (IH _ Hq) as (Hd & Ha & Hne).
    rewrite utoa_step by lia. rewrite digits_acc_app, Hd, all_digits_app, Ha.
    cbn [digits_acc all_digits andb]. unfold is_digit. rewrite digit_val_char by lia.
    split; [|split; [reflexivity|]].
    + f_equal. rewrite (Z.div_mod n 10) at 3 by lia. lia.
    + destruct (utoa (n / 10)); [congruence | discriminate].
Qed.

Lemma Itoa_digits n :
  0 <= n ->
  all_digits (Itoa n) = true
  /\ exists x r, Itoa n = String x r /\ is_digit x = true.
Proof.
  intros Hn. unfold Itoa. rewrite (proj2 (Z.ltb_ge n 0)) by lia.
  destruct (utoa_reads_back (S (Z.to_nat n)) n ltac:(lia)) as (_ & Ha & Hne).
  split; [exact Ha|]. destruct (utoa n) as [|x r]; [congruence|].
  exists x, r. split; [reflexivity|]. cbn [all_digits] in Ha.
  now apply andb_prop in Ha as [Ha _].
Qed.

(** [Atoi] reads back what [Itoa] printed of a number that is not
    negative. *)
Lemma Atoi_Itoa n : 0 <= n <= maxInt -> Atoi (Itoa n) = Some n.
Proof.
  intros Hn. destruct (Itoa_digits n ltac:(lia)) as (_ & x & r & E & Hx).
  destruct (utoa_reads_back (S (Z.to_nat n)) n ltac:(lia)) as (Hd & _ & _).
  unfold Itoa in *. rewrite (proj2 (Z.ltb_ge n 0)) in * by lia.
  unfold Atoi. rewrite E.
  assert (Hs : match String x r with
               | String "+" r0 => (false, r0)
               | String "-" r0 => (true, r0)
               | _ => (false, String x r)
               end = (false, String x r)).
  { destruct x as [[] [] [] [] [] [] [] []]; try reflexivity; discriminate Hx. }
  rewrite Hs. cbn [snd fst unsigned]. rewrite <- E, Hd.
  unfold minInt, maxInt in *.
  destruct (_ && _) eqn:B; [reflexivity|].
  apply andb_false_iff in B as [B|B]; apply Z.leb_gt in B; lia.
Qed.

End Printing.

(** ** semver: Parse after String *)

Section SemverPrinted.
Import strings strconv semver.

Lemma Itoa_no_char c n : is_digit c = false -> 0 <= n -> has_char c (Itoa n) = false.
Proof.
  intros Hc Hn. apply all_digits_no_char; [assumption|]. now apply Itoa_digits.
Qed.

Lemma core_text_no_char c a b d :
  is_digit c = false -> Ascii.eqb "." c = false ->
  0 <= a -> 0 <= b -> 0 <= d ->
  has_char c (Itoa a +:+ "." +:+ Itoa b +:+ "." +:+ Itoa d) = false.
Proof.
  intros Hc Hdot Ha Hb Hd.
  change (has_char c (Itoa a +:+ String "." (Itoa b +:+ String "." (Itoa d))) = false).
  rewrite has_char_app, (Itoa_no_char c a Hc Ha). cbn [has_char orb]. rewrite Hdot.
  cbn [orb]. rewrite has_char_app, (Itoa_no_char c b Hc Hb). cbn [has_char orb].
  rewrite Hdot. cbn [orb]. now apply Itoa_no_char.
Qed.

Lemma Split_core_text a b d :
  0 <= a -> 0 <= b -> 0 <= d ->
  Split (Itoa a +:+ "." +:+ Itoa b +:+ "." +:+ Itoa d) "." = [Itoa a; Itoa b; Itoa d].
Proof.
  intros Ha Hb Hd.
  change (Split (Itoa a +:+ String "." (Itoa b +:+ String "." (Itoa d))) "."
          = [Itoa a; Itoa b; Itoa d]).
  rewrite Split_first by (now apply Itoa_no_char).
  rewrite Split_first by (now apply Itoa_no_char).
  rewrite Split_none by (now apply Itoa_no_char). reflexivity.
Qed.

Lemma Parse_printed v :
  0 <= Major v <= maxInt -> 0 <= Minor v <= maxInt -> 0 <= Patch v <= maxInt ->
  has_char "+" (Prerelease v) = false ->
  Parse (String_ v) = Ok v.
Proof.
  intros HM Hm Hp Hpre. rewrite String_text.
  destruct (Itoa_digits (Major v) ltac:(lia)) as (_ & x & r & E & Hx).
  assert (HX : exists r', Itoa (Major v) +:+ "." +:+ Itoa (Minor v) +:+ "." +:+ Itoa (Patch v)
                          = String x r').
  { rewrite E, string_app_cons. eauto. }
  destruct HX as [r' HX].
  rewrite (Parse_text _ x r' _ _ HX Hx
             (core_text_no_char "+" _ _ _ eq_refl eq_refl (proj1 HM) (proj1 Hm) (proj1 Hp))
             (core_text_no_char "-" _ _ _ eq_refl eq_refl (proj1 HM) (proj1 Hm) (proj1 Hp))
             Hpre).
  rewrite Split_core_text by lia.
  unfold parse_parts, at_. cbn [length Nat.ltb Nat.leb orb nth].
  rewrite !Atoi_Itoa by lia. destruct v; reflexivity.
Qed.

End SemverPrinted.

(** ** semver: what Parse returns *)

Section SemverParsed.
Import strings strconv semver.

Lemma cut_spec c s a b :
  cut c s = Some (a, b) -> s = a +:+ String c b /\ has_char c a = false.
Proof.
  revert a b. induction s as [|x s IH]; intros a b; cbn [cut]; [discriminate|].
  destruct (Ascii.eqb_spec x c) as [->|Hne].
  - intros [= <- <-]. split; reflexivity.
  - destruct (cut c s) as [[a' b']|]; [|discriminate]. intros [= <- <-].
    destruct (IH a' b' eq_refl) as [-> Ha]. split; [reflexivity|].
    cbn [has_char]. rewrite Ha, orb_false_r. now apply Ascii.eqb_neq.
Qed.

Lemma cut_none_inv c s : cut c s = None -> has_char c s = false.
Proof.
  induction s as [|x s IH]; cbn [cut has_char]; [reflexivity|].
  destruct (Ascii.eqb x c); [discriminate|].
  destruct (cut c s) as [[a b]|]; [discriminate|]. intros _. now apply IH.
Qed.

(** The two texts [Parse] reads off [SplitN(s, sep, 2)]: the first
    holds no separator, and neither holds a byte that [s] does not. *)
Lemma SplitN2_parts c s :
  let parts := SplitN2 s c in
  has_char c (at_ parts 0) = false
  /\ forall d, has_char d s = false ->
       has_char d (at_ parts 0) = false
       /\ has_char d (if (1 <? length parts)%nat then at_ parts 1 else "") = false.
Proof.
  unfold SplitN2. destruct (cut c s) as [[a b]|] eqn:E; cbn [at_ nth length Nat.ltb Nat.leb].
  - destruct (cut_spec _ _ _ _ E) as [-> Ha]. split; [exact Ha|].
    intros d Hd. rewrite has_char_app in Hd. apply orb_false_elim in Hd as [H1 H2].
    cbn [has_char] in H2. apply orb_false_elim in H2 as [_ H2]. now split.
  - split; [now apply cut_none_inv|]. intros d Hd. now split.
Qed.

Lemma Split_parts d sep s :
  has_char d s = false -> forall i, has_char d (at_ (Split s sep) i) = false.
Proof.
  induction s as [|x s IH]; cbn [Split has_char].
  - intros _ [|[|i]]; reflexivity.
  - intros H. apply orb_false_elim in H as [Hx H]. specialize (IH H).
    destruct (Ascii.eqb x sep).
    + intros [|i]; [reflexivity | apply (IH i)].
    + destruct (Split s sep) as [|h t] eqn:E.
      * intros [|[|i]]; cbn [at_ nth has_char]; now rewrite ?Hx.
      * intros [|i]; [|apply (IH (S i))].
        cbn [at_ nth has_char]. rewrite Hx. apply (IH 0%nat).
Qed.

(** [Atoi] gives a negative number only for a text that starts with
    ['-']. *)
Lemma Atoi_unsigned s n : Atoi s = Some n -> has_char "-" s = false -> 0 <= n <= maxInt.
Proof.
  unfold Atoi. intros H Hs.
  assert (E : fst (match s with
                   | String "+" r => (false, r)
                   | String "-" r => (true, r)
                   | _ => (false, s)
                   end) = false).
  { destruct s as [|x r]; [reflexivity|].
    destruct x as [[] [] [] [] [] [] [] []]; try reflexivity. discriminate Hs. }
  destruct (match s with
            | String "+" r => (false, r)
            | String "-" r => (true, r)
            | _ => (false, s)
            end) as [neg t]. cbn [fst snd] in *. subst neg.
  destruct (unsigned t) as [k|] eqn:Ek; [|discriminate].
  destruct (_ && _) eqn:B; [|discriminate]. injection H as <-.
  apply andb_prop in B as [_ B]. apply Z.leb_le in B. split; [|exact B].
  unfold unsigned in Ek. destruct t; [discriminate|].
  apply digits_acc_nonneg in Ek; lia.
Qed.

Lemma parse_parts_fields s core pre build v :
  parse_parts s core pre build = Ok v ->
  (forall i, has_char "-" (at_ core i) = false) ->
  0 <= Major v <= maxInt /\ 0 <= Minor v <= maxInt /\ 0 <= Patch v <= maxInt
  /\ Prerelease v = pre /\ Build v = build.
Proof.
  unfold parse_parts. intros H Hcore.
  destruct (_ || _); [discriminate|].
  destruct (Atoi (at_ core 0)) as [major|] eqn:E0; [|discriminate].
  apply Atoi_unsigned in E0; [|apply Hcore].
  assert (Hzero : 0 <= 0 <= maxInt) by (unfold maxInt; lia).
  destruct (if (1 <? length core)%nat then Atoi (at_ core 1) else Some 0) as [minor|] eqn:E1;
    [|discriminate].
  assert (H1 : 0 <= minor <= maxInt).
  { destruct (1 <? length core)%nat; [|injection E1 as <-; exact Hzero].
    apply Atoi_unsigned in E1; [exact E1 | apply Hcore]. }
  destruct (if (2 <? length core)%nat then Atoi (at_ core 2) else Some 0) as [patch|] eqn:E2;
    [|discriminate].
  assert (H2 : 0 <= patch <= maxInt).
  { destruct (2 <? length core)%nat; [|injection E2 as <-; exact Hzero].
    apply Atoi_unsigned in E2; [exact E2 | apply Hcore]. }
  injection H as <-. cbn [Major Minor Patch Prerelease Build]. auto.
Qed.

Lemma Parse_printable s v : Parse s = Ok v -> printable v.
Proof.
  rewrite Parse_parts. cbv zeta. set (t := TrimPrefix s "v").
  destruct (String.eqb t ""); [discriminate|].
  destruct (SplitN2_parts "+" t) as [Hplus _].
  destruct (SplitN2_parts "-" (at_ (SplitN2 t "+") 0)) as [Hminus Hrest].
  destruct (Hrest "+"%char Hplus) as [_ Hpre].
  intros H. apply parse_parts_fields in H; [|now apply Split_parts].
  destruct H as (HM & Hm & Hp & HP & _). unfold printable. rewrite HP. auto.
Qed.

End SemverParsed.

(** ** semver: the order of Compare *)

Section SemverOrderLaws.
Import semver.

Lemma lex_compare_antisym a : forall b, lex_compare b a = CompOpp (lex_compare a b).
Proof.
  induction a as [|x a IH]; intros [|y b]; try reflexivity. cbn [lex_compare].
  rewrite (N.compare_antisym (N_of_ascii x) (N_of_ascii y)).
  destruct (N.compare (N_of_ascii x) (N_of_ascii y)); cbn [CompOpp]; [apply IH | | ];
    reflexivity.
Qed.

Lemma lex_compare_eq a : forall b, lex_compare a b = Eq <-> a = b.
Proof.
  induction a as [|x a IH]; intros [|y b]; cbn [lex_compare]; try (split; [discriminate|]);
    try discriminate; [tauto|].
  destruct (N.compare_spec (N_of_ascii x) (N_of_ascii y)) as [E|L|G].
  - rewrite IH. rewrite <- (ascii_N_embedding x), <- (ascii_N_embedding y), E.
    split; [now intros -> | now intros [= ->]].
  - split; [discriminate|]. intros [= -> _]. lia.
  - split; [discriminate|]. intros [= -> _]. lia.
Qed.

Lemma lex_compare_trans a : forall b c,
  lex_compare a b = Lt -> lex_compare b c = Lt -> lex_compare a c = Lt.
Proof.
  induction a as [|x a IH]; intros [|y b] [|z c]; cbn [lex_compare]; try discriminate;
    try reflexivity.
  destruct (N.compare_spec (N_of_ascii x) (N_of_ascii y)) as [E1|L1|G1]; try discriminate;
    destruct (N.compare_spec (N_of_ascii y) (N_of_ascii z)) as [E2|L2|G2]; try discriminate;
    destruct (N.compare_spec (N_of_ascii x) (N_of_ascii z)) as [E3|L3|G3];
    try lia; try reflexivity.
  apply IH.
Qed.

Lemma precedence_antisym a b : precedence b a = CompOpp (precedence a b).
Proof.
  unfold precedence.
  rewrite (Z.compare_antisym (Major a) (Major b)),
    (Z.compare_antisym (Minor a) (Minor b)), (Z.compare_antisym (Patch a) (Patch b)).
  destruct (Major a ?= Major b); cbn [CompOpp]; try reflexivity.
  destruct (Minor a ?= Minor b); cbn [CompOpp]; try reflexivity.
  destruct (Patch a ?= Patch b); cbn [CompOpp]; try reflexivity.
  destruct (Prerelease a) as [|x pa], (Prerelease b) as [|y pb]; try reflexivity.
  apply lex_compare_antisym.
Qed.

Lemma precedence_eq a b : precedence a b = Eq <-> precedence_key a = precedence_key b.
Proof.
  unfold precedence, precedence_key.
  destruct (Z.compare_spec (Major a) (Major b)) as [E1|L1|G1];
    [|split; [discriminate | intros [= ? ? ? ?]; lia]..].
  destruct (Z.compare_spec (Minor a) (Minor b)) as [E2|L2|G2];
    [|split; [discriminate | intros [= ? ? ? ?]; lia]..].
  destruct (Z.compare_spec (Patch a) (Patch b)) as [E3|L3|G3];
    [|split; [discriminate | intros [= ? ? ? ?]; lia]..].
  rewrite E1, E2, E3.
  destruct (Prerelease a) as [|x pa], (Prerelease b) as [|y pb];
    try (split; [discriminate | intros [= ]]); [tauto|].
  rewrite lex_compare_eq. split; [now intros -> | now intros [= -> ->]].
Qed.

Lemma precedence_trans a b c :
  precedence a b = Lt -> precedence b c = Lt -> precedence a c = Lt.
Proof.
  unfold precedence.
  destruct (Z.compare_spec (Major a) (Major b)) as [E1|L1|G1]; try discriminate;
    destruct (Z.compare_spec (Major b) (Major c)) as [E2|L2|G2]; try discriminate;
    destruct (Z.compare_spec (Major a) (Major c)) as [E3|L3|G3];
    try lia; try reflexivity.
  destruct (Z.compare_spec (Minor a) (Minor b)) as [F1|M1|H1]; try discriminate;
    destruct (Z.compare_spec (Minor b) (Minor c)) as [F2|M2|H2]; try discriminate;
    destruct (Z.compare_spec (Minor a) (Minor c)) as [F3|M3|H3];
    try lia; try reflexivity.
  destruct (Z.compare_spec (Patch a) (Patch b)) as [P1|Q1|R1]; try discriminate;
    destruct (Z.compare_spec (Patch b) (Patch c)) as [P2|Q2|R2]; try discriminate;
    destruct (Z.compare_spec (Patch a) (Patch c)) as [P3|Q3|R3];
    try lia; try reflexivity.
  destruct (Prerelease a) as [|x pa], (Prerelease b) as [|y pb], (Prerelease c) as [|z pc];
    try discriminate; try reflexivity.
  apply lex_compare_trans.
Qed.

Lemma precedence_key_eq a b c :
  precedence_key a = precedence_key b -> precedence a c = precedence b c.
Proof. unfold precedence, precedence_key. now intros [= -> -> -> ->]. Qed.

Lemma sign_CompOpp c : sign (CompOpp c) = - sign c.
Proof. now destruct c. Qed.

Lemma Compare_antisym a b : Compare b a = - Compare a b.
Proof. now rewrite !Compare_sign, precedence_antisym, sign_CompOpp. Qed.

Lemma LessThan_Lt a b : LessThan a b = true <-> precedence a b = Lt.
Proof. unfold LessThan. rewrite Compare_sign. destruct (precedence a b); cbn; intuition congruence. Qed.

Lemma GreaterThan_Gt a b : GreaterThan a b = true <-> precedence a b = Gt.
Proof. unfold GreaterThan. rewrite Compare_sign. destruct (precedence a b); cbn; intuition congruence. Qed.

End SemverOrderLaws.

(** ** semver and the public version API: the theorems *)

Section SemverTheorems.
Import strings strconv version semver.

(** X1.  Printing a version and parsing the text gives the version
    back, for every version whose three numbers are not negative and
    whose prerelease holds no ['+']: [Parse (v.String()) = v], build
    metadata included. *)
Theorem Parse_String_round_trip (v : Version) :
  printable v -> Parse (String_ v) = Ok v.
Proof. intros (HM & Hm & Hp & Hpre). now apply Parse_printed. Qed.

Lemma Parse_String_round_trip_witness :
  Parse (String_ v_1_2_3_beta) = Ok v_1_2_3_beta.
Proof.
  apply (Parse_String_round_trip v_1_2_3_beta).
  unfold printable, maxInt. cbn. repeat split; try lia; discriminate.
Defined.

(** X2.  Whatever text [Parse] accepts, the version it returns has
    three numbers that are not negative (a sign is never read as part of
    a number) and a prerelease without ['+']; so its printed form parses
    to the same version: [String] gives a normal form of the input. *)
Theorem Parse_normal_form (s : string) (v : Version) :
  Parse s = Ok v ->
  0 <= Major v <= maxInt /\ 0 <= Minor v <= maxInt /\ 0 <= Patch v <= maxInt
  /\ has_char "+" (Prerelease v) = false
  /\ Parse (String_ v) = Ok v.
Proof.
  intros H. destruct (Parse_printable s v H) as (HM & Hm & Hp & Hpre).
  repeat (split; [assumption|]). now apply Parse_printed.
Qed.

Lemma Parse_normal_form_witness :
  0 <= Major v_2_0_0 <= maxInt /\ 0 <= Minor v_2_0_0 <= maxInt /\ 0 <= Patch v_2_0_0 <= maxInt
  /\ has_char "+" (Prerelease v_2_0_0) = false
  /\ Parse (String_ v_2_0_0) = Ok v_2_0_0.
Proof. apply (Parse_normal_form "v2"). vm_compute. reflexivity. Defined.

(** X3.  [Compare] is antisymmetric: swapping the operands negates the
    result, so [LessThan] is [GreaterThan] with the operands swapped,
    [LessThanOrEqual] is [GreaterThanOrEqual] swapped, and [Equal] is
    symmetric. *)
Theorem Compare_antisymmetric (a b : Version) :
  Compare b a = - Compare a b
  /\ LessThan a b = GreaterThan b a
  /\ LessThanOrEqual a b = GreaterThanOrEqual b a
  /\ Equal a b = Equal b a.
Proof.
  split; [apply Compare_antisym|].
  unfold LessThan, GreaterThan, LessThanOrEqual, GreaterThanOrEqual, Equal.
  rewrite (Compare_antisym a b), Compare_sign.
  destruct (precedence a b); cbn; auto.
Qed.

(** X4.  [LessThan] is transitive: when [a] is less than [b] and [b]
    less than [c], [a] is less than [c]; and read from the other end,
    [c] is [GreaterThan] [a]. *)
Theorem LessThan_transitive (a b c : Version) :
  LessThan a b = true -> LessThan b c = true ->
  LessThan a c = true /\ GreaterThan c a = true.
Proof.
  rewrite !LessThan_Lt, GreaterThan_Gt. intros H1 H2.
  pose proof (precedence_trans a b c H1 H2) as H3. split; [exact H3|].
  now rewrite (precedence_antisym a c), H3.
Qed.

Lemma LessThan_transitive_witness :
  LessThan v_1_2_3_beta v_2_0_0 = true /\ GreaterThan v_2_0_0 v_1_2_3_beta = true.
Proof. apply (LessThan_transitive v_1_2_3_beta v_1_2_3 v_2_0_0); reflexivity. Defined.

(** X5.  Two versions are [Equal] exactly when they agree on major,
    minor, patch and prerelease (they may differ in build metadata), and
    equal versions compare alike against any third one, on either
    side. *)
Theorem Equal_congruence (a b : Version) :
  (Equal a b = true <-> precedence_key a = precedence_key b)
  /\ (Equal a b = true ->
      forall c, Compare a c = Compare b c /\ Compare c a = Compare c b).
Proof.
  assert (HE : Equal a b = true <-> precedence_key a = precedence_key b).
  { rewrite <- precedence_eq. unfold Equal. rewrite Compare_sign.
    destruct (precedence a b); cbn; intuition congruence. }
  split; [exact HE|]. intros H c. apply HE in H.
  assert (H1 : Compare a c = Compare b c).
  { now rewrite !Compare_sign, (precedence_key_eq a b c H). }
  split; [exact H1|]. now rewrite (Compare_antisym a c), (Compare_antisym b c), H1.
Qed.

Lemma ParseSemVer_Parse s :
  ParseSemVer s = match Parse s with Ok v => Ok {| internal := v |} | Err e => Err e end.
Proof. reflexivity. Qed.

Lemma CompareVersions_Ok v1 v2 c :
  CompareVersions v1 v2 = Ok c <->
  exists a b, Parse v1 = Ok a /\ Parse v2 = Ok b /\ c = Compare a b.
Proof.
  unfold CompareVersions. rewrite !ParseSemVer_Parse.
  destruct (Parse v1) as [a|e1]; [destruct (Parse v2) as [b|e2]|].
  - unfold SemVer_Compare. cbn [internal]. split.
    + intros [= <-]. now exists a, b.
    + intros (a' & b' & [= <-] & [= <-] & ->). reflexivity.
  - split; [discriminate|]. intros (a' & b' & _ & [=] & _).
  - split; [discriminate|]. intros (a' & b' & [=] & _).
Qed.

Lemma IsNewerVersion_Ok v1 v2 r :
  IsNewerVersion v1 v2 = Ok r <->
  exists a b, Parse v1 = Ok a /\ Parse v2 = Ok b /\ r = GreaterThan a b.
Proof.
  unfold IsNewerVersion. rewrite !ParseSemVer_Parse.
  destruct (Parse v1) as [a|e1]; [destruct (Parse v2) as [b|e2]|].
  - unfold SemVer_GreaterThan. cbn [internal]. split.
    + intros [= <-]. now exists a, b.
    + intros (a' & b' & [= <-] & [= <-] & ->). reflexivity.
  - split; [discriminate|]. intros (a' & b' & _ & [=] & _).
  - split; [discriminate|]. intros (a' & b' & [=] & _).
Qed.

(** X6.  When [CompareVersions] returns a result, both texts parse,
    the result is -1, 0 or 1, and swapping the two texts negates it. *)
Theorem CompareVersions_antisymmetric (v1 v2 : string) (c : Z) :
  CompareVersions v1 v2 = Ok c ->
  CompareVersions v2 v1 = Ok (- c)
  /\ (exists a b, Parse v1 = Ok a /\ Parse v2 = Ok b)
  /\ (c = -1 \/ c = 0 \/ c = 1).
Proof.
  intros H. apply CompareVersions_Ok in H as (a & b & Ha & Hb & ->).
  split; [|split].
  - apply CompareVersions_Ok. exists b, a. repeat split; try assumption.
    symmetry. apply Compare_antisym.
  - eauto.
  - rewrite Compare_sign. destruct (precedence a b); cbn; auto.
Qed.

Lemma CompareVersions_antisymmetric_witness :
  CompareVersions "2.0.0" "v1.2.3-beta.1" = Ok (- -1)
  /\ (exists a b, Parse "v1.2.3-beta.1" = Ok a /\ Parse "2.0.0" = Ok b)
  /\ (-1 = -1 \/ -1 = 0 \/ -1 = 1).
Proof.
  apply (CompareVersions_antisymmetric "v1.2.3-beta.1" "2.0.0" (-1)). vm_compute. reflexivity.
Defined.

(** X7.  When [IsNewerVersion v1 v2] answers true, [CompareVersions]
    gives 1 for the same texts, the question the other way round is
    answered false, and whatever [v2] is newer than, [v1] is newer than
    too. *)
Theorem IsNewerVersion_strict_order (v1 v2 : string) :
  IsNewerVersion v1 v2 = Ok true ->
  CompareVersions v1 v2 = Ok 1
  /\ IsNewerVersion v2 v1 = Ok false
  /\ (forall v3, IsNewerVersion v2 v3 = Ok true -> IsNewerVersion v1 v3 = Ok true).
Proof.
  intros H. apply IsNewerVersion_Ok in H as (a & b & Ha & Hb & Hgt).
  symmetry in Hgt. pose proof Hgt as Hp. apply GreaterThan_Gt in Hp.
  split; [|split].
  - apply CompareVersions_Ok. exists a, b. repeat split; try assumption.
    now rewrite Compare_sign, Hp.
  - apply IsNewerVersion_Ok. exists b, a. repeat split; try assumption.
    unfold GreaterThan. now rewrite Compare_sign, (precedence_antisym a b), Hp.
  - intros v3 H3. apply IsNewerVersion_Ok in H3 as (b' & c & Hb' & Hc & Hgt').
    rewrite Hb in Hb'. injection Hb' as <-. symmetry in Hgt'. apply GreaterThan_Gt in Hgt'.
    apply IsNewerVersion_Ok. exists a, c. repeat split; try assumption.
    symmetry. apply GreaterThan_Gt.
    assert (L1 : precedence c b = Lt) by now rewrite (precedence_antisym b c), Hgt'.
    assert (L2 : precedence b a = Lt) by now rewrite (precedence_antisym a b), Hp.
    now rewrite (precedence_antisym c a), (precedence_trans c b a L1 L2).
Qed.

Lemma IsNewerVersion_strict_order_witness :
  CompareVersions "2.0.0" "1.2.3" = Ok 1
  /\ IsNewerVersion "1.2.3" "2.0.0" = Ok false
  /\ (forall v3, IsNewerVersion "1.2.3" v3 = Ok true -> IsNewerVersion "2.0.0" v3 = Ok true).
Proof. apply (IsNewerVersion_strict_order "2.0.0" "1.2.3"). vm_compute. reflexivity. Defined.

Lemma printable_with_build v x : printable v -> printable (with_build v x).
Proof. intros H. exact H. Qed.

Lemma String_head v :
  printable v -> exists x r, String_ v = String x r /\ is_digit x = true.
Proof.
  intros (HM & _). destruct (Itoa_digits (Major v) ltac:(lia)) as (_ & x & r & E & Hx).
  rewrite String_text, E, !string_app_cons. eauto.
Qed.

(** X8.  Comparing the printed forms of two versions is comparing the
    versions: for versions with numbers that are not negative and
    prereleases without ['+'], whatever build metadata is attached to
    either, and with or without a leading ["v"] on the first text,
    [CompareVersions] returns what [Compare] gives. *)
Theorem CompareVersions_printed (a b : Version) (x y : string) :
  printable a -> printable b ->
  CompareVersions (String_ (with_build a x)) (String_ (with_build b y)) = Ok (Compare a b)
  /\ CompareVersions ("v" +:+ String_ (with_build a x)) (String_ (with_build b y))
     = Ok (Compare a b).
Proof.
  intros Ha Hb.
  pose proof (Parse_printed (with_build a x)) as Pa.
  pose proof (Parse_printed (with_build b y)) as Pb.
  destruct Ha as (A1 & A2 & A3 & A4), Hb as (B1 & B2 & B3 & B4).
  specialize (Pa A1 A2 A3 A4). specialize (Pb B1 B2 B3 B4).
  assert (Pv : Parse ("v" +:+ String_ (with_build a x)) = Ok (with_build a x)).
  { destruct (String_head (with_build a x)) as (c & r & E & Hc);
      [exact (conj A1 (conj A2 (conj A3 A4)))|].
    rewrite Parse_v; [exact Pa|]. rewrite E. now apply TrimPrefix_digit. }
  split; apply CompareVersions_Ok; exists (with_build a x), (with_build b y);
    (split; [assumption|]; split; [assumption|]); reflexivity.
Qed.

Lemma CompareVersions_printed_witness :
  CompareVersions (String_ (with_build v_1_2_3_beta "a")) (String_ (with_build v_2_0_0 "b"))
    = Ok (Compare v_1_2_3_beta v_2_0_0)
  /\ CompareVersions ("v" +:+ String_ (with_build v_1_2_3_beta "a"))
       (String_ (with_build v_2_0_0 "b"))
     = Ok (Compare v_1_2_3_beta v_2_0_0).
Proof.
  apply (CompareVersions_printed v_1_2_3_beta v_2_0_0 "a" "b");
    unfold printable, maxInt; cbn; repeat split; try lia; discriminate.
Defined.

End SemverTheorems.

(** ** Options *)

Section OptionsTheorems.
Import version.

Lemma applyOptions_snoc opts opt : applyOptions (opts ++ [opt])%list = opt (applyOptions opts).
Proof. unfold applyOptions. now rewrite fold_left_app. Qed.

Lemma last_set_snoc {A : Type} (pick : setting -> option A) ss s :
  last_set pick (ss ++ [s])%list = match pick s with Some a => Some a | None => last_set pick ss end.
Proof.
  unfold last_set. rewrite omap_app. cbn [omap list_omap].
  destruct (pick s) as [a|]; [apply last_snoc | now rewrite app_nil_r].
Qed.

(** X9.  For the fields an option assigns, the last option of its kind
    in the call decides, and where none is given the default stands: the
    manifest path (["versions.yaml"]), the embedded bytes (none), git and
    build enrichment (both on), the context (none, which the loader
    reads as the background context). *)
Theorem options_last_wins (ss : list setting) :
  let o := applyOptions (option_of <$> ss) in
  manifestPath o = default ManifestFilenameYAML (last_set path_of ss)
  /\ manifestEmbed o = default "" (last_set embedded_of ss)
  /\ includeGit o = default true (last_set git_of ss)
  /\ includeBuild o = default true (last_set build_of ss)
  /\ ctx o = last_set context_set_by ss.
Proof.
  induction ss as [|s ss IH] using rev_ind; [cbn; auto|].
  cbv zeta in *. rewrite fmap_app. cbn [fmap list_fmap]. rewrite applyOptions_snoc.
  rewrite !last_set_snoc. destruct IH as (H1 & H2 & H3 & H4 & H5).
  destruct s as [path|data|[|]|[|]|vs| |c]; cbn; auto.
Qed.

(** X10.  Validators accumulate and strict mode is sticky: the
    validators of a call are those of all its [WithValidators] options,
    in the order given, and strict mode is on exactly when
    [WithStrictMode] occurs somewhere in the call; no later option
    removes a validator or turns strict mode off. *)
Theorem options_accumulate (ss : list setting) :
  let o := applyOptions (option_of <$> ss) in
  validators o = concat (validators_of <$> ss)
  /\ strictMode o = existsb is_strict ss
  /\ (forall more, exists rest,
        validators (applyOptions (option_of <$> (ss ++ more)%list)) = (validators o ++ rest)%list
        /\ (strictMode o = true ->
            strictMode (applyOptions (option_of <$> (ss ++ more)%list)) = true)).
Proof.
  assert (H : forall ss, validators (applyOptions (option_of <$> ss)) = concat (validators_of <$> ss)
                    /\ strictMode (applyOptions (option_of <$> ss)) = existsb is_strict ss).
  { clear ss. induction ss as [|s ss IH] using rev_ind; [cbn; auto|].
    rewrite !fmap_app. cbn [fmap list_fmap]. rewrite applyOptions_snoc, concat_app, existsb_app.
    destruct IH as [H1 H2]. cbn [concat existsb]. rewrite app_nil_r, orb_false_r.
    destruct s as [path|data|[|]|[|]|vs| |c];
      cbn [option_of validators strictMode WithManifestPath WithEmbedded WithGitInfo
           WithoutGitInfo WithBuildInfo WithoutBuildInfo set_includeGit set_includeBuild
           WithValidators WithStrictMode WithContext validators_of is_strict];
      rewrite ?app_nil_r, ?orb_false_r, ?orb_true_r; auto using f_equal2. }
  cbv zeta. destruct (H ss) as [H1 H2]. split; [exact H1|]. split; [exact H2|].
  intros more. destruct (H (ss ++ more)%list) as [M1 M2].
  exists (concat (validators_of <$> more)). rewrite M1, M2, H1, H2.
  rewrite fmap_app, concat_app, existsb_app. split; [reflexivity|].
  now intros ->.
Qed.

End OptionsTheorems.

(** ** Enrichment: where the git section comes from *)

Section GitSources.
Import version.

Lemma applySetting_fold settings : forall g,
  fold_left applySetting settings g =
    {| Commit := if String.eqb (Commit g) DefaultGitCommit
                 then default DefaultGitCommit (first_value VCSKeyRevision DefaultGitCommit settings)
                 else Commit g;
       Tag := Tag g;
       TreeState := if marked_modified settings then GitTreeStateDirty else TreeState g;
       CommitTime := if String.eqb (CommitTime g) ""
                     then default "" (first_value VCSKeyTime "" settings)
                     else CommitTime g |}.
Proof.
  induction settings as [|[key value] rest IH]; intros g.
  - destruct g as [c t s ct]. cbn [fold_left first_value marked_modified List.find existsb
      fmap option_fmap option_map default Commit Tag TreeState CommitTime].
    destruct (String.eqb_spec c DefaultGitCommit) as [->|], (String.eqb_spec ct "") as [->|];
      reflexivity.
  - cbn [fold_left]. rewrite IH. clear IH.
    unfold first_value, marked_modified. cbn [List.find existsb fst snd applySetting].
    destruct (String.eqb_spec key VCSKeyRevision) as [->|Hrev].
    + change (String.eqb VCSKeyRevision VCSKeyTime) with false.
      change (String.eqb VCSKeyRevision VCSKeyModified) with false. cbn [andb orb].
      destruct (String.eqb_spec (Commit g) DefaultGitCommit) as [Hc|Hc];
        cbn [Commit Tag TreeState CommitTime].
      * destruct (String.eqb_spec value DefaultGitCommit) as [->|Hv]; cbn [negb fmap option_fmap option_map default];
          reflexivity.
      * apply String.eqb_neq in Hc. now rewrite Hc.
    + cbn [andb]. destruct (String.eqb_spec key VCSKeyTime) as [->|Htime].
      * change (String.eqb VCSKeyTime VCSKeyModified) with false. cbn [andb orb].
        destruct (String.eqb_spec (CommitTime g) "") as [Hc|Hc];
          cbn [Commit Tag TreeState CommitTime].
        -- destruct (String.eqb_spec value "") as [->|Hv]; cbn [negb fmap option_fmap option_map default];
             reflexivity.
        -- apply String.eqb_neq in Hc. now rewrite Hc.
      * cbn [andb]. destruct (String.eqb_spec key VCSKeyModified) as [->|Hmod]; [|reflexivity].
        destruct (String.eqb value VCSValueTrue);
          cbn [andb orb Commit Tag TreeState CommitTime]; [|reflexivity].
        now destruct (existsb _ rest).
Qed.

Lemma applyBuildInfoGitData_fields env g :
  applyBuildInfoGitData env g =
    {| Commit := if String.eqb (Commit g) DefaultGitCommit
                 then default DefaultGitCommit (build_setting env VCSKeyRevision DefaultGitCommit)
                 else Commit g;
       Tag := Tag g;
       TreeState := if build_modified env then GitTreeStateDirty else TreeState g;
       CommitTime := if String.eqb (CommitTime g) ""
                     then default "" (build_setting env VCSKeyTime "")
                     else CommitTime g |}.
Proof.
  unfold applyBuildInfoGitData, build_setting, build_modified.
  destruct (debug_ReadBuildInfo env) as [settings|]; [apply applySetting_fold|].
  destruct g as [c t s ct]. cbn [default Commit Tag TreeState CommitTime].
  destruct (String.eqb_spec c DefaultGitCommit) as [->|], (String.eqb_spec ct "") as [->|];
    reflexivity.
Qed.

End GitSources.

Section GitSourcesTheorems.
Import version.

Lemma applyLdflagsGitInfo_fields env g :
  applyLdflagsGitInfo env g =
    {| Commit := if String.eqb (GitCommit env) DefaultGitCommit then Commit g else GitCommit env;
       Tag := if String.eqb (GitTag env) "" then Tag g else GitTag env;
       TreeState := if String.eqb (GitTreeState env) DefaultGitTreeState
                    then TreeState g else GitTreeState env;
       CommitTime := CommitTime g |}.
Proof.
  unfold applyLdflagsGitInfo. destruct g as [c t s ct].
  destruct (String.eqb (GitCommit env) DefaultGitCommit),
    (String.eqb (GitTag env) ""), (String.eqb (GitTreeState env) DefaultGitTreeState);
    reflexivity.
Qed.

Lemma applyGitCommandFallback_fields env g :
  applyGitCommandFallback env g =
    {| Commit := if String.eqb (Commit g) DefaultGitCommit
                 then (if String.eqb (getGitCommit env) "" then Commit g else getGitCommit env)
                 else Commit g;
       Tag := if String.eqb (Tag g) ""
              then (if String.eqb (getGitTag env) "" then Tag g else getGitTag env)
              else Tag g;
       TreeState := TreeState g;
       CommitTime := CommitTime g |}.
Proof.
  unfold applyGitCommandFallback. destruct g as [c t s ct]. cbn [Commit Tag TreeState CommitTime].
  destruct (String.eqb c DefaultGitCommit); [destruct (String.eqb (getGitCommit env) "")|];
    cbn [negb Commit Tag TreeState CommitTime];
    (destruct (String.eqb t ""); [destruct (String.eqb (getGitTag env) "")|]); reflexivity.
Qed.

Lemma enrichWithGitInfo_Git env info :
  Git (enrichWithGitInfo env info)
  = applyGitCommandFallback env (applyBuildInfoGitData env (applyLdflagsGitInfo env (Git info))).
Proof. reflexivity. Qed.



Lemma getGitBinary_cases env :
  getGitBinary env = "" \/
  exists p, exec_LookPath env GitCmdName = Some p /\ getGitBinary env = p
            /\ (runtime_GOOS env <> "windows" -> In p safeLocations).
Proof.
  unfold getGitBinary. destruct (exec_LookPath env GitCmdName) as [p|]; [|now left].
  destruct (String.eqb_spec (runtime_GOOS env) "windows") as [Hw|Hw]; cbn [negb].
  - right. exists p. repeat split. intros H. now destruct H.
  - destruct (existsb (String.eqb p) safeLocations) eqn:E; [|now left].
    right. exists p. repeat split. intros _.
    apply existsb_exists in E as (q & Hq & E). apply String.eqb_eq in E. now subst q.
Qed.

Lemma getGitCommit_valid env :
  getGitCommit env = "" \/ isValidCommitHash (getGitCommit env) = true.
Proof.
  unfold getGitCommit. destruct (String.eqb (getGitBinary env) ""); [now left|].
  destruct (cmd_Output env _ _) as [out|]; [|now left].
  destruct (isValidCommitHash (strings.TrimSpace out)) eqn:E; cbn [negb]; [now right | now left].
Qed.



(** X12.  The tree state and the commit time of the git section.  A
    build whose information says [vcs.modified=true] is ["dirty"],
    whatever was injected with [-ldflags]; otherwise an injected tree
    state other than ["clean"] stands, and otherwise the state is left as
    it was.  The commit time is only ever taken from the first nonempty
    [vcs.time] of the build information.  Neither depends on [git]. *)
Theorem git_tree_state_sources (env : Env) (info : Info) :
  let g := Git (enrichWithGitInfo env info) in
  (build_modified env = true -> TreeState g = GitTreeStateDirty)
  /\ (build_modified env = false -> GitTreeState env <> DefaultGitTreeState ->
      TreeState g = GitTreeState env)
  /\ (build_modified env = false -> GitTreeState env = DefaultGitTreeState ->
      TreeState g = TreeState (Git info))
  /\ (CommitTime (Git info) = "" ->
      CommitTime g = default "" (build_setting env VCSKeyTime ""))
  /\ (forall env', same_but_git env env' ->
      TreeState (Git (enrichWithGitInfo env' info)) = TreeState g
      /\ CommitTime (Git (enrichWithGitInfo env' info)) = CommitTime g).
Proof.
  cbv zeta.
  assert (E : forall env0,
    Git (enrichWithGitInfo env0 info) =
      applyGitCommandFallback env0 (applyBuildInfoGitData env0 (applyLdflagsGitInfo env0 (Git info))))
    by reflexivity.
  rewrite E, applyLdflagsGitInfo_fields, applyBuildInfoGitData_fields,
    applyGitCommandFallback_fields.
  cbn [Commit Tag TreeState CommitTime].
  split; [|split; [|split; [|split]]].
  - now intros ->.
  - intros -> H. apply String.eqb_neq in H. now rewrite H.
  - intros -> H. now rewrite H, String.eqb_refl.
  - intros ->. now rewrite String.eqb_refl.
  - intros env' (S1 & S2 & S3 & S4).
    rewrite E, applyLdflagsGitInfo_fields, applyBuildInfoGitData_fields,
      applyGitCommandFallback_fields.
    cbn [Commit Tag TreeState CommitTime]. unfold build_setting, build_modified.
    now rewrite S3, S4.
Qed.

(** X13.  The guards around the [git] command.  Outside Windows the
    binary that is run is one of the three whitelisted paths, so when
    [git] is found anywhere else, or not found, no commit and no tag is
    taken from it; and what [getGitCommit] returns is empty or has passed
    [isValidCommitHash] (7 to 40 bytes, all of them hexadecimal
    digits). *)
Theorem git_command_guarded (env : Env) :
  (runtime_GOOS env <> "windows" ->
     getGitBinary env = "" \/ In (getGitBinary env) safeLocations)
  /\ (forall p, runtime_GOOS env <> "windows" ->
        exec_LookPath env GitCmdName = Some p -> ~ In p safeLocations ->
        getGitCommit env = "" /\ getGitTag env = "")
  /\ (exec_LookPath env GitCmdName = None -> getGitCommit env = "" /\ getGitTag env = "")
  /\ (getGitCommit env = ""
      \/ ((7 <= String.length (getGitCommit env) <= 40)%nat
          /\ all_hex (getGitCommit env) = true)).
Proof.
  split; [|split; [|split]].
  - intros Hw. destruct (getGitBinary_cases env) as [H|(p & _ & -> & H)]; auto.
  - intros p Hw Hp Hunsafe.
    assert (B : getGitBinary env = "").
    { destruct (getGitBinary_cases env) as [H|(q & Hq & _ & H)]; [exact H|].
      rewrite Hp in Hq. injection Hq as <-. now destruct Hunsafe; apply H. }
    unfold getGitCommit, getGitTag. now rewrite B.
  - intros Hnone.
    assert (B : getGitBinary env = "") by (unfold getGitBinary; now rewrite Hnone).
    unfold getGitCommit, getGitTag. now rewrite B.
  - destruct (getGitCommit_valid env) as [H|H]; [now left | right].
    unfold isValidCommitHash in H.
    destruct (_ || _) eqn:B; [discriminate|]. split; [|exact H].
    apply orb_false_elim in B as [B1 B2].
    apply Nat.ltb_ge in B1, B2. lia.
Qed.

(** The white space dropped around the output of [git] is Unicode's: here
    two spaces before the hash, and a no-break space and a line feed
    after it. *)
Example TrimSpace_unicode :
  strings.TrimSpace ("  0a1b2c3" +:+ String "194"%char (String "160"%char nl)) = "0a1b2c3"
  /\ strings.TrimSpace (String "009"%char "a b" +:+ " ") = "a b"
  /\ strings.TrimSpace (String "194"%char (String "194"%char (String "133"%char "")))
     = String "194"%char "".
Proof. repeat split. Qed.

End GitSourcesTheorems.

(** ** The loader: what a loaded Info always satisfies *)

Section LoaderTheorems.
Import version.



Lemma manifestToInfo_sections env m st :
  Git (fst (manifestToInfo env m st)) = default_git
  /\ Build (fst (manifestToInfo env m st))
     = {| BuildInfo_Time := DefaultBuildTime; User := ""; GoVersion := runtime_Version env |}
  /\ loadedAt (fst (manifestToInfo env m st)) = 0.
Proof.
  unfold manifestToInfo. repeat destruct (copy_if_set _ _). cbn [fst]. repeat split.
Qed.

Lemma enrichWithBuildInfo_Build env info :
  BuildInfo_Time (Build info) = DefaultBuildTime -> User (Build info) = "" ->
  Build (enrichWithBuildInfo env info)
  = {| BuildInfo_Time := BuildTime env; User := BuildUser env;
       GoVersion := runtime_Version env |}.
Proof.
  intros Ht Hu. unfold enrichWithBuildInfo. cbn [Build set_Build].
  destruct (String.eqb_spec (BuildTime env) DefaultBuildTime) as [E1|E1],
    (String.eqb_spec (BuildUser env) DefaultBuildUser) as [E2|E2];
    cbn [negb BuildInfo_Time User GoVersion]; rewrite ?Ht, ?Hu, ?E1, ?E2; reflexivity.
Qed.

Lemma snapshot_sections env options m st info st' :
  snapshot env options m st = (info, st') ->
  loadedAt info = time_Now env
  /\ Git info = (if includeGit options
                 then applyGitCommandFallback env
                        (applyBuildInfoGitData env (applyLdflagsGitInfo env default_git))
                 else default_git)
  /\ Build info = (if includeBuild options
                   then {| BuildInfo_Time := BuildTime env; User := BuildUser env;
                           GoVersion := runtime_Version env |}
                   else {| BuildInfo_Time := DefaultBuildTime; User := "";
                           GoVersion := runtime_Version env |}).
Proof.
  unfold snapshot. destruct (manifestToInfo_sections env m st) as (Hg & Hb & _).
  destruct (manifestToInfo env m st) as [i0 st0]. cbn [fst] in Hg, Hb.
  intros [= <- <-].
  destruct (includeGit options), (includeBuild options);
    cbn [loadedAt Git Build enrichWithGitInfo enrichWithBuildInfo set_Git set_Build set_loadedAt];
    rewrite ?Hg; (split; [reflexivity|]); (split; [reflexivity|]);
    try (rewrite Hb; reflexivity);
    match goal with
    | |- context [BuildTime env] =>
        apply (enrichWithBuildInfo_Build env
                 (set_Git _ (set_loadedAt (time_Now env) i0))) ||
        apply (enrichWithBuildInfo_Build env (set_loadedAt (time_Now env) i0))
    end; cbn [Build set_Git set_loadedAt]; now rewrite Hb.
Qed.

Lemma load_success env opts w p w' :
  loadVersionInfo env opts w = (Ok p, w') ->
  let options := applyOptions opts in
  exists m st1 rd info st2 info',
    manifest_stage env options (store w) = (Ok (m, st1), rd)
    /\ snapshot env options m st1 = (info, st2)
    /\ runValidators (validators options) (context_of options) info st2 (effects w)
       = (None, info', store w', effects w')
    /\ p = length (infos w) /\ infos w' = (infos w ++ [info'])%list
    /\ reads w' = (reads w ++ rd)%list /\ runs w' = S (runs w).
Proof.
  rewrite loadVersionInfo_stages. cbv zeta.
  destruct (manifest_stage _ _ _) as [[[m st]|err] rd]; [|discriminate].
  destruct (snapshot _ _ _ _) as [info st'] eqn:Es.
  destruct (runValidators _ _ _ _ _) as [[[[err|] info'] st''] eff] eqn:Ev; [discriminate|].
  intros [= <- <-]. cbn [store infos reads effects runs].
  exists m, st, rd, info, st', info'. repeat split; assumption.
Qed.

(** Validators that do not write the [Info] leave the loop with the
    [Info] it started with. *)
Lemma runValidators_reads_only vs : forall c info st eff e info' st' eff',
  Forall reads_only vs ->
  runValidators vs c info st eff = (e, info', st', eff') -> info' = info.
Proof.
  induction vs as [|v vs IH]; intros c info st eff e info' st' eff' Hro.
  - cbn [runValidators]. now intros [= _ <- _ _].
  - apply Forall_cons in Hro as [Hv Hvs]. cbn [runValidators].
    destruct (Hv c info st eff) as (e1 & st1 & eff1 & ->).
    destruct e1 as [err|].
    + now intros [= _ <- _ _].
    + now apply IH.
Qed.




(** A validator that writes the snapshot: the [Info] loaded is the one
    it left, not the one the manifest gave. *)
Example validator_writes_loaded_Info :
  exists i w',
    loadVersionInfo (fixture_env doc_files) [WithValidators [renaming_double "other"]]
      empty_world = (Ok 0%nat, w')
    /\ deref w' 0 = Some i
    /\ Name (Project i) = "other" /\ Version (Project i) = "1.2.3".
Proof. vm_compute. eexists _, _. repeat split. Qed.

(** X15.  What the two enrichment switches do to a loaded [Info], when
    no configured validator writes it.  With git enrichment off its git
    section is the default one (commit ["dev"], tree state ["clean"], no
    tag, no commit time) whatever was injected or could be found; with
    it on, it is the default section passed through the three sources.
    With build enrichment off the build time is ["unknown"] and the user
    empty; with it on they are the injected ones (which default to the
    same values). *)
Theorem enrichment_switches (env : Env) (opts : list Option) (w w' : World) (p : nat)
    (i : Info) :
  loadVersionInfo env opts w = (Ok p, w') ->
  deref w' p = Some i ->
  Forall reads_only (validators (applyOptions opts)) ->
  (includeGit (applyOptions opts) = false -> Git i = default_git)
  /\ (includeGit (applyOptions opts) = true ->
      Git i = Git (enrichWithGitInfo env (set_Git default_git i)))
  /\ (includeBuild (applyOptions opts) = false ->
      Build i = {| BuildInfo_Time := DefaultBuildTime; User := "";
                   GoVersion := runtime_Version env |})
  /\ (includeBuild (applyOptions opts) = true ->
      Build i = {| BuildInfo_Time := BuildTime env; User := BuildUser env;
                   GoVersion := runtime_Version env |}).
Proof.
  intros H Hd Hro.
  destruct (load_success _ _ _ _ _ H)
    as (m & st1 & rd & info & st2 & i' & Hm & Hs & Hv & -> & Hi & _).
  unfold deref in Hd. rewrite Hi, list_lookup_middle in Hd by reflexivity.
  injection Hd as ->.
  rewrite (runValidators_reads_only _ _ _ _ _ _ _ _ _ Hro Hv).
  destruct (snapshot_sections _ _ _ _ _ _ Hs) as (_ & Hg & Hb).
  rewrite Hg, Hb.
  split; [now intros ->|]. split; [now intros ->|]. split; now intros ->.
Qed.

Lemma enrichment_switches_witness :
  exists i w',
    loadVersionInfo (release_env (fixture_env doc_files) "0a1b2c3" "v1.2.3")
      [WithoutGitInfo; WithoutBuildInfo] empty_world = (Ok 0%nat, w')
    /\ deref w' 0 = Some i
    /\ Git i = default_git
    /\ Build i = {| BuildInfo_Time := "unknown"; User := ""; GoVersion := "go1.24.6" |}.
Proof.
  set (env := release_env (fixture_env doc_files) "0a1b2c3" "v1.2.3").
  assert (Hr : fst (loadVersionInfo env [WithoutGitInfo; WithoutBuildInfo] empty_world)
               = Ok 0%nat) by (vm_compute; reflexivity).
  destruct (loadVersionInfo env [WithoutGitInfo; WithoutBuildInfo] empty_world)
    as [r w'] eqn:Hload.
  cbn [fst] in Hr. subst r.
  destruct (load_success _ _ _ _ _ Hload)
    as (m & st1 & rd & info & st2 & i & _ & _ & _ & _ & Hi & _).
  assert (Hd : deref w' 0 = Some i) by (unfold deref; rewrite Hi; reflexivity).
  destruct (enrichment_switches env _ _ _ _ i Hload Hd (List.Forall_nil _))
    as (Hg & _ & Hb & _).
  exists i, w'. split; [reflexivity|]. split; [exact Hd|].
  split; [apply Hg; reflexivity | apply Hb; reflexivity].
Defined.

End LoaderTheorems.

(** ** The loader: the maps of an Info are copies *)

Section CopyIn.
Import version.

Lemma copy_if_set_new {V : Type} (h h' : gmap loc (gmap string V)) (r r' : mapref) :
  copy_if_set h r = (r', h') ->
  forall l, r' = Some l -> (l ∉ dom h) /\ (l ∈ dom h').
Proof.
  intros C l Hl. destruct (copy_if_set_spec _ _ _ _ C) as (_ & _ & F & _ & A).
  split; [|now apply A]. intros Hin. now destruct (F l Hin) as [Hne _].
Qed.

Lemma manifestToInfo_maps env m st i st' :
  manifest_allocated st m ->
  manifestToInfo env m st = (i, st') ->
  forall d,
    (field_of d i = None <-> manifest_field d m = None)
    /\ contents d st' (field_of d i) = contents d st (manifest_field d m)
    /\ (forall l, field_of d i = Some l -> (l ∉ dom (maps_of d st)) /\ (l ∈ dom (maps_of d st')))
    /\ (forall l, l ∈ dom (maps_of d st) -> maps_of d st' !! l = maps_of d st !! l).
Proof.
  intros Hm. unfold manifestToInfo.
  destruct (copy_if_set (smaps st) (Schemas m)) as [s h1] eqn:Cs.
  destruct (copy_if_set h1 (APIs m)) as [a h2] eqn:Ca.
  destruct (copy_if_set h2 (Components m)) as [c h3] eqn:Cc.
  destruct (copy_if_set (amaps st) (Custom m)) as [u g1] eqn:Cu.
  intros [= <- <-].
  destruct (copy_if_set_spec _ _ _ _ Cs) as (Ns & Es & Fs & Ds & As).
  destruct (copy_if_set_spec _ _ _ _ Ca) as (Na & Ea & Fa & Da & Aa).
  destruct (copy_if_set_spec _ _ _ _ Cc) as (Nc & Ec & Fc & Dc & Ac).
  destruct (copy_if_set_spec _ _ _ _ Cu) as (Nu & Eu & Fu & Du & Au).
  pose proof (copy_if_set_new _ _ _ _ Cs) as Ws.
  pose proof (copy_if_set_new _ _ _ _ Ca) as Wa.
  pose proof (copy_if_set_new _ _ _ _ Cc) as Wc.
  pose proof (copy_if_set_new _ _ _ _ Cu) as Wu.
  assert (Hold : forall l, l ∈ dom (smaps st) -> h3 !! l = smaps st !! l).
  { intros l Hl. destruct (Fs l Hl) as [_ <-]. destruct (Fa l (Ds l Hl)) as [_ <-].
    now destruct (Fc l (Da l (Ds l Hl))) as [_ <-]. }
  intros d. unfold contents.
  destruct d; cbn [field_of manifest_field maps_of smaps amaps schemas apis components custom
                   value_of].
  - split; [exact Ns|]. split; [|split; [|exact Hold]].
    + rewrite <- Es. apply entries_frame. intros l ->. destruct (Ws l eq_refl) as [_ W].
      destruct (Fa l W) as [_ <-]. now destruct (Fc l (Da l W)) as [_ ->].
    + intros l ->. destruct (Ws l eq_refl) as [W1 W2]. split; [exact W1|]. now apply Dc, Da.
  - split; [exact Na|]. split; [|split; [|exact Hold]].
    + transitivity (entries h1 (APIs m)).
      * rewrite <- Ea. apply entries_frame. intros l ->. destruct (Wa l eq_refl) as [_ W].
        now destruct (Fc l W) as [_ ->].
      * apply entries_frame. intros l Hl. apply Fs, (Hm DAPIs l Hl).
    + intros l ->. destruct (Wa l eq_refl) as [W1 W2]. split; [|now apply Dc].
      intros Hin. now apply W1, Ds.
  - split; [exact Nc|]. split; [|split; [|exact Hold]].
    + rewrite Ec. apply entries_frame. intros l Hl.
      pose proof (Hm DComponents l Hl) as Hin. cbn in Hin.
      destruct (Fs l Hin) as [_ <-]. now destruct (Fa l (Ds l Hin)) as [_ ->].
    + intros l ->. destruct (Wc l eq_refl) as [W1 W2]. split; [|exact W2].
      intros Hin. now apply W1, Da, Ds.
  - split; [exact Nu|]. split; [exact Eu|]. split; [|intros l Hl; now apply Fu].
    intros l ->. now apply Wu.
Qed.

(** Working on the map [r] of one dimension leaves the map [l] of any
    dimension alone, unless it is the same map. *)
Lemma mutate_dim_frame d d' st r ops st' l :
  mutate_dim d st r ops = Some st' ->
  (same_maps d d' = true -> forall lr, r = Some lr -> l <> lr) ->
  maps_of d' st' !! l = maps_of d' st !! l.
Proof.
  unfold mutate_dim. destruct (mutate (maps_of d st) r ops) as [h|] eqn:M; [|discriminate].
  intros [= <-] Hl. pose proof (mutate_frame _ _ _ _ M) as F.
  assert (G : same_maps d d' = true -> h !! l = maps_of d st !! l).
  { intros Hs. apply F. intros ->. now apply (Hl Hs l). }
  destruct d, d'; cbn [maps_of set_maps with_smaps with_amaps smaps amaps value_of] in *;
    try reflexivity; now apply G.
Qed.

(** X16.  The maps of an [Info] are copies taken when it is built.  For
    each of the four dimensions the map the [Info] holds is nil exactly
    when the manifest's is, has the entries the manifest's map had, and
    is a map object that did not exist before; no map that existed is
    changed.  So whatever is later assigned to or deleted from a map of
    the decoded manifest, every map of the [Info] keeps its entries. *)
Theorem manifestToInfo_copies (env : Env) (m : Manifest) (st st' st'' : Store) (i : Info)
    (d : Dimension) (ops : list (map_op (V:=value_of d))) :
  manifest_allocated st m ->
  manifestToInfo env m st = (i, st') ->
  mutate_dim d st' (manifest_field d m) ops = Some st'' ->
  (forall d',
     (field_of d' i = None <-> manifest_field d' m = None)
     /\ contents d' st' (field_of d' i) = contents d' st (manifest_field d' m)
     /\ (forall l, field_of d' i = Some l -> l ∉ dom (maps_of d' st))
     /\ (forall l, l ∈ dom (maps_of d' st) -> maps_of d' st' !! l = maps_of d' st !! l))
  /\ (forall d', contents d' st'' (field_of d' i) = contents d' st (manifest_field d' m)).
Proof.
  intros Hm Hi Hmut. pose proof (manifestToInfo_maps _ _ _ _ _ Hm Hi) as H.
  split.
  - intros d'. destruct (H d') as (N & E & W & F).
    split; [exact N|]. split; [exact E|]. split; [|exact F].
    intros l Hl. now destruct (W l Hl).
  - intros d'. destruct (H d') as (N & E & W & F). rewrite <- E.
    unfold contents. apply entries_frame. intros l Hl.
    apply (mutate_dim_frame d d' st' (manifest_field d m) ops st'' l Hmut).
    intros Hs lr Hr ->. destruct (W lr Hl) as [Hnew _]. apply Hnew.
    pose proof (Hm d lr Hr) as Hin. clear - Hs Hin.
    destruct d, d'; try discriminate Hs; exact Hin.
Qed.

Lemma fixture_manifest_allocated : manifest_allocated fixture_store fixture_manifest.
Proof.
  intros [] l; cbn [manifest_field fixture_manifest Schemas APIs Components Custom];
    intros [= <-]. cbn [maps_of fixture_store smaps].
  rewrite dom_singleton. now apply elem_of_singleton.
Qed.

(** The manifest's own map is overwritten and emptied after the load. *)
Lemma manifestToInfo_copies_witness :
  let ops := [OpAssign "db" "0"; OpDelete "db"] in
  let r := manifestToInfo (fixture_env ∅) fixture_manifest fixture_store in
  exists st'',
    mutate_dim DSchemas (snd r) (Some 1%positive) ops = Some st''
    /\ contents DSchemas st'' (Some 1%positive) = ∅
    /\ contents DSchemas st'' (schemas (fst r)) = {[ "db" := "47" ]}.
Proof.
  intros ops r.
  assert (M : exists st'', mutate_dim DSchemas (snd r) (Some 1%positive) ops = Some st'')
    by (vm_compute; eexists; reflexivity).
  destruct M as [st'' M]. exists st''.
  destruct (manifestToInfo_copies (fixture_env ∅) fixture_manifest fixture_store (snd r) st''
              (fst r) DSchemas ops fixture_manifest_allocated (surjective_pairing r) M)
    as (_ & H).
  split; [exact M|].
  split; [vm_compute in M; injection M as <-; vm_compute; reflexivity|].
  change (schemas (fst r)) with (field_of DSchemas (fst r)).
  rewrite (H DSchemas). vm_compute. reflexivity.
Defined.

End CopyIn.

(** ** Getters: one item and the whole map *)

Section ItemGetters.
Import version.

Lemma item_getter_index b i st name :
  item_getter b i st name = index_entries (entries (smaps st) (builtin_field b i)) name.
Proof.
  destruct b; cbn [item_getter builtin_field];
    unfold GetSchemaVersion, GetAPIVersion, GetComponentVersion, index_string, index_entries;
    match goal with |- context [match ?f with Some _ => _ | None => _ end] => destruct f end;
    reflexivity.
Qed.

Lemma map_getter_copy b i st :
  map_getter b i st =
    (fst (copy_if_set (smaps st) (builtin_field b i)),
     with_smaps (snd (copy_if_set (smaps st) (builtin_field b i))) st).
Proof.
  destruct b; cbn [map_getter builtin_field];
    unfold GetSchemas, GetAPIs, GetComponents, copy_if_set;
    match goal with |- context [match ?f with Some _ => _ | None => _ end] => destruct f end;
    try (destruct (copy_map _ _)); cbn [fst snd]; try reflexivity;
    destruct st; reflexivity.
Qed.

(** X17.  The per-item getter and the map getter of a dimension agree:
    [GetSchemaVersion(name)] (and likewise for APIs and components)
    answers what indexing the map returned by [GetSchemas()] answers,
    the value with [true] when [name] has an entry, even an empty one,
    and [("", false)] when it has none or the dimension is nil. *)
Theorem item_getter_agrees (b : BuiltinDim) (i : Info) (st st1 : Store) (r : mapref)
    (name : string) :
  map_getter b i st = (r, st1) ->
  item_getter b i st name = index_entries (entries (smaps st1) r) name
  /\ (forall v, item_getter b i st name = (v, true) <->
                entries (smaps st) (builtin_field b i) !! name = Some v)
  /\ (item_getter b i st name = ("", false) <->
      entries (smaps st) (builtin_field b i) !! name = None)
  /\ (builtin_field b i = None -> item_getter b i st name = ("", false)).
Proof.
  rewrite map_getter_copy, item_getter_index.
  destruct (copy_if_set (smaps st) (builtin_field b i)) as [r' h'] eqn:C.
  cbn [fst snd]. intros [= <- <-].
  destruct (copy_if_set_spec _ _ _ _ C) as (_ & E & _).
  cbn [smaps with_smaps]. rewrite E. split; [reflexivity|].
  unfold index_entries.
  split; [|split].
  - intros v. destruct (entries (smaps st) (builtin_field b i) !! name) as [v'|].
    + split; [now intros [= ->] | now intros [= ->]].
    + split; discriminate.
  - destruct (entries (smaps st) (builtin_field b i) !! name) as [v'|].
    + split; discriminate.
    + split; reflexivity.
  - intros ->. reflexivity.
Qed.

Lemma item_getter_agrees_witness :
  item_getter BSchema fixture_info fixture_store "db"
  = index_entries
      (entries (smaps (snd (map_getter BSchema fixture_info fixture_store)))
         (fst (map_getter BSchema fixture_info fixture_store))) "db"
  /\ item_getter BSchema fixture_info fixture_store "db" = ("47", true).
Proof.
  destruct (item_getter_agrees BSchema fixture_info fixture_store
              (snd (map_getter BSchema fixture_info fixture_store))
              (fst (map_getter BSchema fixture_info fixture_store)) "db"
              (surjective_pairing _)) as (H & Hv & _).
  split; [exact H|]. apply Hv. vm_compute. reflexivity.
Defined.

End ItemGetters.

(** ** The loader: a manifest that cannot be read *)

Section Unreadable.
Import version.

Lemma wrapErrorWithHint_text e category msg hint :
  wrapErrorWithHint e category msg hint
  = Wrapf ("[" +:+ category +:+ "] " +:+ msg +:+ ": " +:+ Error e +:+ nl +:+ "Hint: " +:+ hint) e.
Proof.
  assert (H : wrapErrorWithHint e category msg hint
              = Wrapf ("[" +:+ category +:+ "] " +:+ msg +:+ ": " +:+ Error e +:+ nl
                       +:+ "Hint: " +:+ (hint +:+ "")) e) by reflexivity.
  rewrite H. now rewrite string_app_nil_r.
Qed.

(** X18.  A manifest file that is there and cannot be read (permission
    denied, a directory, an I/O error: any read error not of the
    not-found kind) makes the load fail in strict mode and without it;
    the defaults are not used.  The error wraps the read error, with its
    text in the message; the file was asked for once, no validator has
    run and no [Info] is allocated. *)
Theorem unreadable_manifest_fails (env : Env) (opts : list Option) (w : World) (e : error) :
  let options := applyOptions opts in
  manifestEmbed options = "" -> manifestPath options <> "" ->
  ReadFile env (manifestPath options) = Err e -> os.IsNotExist e = false ->
  loadVersionInfo env opts w
  = (Err (Wrapf ("[manifest] failed to load manifest: " +:+ Error e +:+ nl +:+ "Hint: "
                 +:+ ErrHintParseYAML) e),
     after_load w (store w) [manifestPath options] (effects w)).
Proof.
  intros options Hemb Hpath Hread Hkind.
  rewrite loadVersionInfo_stages. fold options. cbv zeta. unfold manifest_stage.
  rewrite loadManifest_cases, Hemb. apply String.eqb_neq in Hpath. rewrite Hpath.
  cbn [String.eqb negb]. rewrite Hread, Hkind. cbn [negb].
  rewrite wrapErrorWithHint_text. now destruct (strictMode options).
Qed.

Lemma unreadable_manifest_fails_witness :
  loadVersionInfo (fixture_env locked_files) [WithStrictMode] empty_world
  = (Err (Wrapf ("[manifest] failed to load manifest: "
                 +:+ Error (PathError "open" "versions.yaml" EACCES) +:+ nl +:+ "Hint: "
                 +:+ ErrHintParseYAML) (PathError "open" "versions.yaml" EACCES)),
     after_load empty_world (store empty_world) ["versions.yaml"] (effects empty_world)).
Proof.
  apply (unreadable_manifest_fails (fixture_env locked_files) [WithStrictMode] empty_world
           (PathError "open" "versions.yaml" EACCES)); [reflexivity | discriminate | | ];
    reflexivity.
Defined.

End Unreadable.

(** ** The singleton, one caller after the other *)

Section SingletonLaws.
Import version.

Lemma Initialize_first env opts g w :
  initOnce g = false ->
  Initialize env opts g w =
    (err_of (fst (loadVersionInfo env opts w)),
     (state_after (instance g) (fst (loadVersionInfo env opts w)),
      snd (loadVersionInfo env opts w))).
Proof.
  intros Ho. unfold Initialize, onceDo, initBody. rewrite Ho.
  destruct (loadVersionInfo env opts w) as [[p|e] w']; reflexivity.
Qed.

Lemma Get_first env g w :
  initOnce g = false -> IsInitialized g = false ->
  Get env g w =
    (fst (loadVersionInfo env [] w),
     (state_after (instance g) (fst (loadVersionInfo env [] w)),
      snd (loadVersionInfo env [] w))).
Proof.
  intros Ho Hi. apply IsInitialized_false in Hi.
  change (loadVersionInfo env [] w) with (loadVersionInfo env [WithGitInfo; WithBuildInfo] w).
  destruct g as [inst once ierr]. cbn [instance initOnce] in *. subst once.
  unfold Get, onceDo, initBody. cbn [instance initOnce].
  destruct Hi as [-> | ->];
    destruct (loadVersionInfo env [WithGitInfo; WithBuildInfo] w) as [[p|e] w']; reflexivity.
Qed.

Lemma call_after_success env p w c :
  run_call env c (published_state p) w = (outcome_after_success p c, (published_state p, w)).
Proof. destruct c; reflexivity. Qed.

Lemma calls_after_success env p w cs :
  run_calls env cs (published_state p) w
  = (List.map (outcome_after_success p) cs, (published_state p, w)).
Proof.
  induction cs as [|c cs IH]; [reflexivity|].
  cbn [run_calls List.map]. rewrite call_after_success. cbn [fst snd]. now rewrite IH.
Qed.

(** X19.  A successful initialization is final.  When the pipeline
    succeeds inside [Initialize], or inside the [Get] that initializes,
    the call returns without error (the pointer, for [Get]) and
    [IsInitialized] becomes true; from then on any sequence of calls
    leaves the singleton and the world as they are: the pipeline does
    not run again, [Get] and [MustGet] return the same pointer,
    and [Initialize], whatever its options, returns the already-called
    error and replaces nothing. *)
Theorem successful_initialization_is_final (env : Env) (g : Singleton) (w w' : World)
    (p : nat) (cs : list call) :
  initOnce g = false ->
  IsInitialized g = false ->
  (forall opts, loadVersionInfo env opts w = (Ok p, w') ->
     Initialize env opts g w = (None, (published_state p, w')))
  /\ (loadVersionInfo env [WithGitInfo; WithBuildInfo] w = (Ok p, w') ->
      Get env g w = (Ok p, (published_state p, w')))
  /\ IsInitialized (published_state p) = true
  /\ run_calls env cs (published_state p) w'
     = (List.map (outcome_after_success p) cs, (published_state p, w')).
Proof.
  intros Ho Hi. split; [|split; [|split]].
  - intros opts Hl. rewrite (Initialize_first _ _ _ _ Ho), Hl. reflexivity.
  - intros Hl. rewrite (Get_first _ _ _ Ho Hi).
    change (loadVersionInfo env [] w) with (loadVersionInfo env [WithGitInfo; WithBuildInfo] w).
    rewrite Hl. reflexivity.
  - reflexivity.
  - apply calls_after_success.
Qed.

Lemma successful_initialization_is_final_witness :
  exists w',
    Initialize (fixture_env doc_files) [WithStrictMode] uninitialized empty_world
      = (None, (published_state 0, w'))
    /\ run_calls (fixture_env doc_files)
         [CallInitialize [WithManifestPath "other.yaml"]; CallGet; CallIsInitialized; CallMustGet]
         (published_state 0) w'
       = ([InitializeOutcome (Some already_initialized); GetOutcome (Ok 0%nat);
           IsInitializedOutcome true; MustGetOutcome (inl 0%nat)],
          (published_state 0, w')).
Proof.
  assert (Hr : fst (loadVersionInfo (fixture_env doc_files) [WithStrictMode] empty_world)
               = Ok 0%nat) by (vm_compute; reflexivity).
  destruct (loadVersionInfo (fixture_env doc_files) [WithStrictMode] empty_world)
    as [r w'] eqn:Hload.
  cbn [fst] in Hr. subst r. exists w'.
  destruct (successful_initialization_is_final (fixture_env doc_files) uninitialized
              empty_world w' 0
              [CallInitialize [WithManifestPath "other.yaml"]; CallGet; CallIsInitialized;
               CallMustGet] eq_refl eq_refl) as (HI & _ & _ & Hcalls).
  split; [apply HI, Hload | exact Hcalls].
Defined.

(** X20.  [Get] on a singleton that has not been initialized loads as
    [New()] without options does (the two options it passes are the
    defaults), returns that result, and uses up the one initialization:
    an [Initialize] after it, whatever its options, gets the
    already-called error and changes nothing. *)
Theorem Get_initializes_with_defaults (env : Env) (g : Singleton) (w : World) :
  initOnce g = false ->
  IsInitialized g = false ->
  fst (Get env g w) = fst (New env [] w)
  /\ snd (snd (Get env g w)) = snd (New env [] w)
  /\ (forall opts w2,
        Initialize env opts (fst (snd (Get env g w))) w2
        = (Some already_initialized, (fst (snd (Get env g w)), w2))).
Proof.
  intros Ho Hi. rewrite (Get_first _ _ _ Ho Hi). unfold New. cbn [fst snd].
  split; [reflexivity|]. split; [reflexivity|].
  intros opts w2. destruct (fst (loadVersionInfo env [] w)); reflexivity.
Qed.

Lemma Get_initializes_with_defaults_witness :
  fst (Get (fixture_env doc_files) uninitialized empty_world)
  = fst (New (fixture_env doc_files) [] empty_world)
  /\ fst (Initialize (fixture_env doc_files) [WithStrictMode]
            (fst (snd (Get (fixture_env doc_files) uninitialized empty_world))) empty_world)
     = Some already_initialized.
Proof.
  destruct (Get_initializes_with_defaults (fixture_env doc_files) uninitialized empty_world
              eq_refl eq_refl) as (H1 & _ & H3).
  split; [exact H1|]. now rewrite H3.
Defined.

(** X21.  [Reset] panics outside of [go test], whatever the state.
    Under [go test] it leaves a singleton that is not initialized
    whatever it was before (published or failed), and on which the next
    [Initialize] runs the pipeline again with its own options and
    returns that run's result, and the next [Get] loads as [New()]
    without options does. *)
Theorem Reset_reinitializes (env : Env) (g : Singleton) :
  (testing_Testing env = false -> Reset env g = None)
  /\ (testing_Testing env = true ->
      Reset env g = Some reset_state
      /\ IsInitialized reset_state = false
      /\ (forall opts w,
            Initialize env opts reset_state w
            = (err_of (fst (loadVersionInfo env opts w)),
               (state_after (Some None) (fst (loadVersionInfo env opts w)),
                snd (loadVersionInfo env opts w))))
      /\ (forall w,
            Get env reset_state w
            = (fst (New env [] w),
               (state_after (Some None) (fst (New env [] w)), snd (New env [] w))))).
Proof.
  split.
  - intros H. unfold Reset. now rewrite H.
  - intros H. unfold Reset. rewrite H. cbn [negb].
    split; [reflexivity|]. split; [reflexivity|]. split.
    + intros opts w. now rewrite (Initialize_first env opts reset_state w eq_refl).
    + intros w. now rewrite (Get_first env reset_state w eq_refl eq_refl).
Qed.

End SingletonLaws.

(** ** Validators: lowering the minimum *)

Section ValidatorLaws.
Import version.

Lemma not_less_le a m m' :
  semver.LessThan a m = false -> semver.LessThanOrEqual m' m = true ->
  semver.LessThan a m' = false.
Proof.
  unfold semver.LessThan, semver.LessThanOrEqual. rewrite !Compare_sign.
  intros H1 H2. destruct (precedence a m') eqn:E; try reflexivity. exfalso.
  destruct (precedence m' m) eqn:E'; try discriminate H2.
  - apply precedence_eq in E'.
    assert (Hc : precedence m' a = precedence m a) by now apply precedence_key_eq.
    rewrite (precedence_antisym a m'), (precedence_antisym a m), E in Hc.
    destruct (precedence a m); discriminate.
  - now rewrite (precedence_trans a m' m E E') in H1.
Qed.

(** X22.  Lowering the minimum never turns acceptance into rejection:
    when a built-in validator accepts an [Info] with the minimum
    [minimum], the validator for the same item with any minimum that
    parses and is not above [minimum] (by [LessThanOrEqual]) accepts it
    too. *)
Theorem validator_minimum_monotone (b : BuiltinDim) (item minimum minimum' : string)
    (c : Context) (info : Info) (st : Store) (m m' : semver.Version) :
  semver.Parse minimum = Ok m ->
  semver.Parse minimum' = Ok m' ->
  semver.LessThanOrEqual m' m = true ->
  genericVersionValidator_Validate (builtin_validator b item minimum) c info st = None ->
  genericVersionValidator_Validate (builtin_validator b item minimum') c info st = None.
Proof.
  intros Hm Hm' Hle. rewrite !Validate_expected. unfold expected_verdict.
  destruct (lookup_item b info st item) as [actual|]; [|discriminate].
  destruct (semver.Parse actual) as [a|]; [|discriminate].
  rewrite Hm, Hm'. destruct (semver.LessThan a m) eqn:E; [discriminate|]. intros _.
  now rewrite (not_less_le a m m' E Hle).
Qed.

Lemma validator_minimum_monotone_witness :
  genericVersionValidator_Validate (builtin_validator BSchema "db" "v40.1") Background
    fixture_info fixture_store = None.
Proof.
  apply (validator_minimum_monotone BSchema "db" "47" "v40.1" Background fixture_info
           fixture_store
           {| semver.Major := 47; semver.Minor := 0; semver.Patch := 0;
              semver.Prerelease := ""; semver.Build := "" |}
           {| semver.Major := 40; semver.Minor := 1; semver.Patch := 0;
              semver.Prerelease := ""; semver.Build := "" |});
    vm_compute; reflexivity.
Defined.

End ValidatorLaws.

(** ** HTTP handlers *)

Section HTTPTheorems.
Import version.

Lemma Get_pointer env g wd p gw :
  Get env g wd = (Ok p, gw) -> valid_instance g wd ->
  exists i, deref (snd gw) p = Some i.
Proof.
  unfold Get. intros H Hv.
  destruct (instance g) as [[q|]|] eqn:Ei.
  - injection H as <- <-. destruct (Hv q Ei) as [i Hi]. now exists i.
  - unfold onceDo in H. destruct (initOnce g).
    + cbn [fst] in H. rewrite Ei in H. destruct (initError g); discriminate.
    + unfold initBody in H.
      destruct (loadVersionInfo env [WithGitInfo; WithBuildInfo] wd) as [[q|e] wd'] eqn:El;
        cbn [fst initError instance] in H; [|discriminate].
      injection H as <- <-. cbn [snd].
      destruct (load_infos _ _ _ _ _ El) as [-> [i Hi]]. exists i.
      unfold deref. rewrite Hi. now apply list_lookup_middle.
  - unfold onceDo in H. destruct (initOnce g).
    + cbn [fst] in H. rewrite Ei in H. destruct (initError g); discriminate.
    + unfold initBody in H.
      destruct (loadVersionInfo env [WithGitInfo; WithBuildInfo] wd) as [[q|e] wd'] eqn:El;
        cbn [fst initError instance] in H; [|discriminate].
      injection H as <- <-. cbn [snd].
      destruct (load_infos _ _ _ _ _ El) as [-> [i Hi]]. exists i.
      unfold deref. rewrite Hi. now apply list_lookup_middle.
Qed.

Lemma Error_response w text code :
  http.wrote w = None ->
  status (http.Error w text code) = Some code
  /\ sent (http.Error w text code) "Content-Type" = Some ["text/plain; charset=utf-8"]
  /\ http.body (http.Error w text code) = http.body w +:+ text +:+ nl.
Proof.
  intros Hw. unfold http.Error, http.Write, http.WriteHeader, http.Set_, http.Del,
    http.with_header, status, sent. cbn [http.wrote http.header http.body]. rewrite Hw.
  cbn [http.wrote http.header http.body fmap option_fmap option_map fst].
  split; [reflexivity|]. split; [|reflexivity].
  unfold http.Header_Set, http.Header. rewrite lookup_insert_ne by discriminate.
  apply lookup_insert_eq.
Qed.

Lemma Encode_response w encoded code :
  http.wrote w = None ->
  status (Encode (http.WriteHeader w code) encoded) = Some code
  /\ (forall key, sent (Encode (http.WriteHeader w code) encoded) key = http.header w !! key)
  /\ http.body (Encode (http.WriteHeader w code) encoded)
     = http.body w +:+ encoded_line encoded.
Proof.
  intros Hw. unfold Encode, http.Write, http.WriteHeader, status, sent, encoded_line.
  rewrite Hw. destruct encoded as [b|e];
    cbn [http.wrote http.header http.body fmap option_fmap option_map fst];
    rewrite ?string_app_nil_r; repeat split.
Qed.

(** X23.  The version endpoint answers every request on a writer
    nothing was sent on, in one of three ways.  A method other than GET
    gets 405 and does not touch the singleton (it does not trigger the
    initialization).  A GET for which [Get] fails gets 500 with a fixed
    plain-text message; the cause is not sent.  A GET for which [Get]
    succeeds gets 200 with the JSON content type, the cache header, and
    as body the encoding of that [Info] followed by a newline (nothing
    if the encoding fails, the status being sent already). *)
Theorem Handler_responds (codec : Codec) (env : Env) (r : http.Request)
    (w : http.ResponseWriter) (g : Singleton) (wd : World) :
  http.wrote w = None ->
  valid_instance g wd ->
  exists w' gw,
    Handler codec env r w g wd = Some (w', gw)
    /\ ((http.Method r <> "GET" /\ gw = (g, wd)
         /\ status w' = Some 405
         /\ http.body w' = http.body w +:+ "Method not allowed" +:+ nl)
        \/ (http.Method r = "GET" /\ (exists e, Get env g wd = (Err e, gw))
            /\ status w' = Some 500
            /\ sent w' "Content-Type" = Some ["text/plain; charset=utf-8"]
            /\ http.body w' = http.body w +:+ "Failed to get version info" +:+ nl)
        \/ (http.Method r = "GET"
            /\ exists p i,
                Get env g wd = (Ok p, gw) /\ deref (snd gw) p = Some i
                /\ status w' = Some 200
                /\ sent w' "Content-Type" = Some ["application/json"]
                /\ sent w' "Cache-Control" = Some ["public, max-age=300"]
                /\ http.body w'
                   = http.body w +:+ encoded_line (MarshalJSON codec i (store (snd gw))))).
Proof.
  intros Hw Hv. unfold Handler.
  destruct (String.eqb_spec (http.Method r) http.MethodGet) as [Hm|Hm]; cbn [negb].
  - destruct (Get env g wd) as [[p|e] gw] eqn:EG.
    + destruct (Get_pointer _ _ _ _ _ EG Hv) as [i Hi]. rewrite Hi.
      eexists _, gw. split; [reflexivity|]. right; right. split; [exact Hm|].
      exists p, i. split; [reflexivity|]. split; [exact Hi|].
      destruct (Encode_response
                  (http.Set_ (http.Set_ w "Content-Type" HTTPContentTypeJSON)
                     "Cache-Control" HTTPCacheControl)
                  (MarshalJSON codec i (store (snd gw))) http.StatusOK Hw) as (S1 & S2 & S3).
      split; [exact S1|]. rewrite !S2. split; [|split; [|exact S3]].
      * unfold http.Set_, http.with_header, http.Header_Set, http.Header. cbn [http.header].
        rewrite lookup_insert_ne by discriminate. apply lookup_insert_eq.
      * unfold http.Set_, http.with_header, http.Header_Set, http.Header. cbn [http.header].
        apply lookup_insert_eq.
    + eexists _, gw. split; [reflexivity|]. right; left. split; [exact Hm|].
      split; [now exists e|]. now apply Error_response.
  - eexists _, (g, wd). split; [reflexivity|]. left. split; [exact Hm|].
    split; [reflexivity|].
    destruct (Error_response w HTTPErrorMethodNotAllowed http.StatusMethodNotAllowed Hw)
      as (S1 & _ & S3). now split.
Qed.

Lemma uninitialized_valid wd : valid_instance uninitialized wd.
Proof. intros p H. discriminate H. Qed.

Lemma Handler_responds_witness :
  exists w' gw,
    Handler fixture_codec (fixture_env doc_files) get_request fresh_writer uninitialized
      empty_world = Some (w', gw)
    /\ status w' = Some 200
    /\ sent w' "Content-Type" = Some ["application/json"]
    /\ http.body w' = "{project:svc@1.2.3}" +:+ nl.
Proof.
  destruct (Handler_responds fixture_codec (fixture_env doc_files) get_request fresh_writer
              uninitialized empty_world eq_refl (uninitialized_valid _))
    as (w' & gw & H & [(Hm & _)|[(_ & (e & He) & _)|(_ & p & i & HG & Hi & S & C & _ & B)]]).
  - now destruct Hm.
  - exfalso. apply (f_equal fst) in He. vm_compute in He. discriminate He.
  - exists w', gw. split; [exact H|]. split; [exact S|]. split; [exact C|].
    rewrite B. clear - HG Hi.
    assert (E : fst (Get (fixture_env doc_files) uninitialized empty_world) = Ok 0%nat
                /\ snd (snd (Get (fixture_env doc_files) uninitialized empty_world))
                   = snd (loadVersionInfo (fixture_env doc_files) [] empty_world))
      by (split; vm_compute; reflexivity).
    rewrite HG in E. cbn [fst snd] in E. destruct E as [[= ->] E]. rewrite E in Hi |- *.
    vm_compute in Hi. injection Hi as <-. vm_compute. reflexivity.
Defined.

(** X24.  The health endpoint answers every request on a writer
    nothing was sent on: 405 without touching the singleton for a method
    other than GET; otherwise the JSON content type with 200, status
    ["ok"] and the project version when [Get] succeeds, and with 503,
    status ["error"] and the fixed message when it fails.  The time stamp
    is the time of the request in both. *)
Theorem HealthHandler_responds (codec : Codec) (env : Env) (r : http.Request)
    (w : http.ResponseWriter) (g : Singleton) (wd : World) :
  http.wrote w = None ->
  valid_instance g wd ->
  exists w' gw,
    HealthHandler codec env r w g wd = Some (w', gw)
    /\ ((http.Method r <> "GET" /\ gw = (g, wd)
         /\ status w' = Some 405
         /\ http.body w' = http.body w +:+ "Method not allowed" +:+ nl)
        \/ (http.Method r = "GET" /\ (exists e, Get env g wd = (Err e, gw))
            /\ status w' = Some 503
            /\ sent w' "Content-Type" = Some ["application/json"]
            /\ http.body w'
               = http.body w +:+ encoded_line
                   (json_Marshal_healthResponse codec
                      {| hr_Status := "error"; hr_Version := "";
                         hr_Error := "version not available";
                         hr_Timestamp := time_Now env |}))
        \/ (http.Method r = "GET"
            /\ exists p i,
                Get env g wd = (Ok p, gw) /\ deref (snd gw) p = Some i
                /\ status w' = Some 200
                /\ sent w' "Content-Type" = Some ["application/json"]
                /\ http.body w'
                   = http.body w +:+ encoded_line
                       (json_Marshal_healthResponse codec
                          {| hr_Status := "ok"; hr_Version := Version (Project i);
                             hr_Error := ""; hr_Timestamp := time_Now env |}))).
Proof.
  intros Hw Hv. unfold HealthHandler.
  destruct (String.eqb_spec (http.Method r) http.MethodGet) as [Hm|Hm]; cbn [negb].
  - assert (HC : forall x, http.header (http.Set_ w "Content-Type" x) !! "Content-Type"
                           = Some [x]).
    { intros x. unfold http.Set_, http.with_header, http.Header_Set, http.Header. cbn [http.header].
      apply lookup_insert_eq. }
    destruct (Get env g wd) as [[p|e] gw] eqn:EG.
    + destruct (Get_pointer _ _ _ _ _ EG Hv) as [i Hi]. rewrite Hi.
      eexists _, gw. split; [reflexivity|]. right; right. split; [exact Hm|].
      exists p, i. split; [reflexivity|]. split; [exact Hi|].
      destruct (Encode_response (http.Set_ w "Content-Type" HTTPContentTypeJSON)
                  (json_Marshal_healthResponse codec
                     {| hr_Status := HTTPStatusOK; hr_Version := Version (Project i);
                        hr_Error := ""; hr_Timestamp := time_Now env |})
                  http.StatusOK Hw) as (S1 & S2 & S3).
      split; [exact S1|]. rewrite S2. split; [apply HC | exact S3].
    + eexists _, gw. split; [reflexivity|]. right; left. split; [exact Hm|].
      split; [now exists e|].
      destruct (Encode_response (http.Set_ w "Content-Type" HTTPContentTypeJSON)
                  (json_Marshal_healthResponse codec
                     {| hr_Status := HTTPStatusError; hr_Version := "";
                        hr_Error := HTTPHealthErrorMessage; hr_Timestamp := time_Now env |})
                  http.StatusServiceUnavailable Hw) as (S1 & S2 & S3).
      split; [exact S1|]. rewrite S2. split; [apply HC | exact S3].
  - eexists _, (g, wd). split; [reflexivity|]. left. split; [exact Hm|].
    split; [reflexivity|].
    destruct (Error_response w HTTPErrorMethodNotAllowed http.StatusMethodNotAllowed Hw)
      as (S1 & _ & S3). now split.
Qed.

Lemma HealthHandler_responds_witness :
  exists w' gw,
    HealthHandler fixture_codec (fixture_env ∅) get_request fresh_writer
      (failed_state uninitialized (Errorf "no manifest")) empty_world = Some (w', gw)
    /\ status w' = Some 503
    /\ http.body w' = "{status:error,version:}" +:+ nl.
Proof.
  destruct (HealthHandler_responds fixture_codec (fixture_env ∅) get_request fresh_writer
              (failed_state uninitialized (Errorf "no manifest")) empty_world eq_refl
              (uninitialized_valid _))
    as (w' & gw & H & [(Hm & _)|[(_ & _ & S & _ & B)|(_ & p & i & HG & _)]]).
  - now destruct Hm.
  - exists w', gw. split; [exact H|]. split; [exact S|]. rewrite B. reflexivity.
  - exfalso. apply (f_equal fst) in HG. vm_compute in HG. discriminate HG.
Defined.

(** X25.  The middleware calls the next handler once, with the same
    request, on a writer on which nothing more has been sent or written
    and whose headers are those it was given except for the two version
    headers: when [Get] succeeds, [X-App-Version] is the project
    version, and [X-Git-Commit] the commit unless that is ["dev"]; when
    [Get] fails the writer is handed on as it is.  Its own answer is the
    next handler's. *)
Theorem Middleware_adds_headers (env : Env) (next : HandlerT) (r : http.Request)
    (w : http.ResponseWriter) (g : Singleton) (wd : World) :
  valid_instance g wd ->
  exists w',
    Middleware env next r w g wd
    = next r w' (fst (snd (Get env g wd))) (snd (snd (Get env g wd)))
    /\ http.wrote w' = http.wrote w /\ http.body w' = http.body w
    /\ (forall key, key <> "X-App-Version" -> key <> "X-Git-Commit" ->
          http.header w' !! key = http.header w !! key)
    /\ match fst (Get env g wd) with
       | Err _ => w' = w
       | Ok p =>
           exists i, deref (snd (snd (Get env g wd))) p = Some i
             /\ http.header w' !! "X-App-Version" = Some [Version (Project i)]
             /\ http.header w' !! "X-Git-Commit"
                = (if String.eqb (Commit (Git i)) "dev"
                   then http.header w !! "X-Git-Commit"
                   else Some [Commit (Git i)])
       end.
Proof.
  intros Hv. unfold Middleware.
  destruct (Get env g wd) as [[p|e] gw] eqn:EG; cbn [fst snd].
  - destruct (Get_pointer _ _ _ _ _ EG Hv) as [i Hi]. rewrite Hi.
    eexists. split; [reflexivity|].
    unfold http.Set_, http.with_header, http.Header_Set, http.Header.
    destruct (String.eqb (Commit (Git i)) DefaultGitCommit) eqn:Ec;
      cbn [negb http.wrote http.body http.header].
    + split; [reflexivity|]. split; [reflexivity|]. split.
      * intros key K1 K2. now apply lookup_insert_ne.
      * exists i. split; [reflexivity|]. split; [apply lookup_insert_eq|].
        change ("dev") with DefaultGitCommit. rewrite Ec.
        now apply lookup_insert_ne.
    + split; [reflexivity|]. split; [reflexivity|]. split.
      * intros key K1 K2. rewrite lookup_insert_ne by (intros <-; now apply K2).
        now apply lookup_insert_ne.
      * exists i. split; [reflexivity|]. split.
        -- rewrite lookup_insert_ne by discriminate. apply lookup_insert_eq.
        -- change ("dev") with DefaultGitCommit. rewrite Ec. apply lookup_insert_eq.
  - exists w. repeat split.
Qed.

Lemma Middleware_adds_headers_witness :
  exists w' gw,
    Middleware (fixture_env doc_files) echo_handler get_request fresh_writer uninitialized
      empty_world = Some (w', gw)
    /\ http.body w' = "1.2.3" /\ status w' = Some 204.
Proof.
  destruct (Middleware_adds_headers (fixture_env doc_files) echo_handler get_request
              fresh_writer uninitialized empty_world (uninitialized_valid _))
    as (w1 & H & Hw & Hb & _ & HG).
  assert (E : fst (Get (fixture_env doc_files) uninitialized empty_world) = Ok 0%nat
              /\ snd (snd (Get (fixture_env doc_files) uninitialized empty_world))
                 = snd (loadVersionInfo (fixture_env doc_files) [] empty_world))
    by (split; vm_compute; reflexivity).
  destruct E as [E1 E2]. rewrite E1 in HG. destruct HG as (i & Hi & Hv & _).
  rewrite E2 in Hi. vm_compute in Hi. injection Hi as <-.
  unfold echo_handler, HTTPHeaderAppVersion in H. rewrite Hv in H.
  eexists _, _. split; [exact H|].
  unfold http.Write, http.WriteHeader, status. rewrite Hw, Hb. split; reflexivity.
Defined.

End HTTPTheorems.

(** ** The command line tool: printing a map *)

Section PrintSorted.

Lemma leb_compare a b : String.leb a b = true <-> lex_compare a b <> Gt.
Proof.
  unfold String.leb. rewrite String_compare_lex.
  destruct (lex_compare a b); split; congruence.
Qed.

Lemma ltb_compare a b : String.ltb a b = true <-> lex_compare a b = Lt.
Proof.
  unfold String.ltb. rewrite String_compare_lex.
  destruct (lex_compare a b); split; congruence.
Qed.

#[local] Instance le_total : Total sort.le.
Proof.
  intros a b. unfold sort.le. rewrite !leb_compare, (lex_compare_antisym a b).
  destruct (lex_compare a b); cbn; auto; left + right; discriminate.
Qed.

#[local] Instance le_trans : Transitive sort.le.
Proof.
  intros a b c. unfold sort.le. rewrite !leb_compare. intros H1 H2.
  destruct (lex_compare a b) eqn:E1; [| |congruence].
  - apply lex_compare_eq in E1. now subst b.
  - destruct (lex_compare b c) eqn:E2; [| |congruence].
    + apply lex_compare_eq in E2. subst c. now rewrite E1.
    + now rewrite (lex_compare_trans a b c E1 E2).
Qed.

#[local] Instance le_antisym : AntiSymm (=) sort.le.
Proof.
  intros a b. unfold sort.le. rewrite !leb_compare, (lex_compare_antisym a b).
  intros H1 H2. apply lex_compare_eq. destruct (lex_compare a b); cbn in *; congruence.
Qed.

Lemma range_keys (order : list string) :
  fold_left (fun keys k => (keys ++ [k])%list) order [] = order.
Proof.
  assert (H : forall acc, fold_left (fun keys k => (keys ++ [k])%list) order acc
                          = (acc ++ order)%list).
  { induction order as [|k order IH]; intros acc; cbn [fold_left].
    - now rewrite app_nil_r.
    - rewrite IH, <- app_assoc. reflexivity. }
  apply H.
Qed.

Lemma print_lines m keys : forall out,
  fold_left
    (fun out k =>
       out +:+ fmt.Sprintf ("  %s:" +:+ main.tab +:+ "%s" +:+ version.nl)
                 [fmt.Str k; fmt.Str (default "" (m !! k))])
    keys out
  = out +:+ String.concat "" (entry_line m <$> keys).
Proof.
  induction keys as [|k keys IH]; intros out; cbn [fold_left fmap list_fmap].
  - cbn [String.concat]. now rewrite string_app_nil_r.
  - rewrite IH.
    assert (E : fmt.Sprintf ("  %s:" +:+ main.tab +:+ "%s" +:+ version.nl)
                  [fmt.Str k; fmt.Str (default "" (m !! k))] = entry_line m k) by reflexivity.
    rewrite E, string_app_assoc. f_equal.
    destruct keys as [|k' keys]; cbn [fmap list_fmap String.concat].
    + now rewrite string_app_nil_r.
    + reflexivity.
Qed.

Lemma sorted_strict (l : list string) :
  NoDup l -> StronglySorted sort.le l -> StronglySorted byte_lt l.
Proof.
  intros Hnd Hs. induction Hs as [|a l Hs IH Ha]; [constructor|].
  apply NoDup_cons in Hnd as [Hnotin Hnd]. constructor; [now apply IH|].
  rewrite Forall_forall in Ha |- *. intros b Hb. specialize (Ha b Hb).
  unfold sort.le, byte_lt in *. rewrite leb_compare in Ha. rewrite ltb_compare.
  destruct (lex_compare a b) eqn:E; [|reflexivity|congruence].
  apply lex_compare_eq in E. subst b. contradiction.
Qed.

(** X26.  What [printSortedMap] writes does not depend on the order in
    which Go iterates over the map: for every iteration order it is one
    line per entry, ["  key:<TAB>value<NEWLINE>"], the keys strictly
    increasing in byte order, each key of the map once. *)
Theorem printSortedMap_deterministic (m : gmap string string) (order order' : list string) :
  order ≡ₚ keys_of m ->
  order' ≡ₚ keys_of m ->
  main.printSortedMap order m = main.printSortedMap order' m
  /\ exists keys,
       keys ≡ₚ keys_of m
       /\ StronglySorted byte_lt keys
       /\ main.printSortedMap order m = String.concat "" (entry_line m <$> keys).
Proof.
  intros Ho Ho'. unfold main.printSortedMap. cbv zeta. rewrite !range_keys, !print_lines.
  assert (E : sort.Strings order = sort.Strings order').
  { apply (Sorted_unique sort.le).
    - apply Sorted_merge_sort; apply _.
    - apply Sorted_merge_sort; apply _.
    - unfold sort.Strings. rewrite !merge_sort_Permutation. now rewrite Ho, Ho'. }
  split; [now rewrite E|].
  exists (sort.Strings order).
  assert (P : sort.Strings order ≡ₚ keys_of m).
  { unfold sort.Strings. now rewrite merge_sort_Permutation. }
  split; [exact P|]. split; [|reflexivity].
  apply sorted_strict.
  - rewrite P. apply NoDup_fst_map_to_list.
  - apply StronglySorted_merge_sort; apply _.
Qed.

Lemma printSortedMap_deterministic_witness :
  main.printSortedMap (keys_of components_map) components_map
  = main.printSortedMap (reverse (keys_of components_map)) components_map
  /\ exists keys,
       keys ≡ₚ keys_of components_map
       /\ StronglySorted byte_lt keys
       /\ main.printSortedMap (keys_of components_map) components_map
          = String.concat "" (entry_line components_map <$> keys).
Proof.
  apply (printSortedMap_deterministic components_map);
    [reflexivity | apply reverse_Permutation].
Defined.

(** The three components of the example, as the tool lists them. *)
Example printSortedMap_listed :
  main.printSortedMap ["redis"; "kafka"; "auth"] components_map
  = "  auth:" +:+ main.tab +:+ "1.0.1" +:+ version.nl
    +:+ "  kafka:" +:+ main.tab +:+ "3.6" +:+ version.nl
    +:+ "  redis:" +:+ main.tab +:+ "7.2" +:+ version.nl.
Proof. vm_compute. reflexivity. Qed.

End PrintSorted.

(** ** Options: how they compose *)

Section OptionsCompose.
Import version.

Lemma applyOptions_app opts more :
  applyOptions (opts ++ more)%list = fold_left (fun o opt => opt o) more (applyOptions opts).
Proof. unfold applyOptions. apply fold_left_app. Qed.

Lemma loadVersionInfo_options env opts opts' w :
  applyOptions opts = applyOptions opts' ->
  loadVersionInfo env opts w = loadVersionInfo env opts' w.
Proof. intros H. rewrite !loadVersionInfo_stages. now rewrite H. Qed.

Lemma settings_commute s1 s2 o :
  kind_of s1 <> kind_of s2 -> option_of s2 (option_of s1 o) = option_of s1 (option_of s2 o).
Proof.
  destruct s1 as [p1|d1|[|]|[|]|v1| |c1], s2 as [p2|d2|[|]|[|]|v2| |c2];
    cbn [kind_of]; intros H; try reflexivity; congruence.
Qed.

(** X27.  Options that write different fields commute: exchanging two
    neighbouring options of different kinds anywhere in a call changes
    neither the options the loader works with nor, therefore, anything
    the load does.  And two [WithValidators] in a row are one
    [WithValidators] with both lists. *)
Theorem options_commute (env : Env) (pre post : list setting) (s1 s2 : setting) (w : World) :
  kind_of s1 <> kind_of s2 ->
  applyOptions (option_of <$> (pre ++ s1 :: s2 :: post)%list)
  = applyOptions (option_of <$> (pre ++ s2 :: s1 :: post)%list)
  /\ loadVersionInfo env (option_of <$> (pre ++ s1 :: s2 :: post)%list) w
     = loadVersionInfo env (option_of <$> (pre ++ s2 :: s1 :: post)%list) w
  /\ (forall a b,
        loadVersionInfo env
          (option_of <$> (pre ++ AddValidators a :: AddValidators b :: post)%list) w
        = loadVersionInfo env (option_of <$> (pre ++ AddValidators (a ++ b) :: post)%list) w).
Proof.
  intros Hk.
  assert (E : applyOptions (option_of <$> (pre ++ s1 :: s2 :: post)%list)
              = applyOptions (option_of <$> (pre ++ s2 :: s1 :: post)%list)).
  { rewrite !fmap_app, !applyOptions_app. cbn [fmap list_fmap fold_left].
    now rewrite (settings_commute s1 s2 _ Hk). }
  split; [exact E|]. split; [now apply loadVersionInfo_options|].
  intros a b. apply loadVersionInfo_options.
  rewrite !fmap_app, !applyOptions_app. cbn [fmap list_fmap fold_left]. f_equal.
  unfold option_of, WithValidators. cbn [validators manifestPath manifestEmbed includeGit
                                          includeBuild strictMode ctx].
  now rewrite app_assoc.
Qed.

Lemma options_commute_witness :
  applyOptions (option_of <$> ([] ++ SetStrictMode :: SetGitInfo false :: [])%list)
  = applyOptions (option_of <$> ([] ++ SetGitInfo false :: SetStrictMode :: [])%list)
  /\ loadVersionInfo (fixture_env ∅)
       (option_of <$> ([] ++ SetStrictMode :: SetGitInfo false :: [])%list) empty_world
     = loadVersionInfo (fixture_env ∅)
         (option_of <$> ([] ++ SetGitInfo false :: SetStrictMode :: [])%list) empty_world.
Proof.
  destruct (options_commute (fixture_env ∅) [] [] SetStrictMode (SetGitInfo false) empty_world)
    as (H1 & H2 & _); [discriminate|]. split; [exact H1 | exact H2].
Defined.

End OptionsCompose.

(** ** semver: the texts Parse accepts *)

Section SemverAccepted.
Import strings strconv semver.

Lemma SplitN2_first c t :
  at_ (SplitN2 t c) 0 = match cut c t with Some (a, _) => a | None => t end.
Proof. unfold SplitN2. now destruct (cut c t) as [[a b]|]. Qed.

Lemma core_of_split t :
  at_ (SplitN2 (at_ (SplitN2 t "+") 0) "-") 0 = core_of t.
Proof.
  rewrite !SplitN2_first. induction t as [|x t IH]; [reflexivity|].
  cbn [cut core_of].
  destruct (Ascii.eqb x "+") eqn:Ep.
  - rewrite orb_true_r. reflexivity.
  - rewrite orb_false_r. destruct (cut "+" t) as [[a b]|].
    + cbn [cut]. destruct (Ascii.eqb x "-"); [reflexivity|].
      destruct (cut "-" a) as [[a' b']|]; now rewrite <- IH.
    + cbn [cut]. destruct (Ascii.eqb x "-"); [reflexivity|].
      destruct (cut "-" t) as [[a' b']|]; now rewrite <- IH.
Qed.

Lemma core_of_no_sign t :
  has_char "-" (core_of t) = false /\ has_char "+" (core_of t) = false.
Proof.
  induction t as [|x t [IH1 IH2]]; [split; reflexivity|]. cbn [core_of].
  destruct (Ascii.eqb x "-") eqn:E1, (Ascii.eqb x "+") eqn:E2; cbn [orb has_char];
    try (split; reflexivity).
  now rewrite E1, E2, IH1, IH2.
Qed.

Lemma Split_nonempty s c : Split s c <> [].
Proof.
  induction s as [|x s IH]; cbn [Split]; [discriminate|].
  destruct (Ascii.eqb x c); [discriminate|]. destruct (Split s c); discriminate.
Qed.

Lemma Atoi_decimal p :
  has_char "-" p = false -> has_char "+" p = false ->
  (exists n, Atoi p = Some n) <-> decimal p = true.
Proof.
  intros Hm Hp. unfold Atoi, decimal.
  destruct p as [|x r].
  - cbn. split; [intros [n H]; discriminate | discriminate].
  - assert (Hs : match String x r with
                 | String "+" r0 => (false, r0)
                 | String "-" r0 => (true, r0)
                 | _ => (false, String x r)
                 end = (false, String x r)).
    { cbn [has_char] in Hm, Hp. apply orb_false_elim in Hm as [Hm _].
      apply orb_false_elim in Hp as [Hp _].
      destruct x as [[] [] [] [] [] [] [] []]; try reflexivity; discriminate. }
    rewrite Hs. cbn [fst snd unsigned].
    destruct (digits_acc (String x r) 0) as [n|] eqn:E.
    + pose proof (digits_acc_nonneg _ _ _ (Z.le_refl 0) E) as Hn.
      assert (B : (minInt <=? n) = true) by (apply Z.leb_le; unfold minInt; lia).
      rewrite B. cbn [andb].
      destruct (n <=? maxInt); split; try discriminate; eauto.
      intros [n' H]. discriminate.
    + split; [intros [n H]; discriminate | discriminate].
Qed.

(** X28.  The texts [Parse] accepts.  After one leading ["v"] is
    dropped the text must not be empty, and its core, the text before the
    first ['-'] or ['+'], must be one, two or three dot-separated
    numbers, each a nonempty string of decimal digits (leading zeros
    allowed) whose value fits an [int].  Nothing is asked of the
    prerelease and the build metadata.  [Parse] succeeds on exactly these
    texts. *)
Theorem Parse_accepts (s : string) :
  (exists v, Parse s = Ok v) <-> accepted s = true.
Proof.
  rewrite Parse_parts. unfold accepted. cbv zeta. set (t := TrimPrefix s "v").
  destruct (String.eqb t "").
  { cbn [negb andb]. split; [intros [v H]; discriminate | discriminate]. }
  cbn [negb andb]. rewrite core_of_split.
  destruct (core_of_no_sign t) as [Hm Hp].
  pose proof (Split_parts "-" "." _ Hm) as Pm.
  pose proof (Split_parts "+" "." _ Hp) as Pp.
  pose proof (Split_nonempty (core_of t) ".") as Hne.
  set (pre := if (1 <? _)%nat then _ else _). set (build := if (1 <? _)%nat then _ else _).
  clearbody pre build.
  destruct (Split (core_of t) ".") as [|a [|b [|c [|d rest]]]]; [congruence| | | |].
  - pose proof (Atoi_decimal a (Pm 0%nat) (Pp 0%nat)) as Ha.
    unfold parse_parts, at_ in *. cbn [length Nat.ltb Nat.leb orb nth forallb andb] in *.
    rewrite andb_true_r. rewrite <- Ha.
    destruct (Atoi a) as [na|]; split; eauto; intros [v H]; discriminate.
  - pose proof (Atoi_decimal a (Pm 0%nat) (Pp 0%nat)) as Ha.
    pose proof (Atoi_decimal b (Pm 1%nat) (Pp 1%nat)) as Hb.
    unfold parse_parts, at_ in *. cbn [length Nat.ltb Nat.leb orb nth forallb andb] in *.
    rewrite andb_true_r, andb_true_iff. rewrite <- Ha, <- Hb.
    destruct (Atoi a) as [na|], (Atoi b) as [nb|]; split; eauto;
      try (intros [v H]; discriminate); intros [[? H1] [? H2]]; discriminate.
  - pose proof (Atoi_decimal a (Pm 0%nat) (Pp 0%nat)) as Ha.
    pose proof (Atoi_decimal b (Pm 1%nat) (Pp 1%nat)) as Hb.
    pose proof (Atoi_decimal c (Pm 2%nat) (Pp 2%nat)) as Hc.
    unfold parse_parts, at_ in *. cbn [length Nat.ltb Nat.leb orb nth forallb andb] in *.
    rewrite andb_true_r, !andb_true_iff. rewrite <- Ha, <- Hb, <- Hc.
    destruct (Atoi a) as [na|], (Atoi b) as [nb|], (Atoi c) as [nc|]; split;
      try (intros [v H]; discriminate); try solve [intros _; repeat split; eauto];
      intros ([? H1] & [? H2] & [? H3]); discriminate.
  - unfold parse_parts. cbn [length Nat.ltb Nat.leb orb andb].
    split; [intros [v H]; discriminate | discriminate].
Qed.

(** What is accepted beside the canonical form, and what is not. *)
Example Parse_accepts_listed :
  List.map accepted
    ["1.2.3"; "v1.2.3"; "2"; "01.002"; "1.2.3-"; "1.2-rc.1+x+y"; "1+"; "9223372036854775807";
     ""; "v"; "vv1"; "1.2.3.4"; "1..2"; "1.x"; "-1"; "+1"; "1.2.3 "; "9223372036854775808"]
  = [true; true; true; true; true; true; true; true;
     false; false; false; false; false; false; false; false; false; false].
Proof. vm_compute. reflexivity. Qed.

End SemverAccepted.

(** ** HTTP: the endpoints once the initialization is settled *)

Section EndpointsSettled.
Import version.

Lemma Get_after_failure env g e wd :
  IsInitialized g = false ->
  Get env (failed_state g e) wd = (Err e, (failed_state g e, wd)).
Proof.
  intros Hi. apply IsInitialized_false in Hi.
  destruct g as [inst once ierr]. cbn [instance] in Hi.
  destruct Hi as [-> | ->]; reflexivity.
Qed.

(** X29.  Once the initialization is settled the two endpoints give a
    steady answer to every GET, and answering changes neither the
    singleton nor the world (the pipeline is not run again).  With an
    instance published, both answer 200.  After a failed initialization
    the version endpoint answers 500 and the health endpoint 503, every
    time: a failure does not heal by being asked again. *)
Theorem endpoints_after_initialization (codec : Codec) (env : Env) (r : http.Request)
    (w : http.ResponseWriter) (wd : World) :
  http.wrote w = None ->
  http.Method r = "GET" ->
  (forall p i, deref wd p = Some i ->
     exists w1 w2,
       Handler codec env r w (published_state p) wd = Some (w1, (published_state p, wd))
       /\ status w1 = Some 200
       /\ HealthHandler codec env r w (published_state p) wd
          = Some (w2, (published_state p, wd))
       /\ status w2 = Some 200)
  /\ (forall g e, IsInitialized g = false ->
     exists w1 w2,
       Handler codec env r w (failed_state g e) wd = Some (w1, (failed_state g e, wd))
       /\ status w1 = Some 500
       /\ HealthHandler codec env r w (failed_state g e) wd
          = Some (w2, (failed_state g e, wd))
       /\ status w2 = Some 503).
Proof.
  intros Hw Hm. split.
  - intros p i Hi. unfold Handler, HealthHandler. rewrite Hm.
    change (Get env (published_state p) wd) with (Ok p, (published_state p, wd)).
    cbn [String.eqb Ascii.eqb Bool.eqb negb snd]. rewrite Hi.
    eexists _, _. split; [reflexivity|]. split; [|split; [reflexivity|]].
    + now apply Encode_response.
    + now apply Encode_response.
  - intros g e Hg. unfold Handler, HealthHandler. rewrite Hm, (Get_after_failure _ _ _ _ Hg).
    cbn [String.eqb Ascii.eqb Bool.eqb negb snd].
    eexists _, _. split; [reflexivity|]. split; [|split; [reflexivity|]].
    + now apply Error_response.
    + now apply Encode_response.
Qed.

Lemma endpoints_after_initialization_witness :
  exists w1 w2,
    Handler fixture_codec (fixture_env ∅) get_request fresh_writer
      (failed_state uninitialized (Errorf "no manifest")) empty_world
    = Some (w1, (failed_state uninitialized (Errorf "no manifest"), empty_world))
    /\ status w1 = Some 500
    /\ HealthHandler fixture_codec (fixture_env ∅) get_request fresh_writer
         (failed_state uninitialized (Errorf "no manifest")) empty_world
       = Some (w2, (failed_state uninitialized (Errorf "no manifest"), empty_world))
    /\ status w2 = Some 503.
Proof.
  destruct (endpoints_after_initialization fixture_codec (fixture_env ∅) get_request
              fresh_writer empty_world eq_refl eq_refl) as [_ H].
  apply (H uninitialized (Errorf "no manifest") eq_refl).
Defined.

End EndpointsSettled.

(** ** semver: distinct versions print differently *)

Section SemverInjective.
Import strings strconv semver.

(** X30.  [String] is injective on the versions [Parse] can return:
    two versions with numbers that are not negative and prereleases
    without ['+'] that print the same text are the same version, build
    metadata included. *)
Theorem String_injective (a b : Version) :
  printable a -> printable b -> String_ a = String_ b -> a = b.
Proof.
  intros (A1 & A2 & A3 & A4) (B1 & B2 & B3 & B4) H.
  pose proof (Parse_printed a A1 A2 A3 A4) as Pa.
  pose proof (Parse_printed b B1 B2 B3 B4) as Pb.
  rewrite H, Pb in Pa. now injection Pa.
Qed.

Lemma String_injective_witness :
  with_build v_1_2_3 "" = v_1_2_3.
Proof.
  apply (String_injective (with_build v_1_2_3 "") v_1_2_3);
    [unfold printable, maxInt; cbn; repeat split; try lia; discriminate
    |unfold printable, maxInt; cbn; repeat split; try lia; discriminate
    |reflexivity].
Defined.

End SemverInjective.
